(** * The protocol schema compiler and the cached user agent

    A shallow embedding of [utils/generate_channels.js] (the generator of
    [channels.ts] and [validator.ts] from the parsed [protocol.yml]) and of
    [packages/playwright-core/src/common/userAgent.ts], with the properties
    of both that the specification states.

    Conventions of the embedding:
    - a JavaScript value of the parsed document is a [value]; its numbers
      are the integers, its strings are sequences of one-byte code units,
      and [toUpperCase] is modelled on the ASCII range;
    - an object is the list [Object.entries] yields for it, so the keys of
      an object of a real document are pairwise distinct and none of them
      is an array index, and the order of the list is the document order;
    - a computation that may throw returns an [outcome]; the mutually
      recursive functions of the type resolver take a [fuel], the number
      of nested calls the stack of the engine has room for, and a call
      made when none is left throws [RangeError], as the engine does when
      the stack is exhausted; [OutOfFuel] stands for a computation that
      does not return, as a query the user agent makes of its host may,
      while every call of the generator returns or throws;
    - what the script keeps in globals ([channels], [inherits], [mixins],
      the output arrays, [hasChanges]) and what it reads and writes on the
      file system is passed as explicit state. *)

From Stdlib Require Import String Ascii List ZArith Lia Bool Arith DecimalString.
Import ListNotations.
Open Scope string_scope.

(** ** JavaScript values and the operations the two programs use *)

Module Js.

#[local] Set Warnings "-register-all".

Inductive value : Type :=
| VUndefined
| VNull
| VBool (b : bool)
| VNum (n : Z)
| VStr (s : string)
| VArr (items : list value)
| VObj (fields : list (string * value)).

Inductive error : Type :=
| TypeError
| RangeError
| InvalidItem (item : value)
| ENOENT (path : string)
| Failure (message : string).

Inductive outcome (A : Type) : Type :=
| Ok (a : A)
| Throw (e : error)
| OutOfFuel.

Arguments Ok {A} a.
Arguments Throw {A} e.
Arguments OutOfFuel {A}.

Definition bind {A B : Type} (c : outcome A) (k : A -> outcome B) : outcome B :=
  match c with
  | Ok a => k a
  | Throw e => Throw e
  | OutOfFuel => OutOfFuel
  end.

Notation "x <- c ;; k" := (bind c (fun x => k))
  (at level 61, c at next level, right associativity).

(** What a computation returned, if it did. *)
Definition result {A : Type} (c : outcome A) : option A :=
  match c with
  | Ok a => Some a
  | _ => None
  end.

(** [for (const x of l) body], the state of the loop passed along. *)
Fixpoint forEach {A S : Type} (body : A -> S -> outcome S) (l : list A) (s : S)
  : outcome S :=
  match l with
  | [] => Ok s
  | x :: rest => s' <- body x s ;; forEach body rest s'
  end.

(** [a.push(x)] *)
Definition push {A : Type} (a : list A) (x : A) : list A := app a [x].

Definition nl : string := String (ascii_of_nat 10) "".
Definition dq : string := String (ascii_of_nat 34) "".

Definition startsWith (s p : string) : bool := prefix p s.

Definition endsWith (s suffix : string) : bool :=
  let n := String.length s in
  let m := String.length suffix in
  (m <=? n)%nat && (substring (n - m) m s =? suffix).

(** [s.substring(0, s.length - 1)] *)
Definition dropLast (s : string) : string := substring 0 (String.length s - 1) s.

Definition toUpperCase1 (c : ascii) : ascii :=
  let n := nat_of_ascii c in
  if ((97 <=? n) && (n <=? 122))%nat then ascii_of_nat (n - 32) else c.

(** [s.split(c)] for a one-character separator. *)
Fixpoint split (c : ascii) (s : string) : list string :=
  match s with
  | EmptyString => [""]
  | String a rest =>
      if Ascii.eqb a c then "" :: split c rest
      else match split c rest with
           | [] => [String a ""]
           | w :: ws => String a w :: ws
           end
  end.

Definition join (sep : string) (l : list string) : string := String.concat sep l.

Definition string_of_nat (n : nat) : string := NilEmpty.string_of_uint (Nat.to_uint n).

(** The conversion a template literal or [+] applies to a value. *)
Fixpoint toString (v : value) : string :=
  match v with
  | VUndefined => "undefined"
  | VNull => "null"
  | VBool true => "true"
  | VBool false => "false"
  | VNum n => NilZero.string_of_int (Z.to_int n)
  | VStr s => s
  | VArr l =>
      join "," (map (fun x => match x with
                              | VUndefined | VNull => ""
                              | _ => toString x
                              end) l)
  | VObj _ => "[object Object]"
  end.

Definition truthy (v : value) : bool :=
  match v with
  | VUndefined | VNull | VBool false => false
  | VNum n => negb (n =? 0)%Z
  | VStr s => negb (s =? "")
  | _ => true
  end.

(** [a || b] *)
Definition orElse (a b : value) : value := if truthy a then a else b.

(** [v === 'literal'] *)
Definition isStr (v : value) (s : string) : bool :=
  match v with
  | VStr s' => s' =? s
  | _ => false
  end.

Fixpoint lookup (k : string) (l : list (string * value)) : value :=
  match l with
  | [] => VUndefined
  | (k', x) :: rest => if k =? k' then x else lookup k rest
  end.

(** [v.k] for the property names the programs read ([type], [extends],
    [properties], [items], [literals], [initializer], [events], [commands],
    [parameters], [returns], [tracing], [snapshot], [pausesBeforeInput]):
    none of them is a property of a string, a number, a boolean or an
    array, and reading a property of [null] or [undefined] throws. *)
Definition get (v : value) (k : string) : outcome value :=
  match v with
  | VUndefined | VNull => Throw TypeError
  | VObj l => Ok (lookup k l)
  | _ => Ok VUndefined
  end.

Fixpoint indexed {A : Type} (i : nat) (l : list A) : list (string * A) :=
  match l with
  | [] => []
  | x :: rest => (string_of_nat i, x) :: indexed (S i) rest
  end.

Definition chars (s : string) : list value :=
  map (fun c => VStr (String c "")) (list_ascii_of_string s).

(** [Object.entries(v)] *)
Definition entries (v : value) : outcome (list (string * value)) :=
  match v with
  | VUndefined | VNull => Throw TypeError
  | VObj l => Ok l
  | VArr l => Ok (indexed 0 l)
  | VStr s => Ok (indexed 0 (chars s))
  | VBool _ | VNum _ => Ok []
  end.

(** Key equality of [Map] and [Set]. Arrays and objects are compared by
    identity, and distinct nodes of a parsed document are distinct
    objects. *)
Definition sameValueZero (a b : value) : bool :=
  match a, b with
  | VUndefined, VUndefined => true
  | VNull, VNull => true
  | VBool x, VBool y => Bool.eqb x y
  | VNum x, VNum y => (x =? y)%Z
  | VStr x, VStr y => x =? y
  | _, _ => false
  end.

(** [Map.prototype.get] and [Map.prototype.set] (a key that is already
    there keeps its place). *)
Fixpoint mapGet {V : Type} (k : value) (m : list (value * V)) : option V :=
  match m with
  | [] => None
  | (k', v) :: rest => if sameValueZero k k' then Some v else mapGet k rest
  end.

Fixpoint mapSet {V : Type} (k : value) (v : V) (m : list (value * V))
  : list (value * V) :=
  match m with
  | [] => [(k, v)]
  | (k', v') :: rest =>
      if sameValueZero k k' then (k', v) :: rest else (k', v') :: mapSet k v rest
  end.

(** [Set.prototype.add] *)
Definition setAdd (k : string) (s : list string) : list string :=
  if existsb (String.eqb k) s then s else push s k.

Definition setHas (k : string) (s : list string) : bool := existsb (String.eqb k) s.

End Js.

(** ** utils/generate_channels.js *)

Module GenerateChannels.
Import Js.

(** What [inlineType] returns, and what [properties] and [objectType] do. *)
Record resolved : Type := { ts : string; scheme : string; optional : bool }.
Record rendered : Type := { ts_lines : string; scheme_lines : string }.

Definition raise {A : Type} (item : value) : outcome A := Throw (InvalidItem item).

Definition titleCase (name : string) : outcome string :=
  match name with
  | EmptyString => Throw TypeError
  | String c rest => Ok (String (toUpperCase1 c) rest)
  end.

Definition quoted (literal : value) : string := "'" ++ toString literal ++ "'".

Section Resolver.

(** The globals [channels] and [mixins], filled before any type is resolved. *)
Variable channels : list string.
Variable mixins : list (value * value).

(** The branch of [inlineType] for a type given as a string. *)
Definition inlineString (type : string) : outcome resolved :=
  let optional := endsWith type "?" in
  let type := if optional then dropLast type else type in
  if type =? "binary" then
    Ok {| ts := "Binary"; scheme := "tBinary"; optional := optional |}
  else if type =? "json" then
    Ok {| ts := "any"; scheme := "tAny"; optional := optional |}
  else if existsb (String.eqb type) ["string"; "boolean"; "number"; "undefined"] then
    t <- titleCase type ;;
    Ok {| ts := type; scheme := "t" ++ t; optional := optional |}
  else if setHas type channels then
    Ok {| ts := type ++ "Channel"; scheme := "tChannel('" ++ type ++ "')";
          optional := optional |}
  else if type =? "Channel" then
    Ok {| ts := "Channel"; scheme := "tChannel('*')"; optional := optional |}
  else
    Ok {| ts := type; scheme := "tType('" ++ type ++ "')"; optional := optional |}.

(** One iteration of the loop of [visitProperties] on an entry that is not
    a mixin, [inner] being its resolved type. *)
Definition pushProperty (indent name : string) (onlyOptional : bool)
    (inner : resolved) (acc : list string * list string)
  : list string * list string :=
  if onlyOptional && negb (optional inner) then acc
  else
    let wrapped :=
      if optional inner then "tOptional(" ++ scheme inner ++ ")" else scheme inner in
    (push (fst acc)
          (indent ++ name ++ (if optional inner then "?" else "") ++ ": " ++ ts inner ++ ","),
     push (snd acc) (indent ++ name ++ ": " ++ wrapped ++ ",")).

Fixpoint inlineType (fuel : nat) (type : value) (indent : string) (wrapEnums : bool)
    {struct fuel} : outcome resolved :=
  match fuel with
  | O => Throw RangeError
  | S fuel' =>
    match type with
    | VStr s => inlineString s
    | _ =>
      tag <- get type "type" ;;
      match tag with
      | VStr tag =>
        if startsWith tag "array" then
          let optional := endsWith tag "?" in
          items <- get type "items" ;;
          inner <- inlineType fuel' items indent true ;;
          Ok {| ts := ts inner ++ "[]"; scheme := "tArray(" ++ scheme inner ++ ")";
                optional := optional |}
        else if startsWith tag "enum" then
          let optional := endsWith tag "?" in
          literals <- get type "literals" ;;
          match literals with
          | VArr literals =>
            let union := join " | " (map quoted literals) in
            Ok {| ts := if wrapEnums then "(" ++ union ++ ")" else union;
                  scheme := "tEnum([" ++ join ", " (map quoted literals) ++ "])";
                  optional := optional |}
          | _ => Throw TypeError
          end
        else if startsWith tag "object" then
          let optional := endsWith tag "?" in
          props <- get type "properties" ;;
          inner <- properties fuel' props (indent ++ "  ") false ;;
          Ok {| ts := "{" ++ nl ++ ts_lines inner ++ nl ++ indent ++ "}";
                scheme := "tObject({" ++ nl ++ scheme_lines inner ++ nl ++ indent ++ "})";
                optional := optional |}
        else raise type
      | _ => Throw TypeError
      end
    end
  end

with properties (fuel : nat) (props : value) (indent : string) (onlyOptional : bool)
    {struct fuel} : outcome rendered :=
  match fuel with
  | O => Throw RangeError
  | S fuel' =>
    acc <- visitProperties fuel' props indent onlyOptional ([], []) ;;
    Ok {| ts_lines := join nl (fst acc); scheme_lines := join nl (snd acc) |}
  end

(** The closure [visitProperties]; [acc] holds the arrays [ts] and [scheme]
    it pushes to. *)
with visitProperties (fuel : nat) (props : value) (indent : string)
    (onlyOptional : bool) (acc : list string * list string)
    {struct fuel} : outcome (list string * list string) :=
  match fuel with
  | O => Throw RangeError
  | S fuel' =>
    es <- entries props ;;
    forEach (fun (entry : string * value) acc =>
               let '(name, v) := entry in
               if startsWith name "$mixin" then
                 match mapGet v mixins with
                 | None => Throw TypeError
                 | Some m =>
                   p <- get m "properties" ;;
                   visitProperties fuel' p indent onlyOptional acc
                 end
               else
                 inner <- inlineType fuel' v indent false ;;
                 Ok (pushProperty indent name onlyOptional inner acc))
            es acc
  end.

Definition objectType (fuel : nat) (props : value) (indent : string)
    (onlyOptional : bool) : outcome rendered :=
  es <- entries props ;;
  match es with
  | [] => Ok {| ts_lines := "{}"; scheme_lines := "tObject({})" |}
  | _ =>
    inner <- properties fuel props (indent ++ "  ") onlyOptional ;;
    Ok {| ts_lines := "{" ++ nl ++ ts_lines inner ++ nl ++ indent ++ "}";
          scheme_lines := "tObject({" ++ nl ++ scheme_lines inner ++ nl ++ indent ++ "})" |}
  end.

End Resolver.

(** [path.basename(__filename)] *)
Definition generatorName : string := "generate_channels.js".

Definition license : string :=
"/**
 * Copyright (c) Microsoft Corporation.
 *
 * Licensed under the Apache License, Version 2.0 (the " ++ dq ++ "License" ++ dq ++ ");
 * you may not use this file except in compliance with the License.
 * You may obtain a copy of the License at
 *
 * http://www.apache.org/licenses/LICENSE-2.0
 *
 * Unless required by applicable law or agreed to in writing, software
 * distributed under the License is distributed on an " ++ dq ++ "AS IS" ++ dq ++ " BASIS,
 * WITHOUT WARRANTIES OR CONDITIONS OF ANY KIND, either express or implied.
 * See the License for the specific language governing permissions and
 * limitations under the License.
 */
".

(** The first element of [channels_ts]. *)
Definition channelsHeader : string :=
license ++ "
// This file is generated by " ++ generatorName ++ ", do not edit manually.

export type Binary = string;

export interface Channel {
}
".

(** The first element of [validator_ts]. *)
Definition validatorHeader : string :=
license ++ "
// This file is generated by " ++ generatorName ++ ", do not edit manually.

import type { Validator } from './validatorPrimitives';
import { ValidationError, tOptional, tObject, tBoolean, tNumber, tString, tAny, tEnum, tArray, tBinary } from './validatorPrimitives';
export type { Validator } from './validatorPrimitives';
export { ValidationError } from './validatorPrimitives';

type Scheme = { [key: string]: Validator };

export function createScheme(tChannel: (name: string) => Validator): Scheme {
  const scheme: Scheme = {};

  const tType = (name: string): Validator => {
    return (arg: any, path: string) => {
      const v = scheme[name];
      if (!v)
        throw new ValidationError(path + ': unknown type " ++ dq ++ "' + name + '" ++ dq ++ "');
      return v(arg, path);
    };
  };
".

(** The arrays the script fills: the two outputs and the two lists of
    command names. [assignments] is no variable of the script: it records,
    in order, the statements [scheme.name = s;] that [addScheme] has
    written into [validator_ts], which are the ones the emitted
    [createScheme] runs. *)
Record output : Type := {
  channels_ts : list string;
  validator_ts : list string;
  tracingSnapshots : list string;
  pausesBeforeInputActions : list string;
  assignments : list (string * string)
}.

Definition emit (line : string) (o : output) : output :=
  {| channels_ts := push (channels_ts o) line;
     validator_ts := validator_ts o;
     tracingSnapshots := tracingSnapshots o;
     pausesBeforeInputActions := pausesBeforeInputActions o;
     assignments := assignments o |}.

(** The lines [addScheme] pushes for [scheme.name = s;]. *)
Definition schemeLines (name s : string) : list string :=
  let lines := split (ascii_of_nat 10) ("scheme." ++ name ++ " = " ++ s ++ ";") in
  map (fun line => "  " ++ line) lines.

Definition addScheme (name s : string) (o : output) : output :=
  {| channels_ts := channels_ts o;
     validator_ts := app (validator_ts o) (schemeLines name s);
     tracingSnapshots := tracingSnapshots o;
     pausesBeforeInputActions := pausesBeforeInputActions o;
     assignments := push (assignments o) (name, s) |}.

Definition pushSnapshots (names : list string) (o : output) : output :=
  {| channels_ts := channels_ts o;
     validator_ts := validator_ts o;
     tracingSnapshots := app (tracingSnapshots o) names;
     pausesBeforeInputActions := pausesBeforeInputActions o;
     assignments := assignments o |}.

Definition pushPauses (names : list string) (o : output) : output :=
  {| channels_ts := channels_ts o;
     validator_ts := validator_ts o;
     tracingSnapshots := tracingSnapshots o;
     pausesBeforeInputActions := app (pausesBeforeInputActions o) names;
     assignments := assignments o |}.

(** The globals [channels], [inherits] and [mixins]. *)
Record registries : Type := {
  channels : list string;
  inherits : list (value * value);
  mixins : list (value * value)
}.

(** The body of the first loop over the document. *)
Definition register (entry : string * value) (r : registries) : outcome registries :=
  let '(name, v) := entry in
  type <- get v "type" ;;
  r1 <- (if isStr type "interface" then
           ext <- get v "extends" ;;
           Ok {| channels := setAdd name (channels r);
                 inherits := if truthy ext then mapSet (VStr name) ext (inherits r)
                             else inherits r;
                 mixins := mixins r |}
         else Ok r) ;;
  Ok (if isStr type "mixin" then
        {| channels := channels r1;
           inherits := inherits r1;
           mixins := mapSet (VStr name) v (mixins r1) |}
      else r1).

(** The body of the loop that fills [derivedClasses]. *)
Definition derive (entry : string * value) (derivedClasses : list (value * list string))
  : outcome (list (value * list string)) :=
  let '(name, item) := entry in
  type <- get item "type" ;;
  if isStr type "interface" then
    ext <- get item "extends" ;;
    if truthy ext then
      match mapGet ext derivedClasses with
      | Some items => Ok (mapSet ext (push items name) derivedClasses)
      | None => Ok (mapSet ext [name] derivedClasses)
      end
    else Ok derivedClasses
  else Ok derivedClasses.

(** [derivedClasses.get(name) || []] *)
Definition derivedOf (derivedClasses : list (value * list string)) (name : string)
  : list string :=
  match mapGet (VStr name) derivedClasses with
  | Some items => items
  | None => []
  end.

(** One of the three loops over [entriesInReverse]. *)
Definition trait (suffix : string) (entry : string * value) (o : output) : outcome output :=
  let '(name, item) := entry in
  type <- get item "type" ;;
  if negb (isStr type "interface") then Ok o
  else Ok (emit ("    T extends " ++ name ++ "Channel ? " ++ name ++ suffix ++ " :") o).

(** [ts_types.set(name, text)]: the map is keyed by strings. *)
Definition setType (name text : string) (ts_types : list (value * string))
  : list (value * string) := mapSet (VStr name) text ts_types.

Section Emitter.

Variable fuel : nat.
Variable r : registries.
Variable derivedClasses : list (value * list string).

(** The body of the loop over the events of the channel [channelName];
    the state is [ts_types], [eventTypes] and the output. *)
Definition emitEvent (channelName : string) (entry : string * value)
    (st : list (value * string) * list (string * string) * output)
  : outcome (list (value * string) * list (string * string) * output) :=
  let '(eventName, event) := entry in
  let '(ts_types, eventTypes, o) := st in
  let event := match event with VNull => VObj [] | _ => event end in
  p <- get event "parameters" ;;
  parameters <- objectType (channels r) (mixins r) fuel (orElse p (VObj [])) "" false ;;
  t <- titleCase eventName ;;
  let paramsName := channelName ++ t ++ "Event" in
  Ok (setType paramsName (ts_lines parameters) ts_types,
      push eventTypes (eventName, paramsName),
      emit ("  on(event: '" ++ eventName ++ "', callback: (params: " ++ paramsName
              ++ ") => void): this;") o).

(** [method.tracing && method.tracing.flag] *)
Definition tracingFlag (method : value) (flag : string) : outcome value :=
  tracing <- get method "tracing" ;;
  if truthy tracing then get tracing flag else Ok tracing.

(** The loop over [inherits.keys()] that registers the aliases of a command. *)
Definition addAliases (channelName methodName paramsName : string) (o : output)
  : outcome output :=
  forEach (fun (entry : value * value) o =>
             let '(key, parent) := entry in
             if isStr parent channelName then
               t <- titleCase methodName ;;
               Ok (addScheme (toString key ++ t ++ "Params")
                             ("tType('" ++ paramsName ++ "')") o)
             else Ok o)
          (inherits r) o.

(** The body of the loop over the commands of the channel [name]; the
    state is [ts_types] and the output. *)
Definition emitCommand (name : string) (entry : string * value)
    (st : list (value * string) * output)
  : outcome (list (value * string) * output) :=
  let channelName := name in
  let '(methodName, method) := entry in
  let '(ts_types, o) := st in
  let method := match method with VNull => VObj [] | _ => method end in
  snapshot <- tracingFlag method "snapshot" ;;
  let o :=
    if truthy snapshot then
      pushSnapshots ((name ++ "." ++ methodName)
                       :: map (fun derived => derived ++ "." ++ methodName)
                              (derivedOf derivedClasses name)) o
    else o in
  pauses <- tracingFlag method "pausesBeforeInput" ;;
  let o :=
    if truthy pauses then
      pushPauses ((name ++ "." ++ methodName)
                    :: map (fun derived => derived ++ "." ++ methodName)
                           (derivedOf derivedClasses name)) o
    else o in
  p <- get method "parameters" ;;
  parameters <- objectType (channels r) (mixins r) fuel (orElse p (VObj [])) "" false ;;
  t <- titleCase methodName ;;
  let paramsName := channelName ++ t ++ "Params" in
  let optionsName := channelName ++ t ++ "Options" in
  let ts_types := setType paramsName (ts_lines parameters) ts_types in
  options <- objectType (channels r) (mixins r) fuel (orElse p (VObj [])) "" true ;;
  let ts_types := setType optionsName (ts_lines options) ts_types in
  let o := addScheme paramsName
             (if truthy p then scheme_lines parameters else "tOptional(tObject({}))") o in
  o <- addAliases channelName methodName paramsName o ;;
  let resultName := channelName ++ t ++ "Result" in
  ret <- get method "returns" ;;
  returns <- objectType (channels r) (mixins r) fuel (orElse ret (VObj [])) "" false ;;
  let ts_types := setType resultName (if truthy ret then ts_lines returns else "void")
                          ts_types in
  Ok (ts_types,
      emit ("  " ++ methodName ++ "(params" ++ (if truthy p then "" else "?") ++ ": "
              ++ paramsName ++ ", metadata?: Metadata): Promise<" ++ resultName ++ ">;") o).

(** The branch of the main loop for an entity of type [interface]. *)
Definition emitInterface (name : string) (item : value) (o : output) : outcome output :=
  let channelName := name in
  let o := emit ("// ----------- " ++ channelName ++ " -----------") o in
  i <- get item "initializer" ;;
  init <- objectType (channels r) (mixins r) fuel (orElse i (VObj [])) "" false ;;
  let initializerName := channelName ++ "Initializer" in
  let o := emit ("export type " ++ initializerName ++ " = " ++ ts_lines init ++ ";") o in
  let o := emit ("export interface " ++ channelName ++ "EventTarget {") o in
  evs <- get item "events" ;;
  events <- entries (orElse evs (VObj [])) ;;
  st <- forEach (emitEvent channelName) events ([], [], o) ;;
  let '(ts_types, eventTypes, o) := st in
  let o := emit "}" o in
  ext <- get item "extends" ;;
  let o := emit ("export interface " ++ channelName ++ "Channel extends " ++ channelName
                   ++ "EventTarget, " ++ toString (orElse ext (VStr "")) ++ "Channel {") o in
  let o := emit ("  _type_" ++ channelName ++ ": boolean;") o in
  cmds <- get item "commands" ;;
  commands <- entries (orElse cmds (VObj [])) ;;
  st <- forEach (emitCommand name) commands (ts_types, o) ;;
  let '(ts_types, o) := st in
  let o := emit "}" o in
  let o := fold_left (fun o (entry : value * string) =>
                        let '(typeName, typeValue) := entry in
                        emit ("export type " ++ toString typeName ++ " = " ++ typeValue ++ ";") o)
                     ts_types o in
  let o := emit "" o in
  let o := emit ("export interface " ++ channelName ++ "Events {") o in
  let o := fold_left (fun o (entry : string * string) =>
                        let '(eventName, eventType) := entry in
                        emit ("  '" ++ eventName ++ "': " ++ eventType ++ ";") o)
                     eventTypes o in
  Ok (emit ("}" ++ nl) o).

(** The body of the main loop over the document. *)
Definition emitEntity (entry : string * value) (o : output) : outcome output :=
  let '(name, item) := entry in
  type <- get item "type" ;;
  if isStr type "interface" then emitInterface name item o
  else if isStr type "object" then
    props <- get item "properties" ;;
    inner <- objectType (channels r) (mixins r) fuel props "" false ;;
    let o := emit ("export type " ++ name ++ " = " ++ ts_lines inner ++ ";") o in
    let o := emit "" o in
    Ok (addScheme name (scheme_lines inner) o)
  else if isStr type "enum" then
    literals <- get item "literals" ;;
    match literals with
    | VArr literals =>
      let ts := join " | " (map quoted literals) in
      let o := emit ("export type " ++ name ++ " = " ++ ts ++ ";") o in
      Ok (addScheme name ("tEnum([" ++ join ", " (map quoted literals) ++ "])") o)
    | _ => Throw TypeError
    end
  else Ok o.

End Emitter.

Definition initial : output :=
  {| channels_ts := [channelsHeader];
     validator_ts := [validatorHeader];
     tracingSnapshots := [];
     pausesBeforeInputActions := [];
     assignments := [] |}.

Definition finish (o : output) : output :=
  {| channels_ts := channels_ts o;
     validator_ts := push (validator_ts o) (nl ++ "  return scheme;" ++ nl ++ "}" ++ nl);
     tracingSnapshots := tracingSnapshots o;
     pausesBeforeInputActions := pausesBeforeInputActions o;
     assignments := assignments o |}.

(** The three trait mappings, from the entries in reverse. *)
Definition emitTraits (entriesInReverse : list (string * value)) (o : output)
  : outcome output :=
  let o := emit "// ----------- Initializer Traits -----------" o in
  let o := emit "export type InitializerTraits<T> =" o in
  o <- forEach (trait "Initializer") entriesInReverse o ;;
  let o := emit "    object;" o in
  let o := emit "" o in
  let o := emit "// ----------- Event Traits -----------" o in
  let o := emit "export type EventsTraits<T> =" o in
  o <- forEach (trait "Events") entriesInReverse o ;;
  let o := emit "    undefined;" o in
  let o := emit "" o in
  let o := emit "// ----------- EventTarget Traits -----------" o in
  let o := emit "export type EventTargetTraits<T> =" o in
  o <- forEach (trait "EventTarget") entriesInReverse o ;;
  let o := emit "    undefined;" o in
  Ok (emit "" o).

(** The script up to the two calls of [writeFile]: everything it computes
    from the parsed [protocol]. *)
Definition generate (fuel : nat) (protocol : value) : outcome output :=
  es <- entries protocol ;;
  r <- forEach register es {| channels := []; inherits := []; mixins := [] |} ;;
  derivedClasses <- forEach derive es [] ;;
  o <- emitTraits (rev es) initial ;;
  o <- forEach (emitEntity fuel r derivedClasses) es o ;;
  let o := emit ("export const commandsWithTracingSnapshots = new Set([" ++ nl ++ "  '"
                   ++ join ("'," ++ nl ++ "  '") (tracingSnapshots o) ++ "'" ++ nl ++ "]);") o in
  let o := emit "" o in
  let o := emit ("export const pausesBeforeInputActions = new Set([" ++ nl ++ "  '"
                   ++ join ("'," ++ nl ++ "  '") (pausesBeforeInputActions o) ++ "'" ++ nl
                   ++ "]);") o in
  Ok (finish o).

(** The two targets, relative to the root of the repository. *)
Definition channelsPath : string := "packages/playwright-core/src/protocol/channels.ts".
Definition validatorPath : string := "packages/playwright-core/src/protocol/validator.ts".

(** The file system as the script sees it, what it printed, and the
    global [hasChanges]. *)
Record process : Type := {
  files : string -> option string;
  console : list string;
  hasChanges : bool
}.

Definition writeFile (filePath content : string) (w : process) : outcome process :=
  match files w filePath with
  | None => Throw (ENOENT filePath)
  | Some existing =>
    if existing =? content then Ok w
    else Ok {| files := fun path => if path =? filePath then Some content else files w path;
               console := push (console w) ("Writing //" ++ filePath);
               hasChanges := true |}
  end.

(** How the process ends: with an exit code, or on an uncaught error
    (exit code 1); [Hang] is a process that does not end. *)
Inductive status : Type :=
| Exit (code : Z)
| Uncaught (e : error)
| Hang.

(** A run of the script on the parsed [protocol] and the file system
    [fs]: how the process ends, and the state it leaves. *)
Definition main (fuel : nat) (protocol : value) (fs : string -> option string)
  : status * process :=
  let w := {| files := fs; console := []; hasChanges := false |} in
  match generate fuel protocol with
  | OutOfFuel => (Hang, w)
  | Throw e => (Uncaught e, w)
  | Ok o =>
    match writeFile channelsPath (join nl (channels_ts o)) w with
    | OutOfFuel => (Hang, w)
    | Throw e => (Uncaught e, w)
    | Ok w1 =>
      match writeFile validatorPath (join nl (validator_ts o)) w1 with
      | OutOfFuel => (Hang, w1)
      | Throw e => (Uncaught e, w1)
      | Ok w2 => (Exit (if hasChanges w2 then 1 else 0), w2)
      end
    end
  end.

(** A small document to run the embedding on. *)
Definition str (s : string) : value := VStr s.
Definition obj (l : list (string * value)) : value := VObj l.

Definition sample : value :=
  obj [("Point", obj [("type", str "object");
                      ("properties", obj [("x", str "number"); ("y", str "number?")])]);
       ("Kind", obj [("type", str "enum"); ("literals", VArr [str "a"; str "b"])]);
       ("Base", obj [("type", str "mixin");
                     ("properties", obj [("timeout", str "number?")])]);
       ("A", obj [("type", str "interface");
                  ("initializer", obj [("name", str "string")]);
                  ("commands",
                   obj [("foo", obj [("parameters",
                                      obj [("$mixin", str "Base");
                                           ("p", str "Point");
                                           ("q", obj [("type", str "array?");
                                                      ("items", str "Kind")])]);
                                     ("tracing", obj [("snapshot", VBool true)])]);
                        ("bar", VNull)]);
                  ("events", obj [("ping", VNull)])]);
       ("B", obj [("type", str "interface"); ("extends", str "A")])].

End GenerateChannels.

(** ** packages/playwright-core/src/common/userAgent.ts *)

Module UserAgent.
Import Js.

(** What the module reads from its host: [process], [os], the output of
    [sw_vers], [getLinuxDistributionInfoSync()] (its [id] and [version],
    or [undefined]) and the [package.json] it requires. A call that may
    throw is an [outcome]. *)
Record host : Type := {
  platform : string;
  release : string;
  sw_vers : outcome string;
  linuxDistributionInfo : outcome (option (string * string));
  arch : string;
  env_CI : option string;
  env_PW_LANG_NAME : option string;
  env_PW_LANG_NAME_VERSION : option string;
  version : string;
  packageJson : outcome value
}.

Definition isWhiteSpace (c : ascii) : bool :=
  let n := nat_of_ascii c in
  ((9 <=? n) && (n <=? 13) || (n =? 32) || (n =? 160))%nat.

Fixpoint trimStart (s : string) : string :=
  match s with
  | String c rest => if isWhiteSpace c then trimStart rest else s
  | EmptyString => s
  end.

Definition reverse (s : string) : string :=
  string_of_list_ascii (rev (list_ascii_of_string s)).

Definition trim (s : string) : string := reverse (trimStart (reverse (trimStart s))).

(** [`${parts[i]}`] *)
Definition part (parts : list string) (i : nat) : string :=
  match nth_error parts i with
  | Some s => s
  | None => "undefined"
  end.

(** [s.split('.').slice(0, 2).join('.')] *)
Definition majorMinor (s : string) : string := join "." (firstn 2 (split "." s)).

(** [process.env.NAME] read as a condition. *)
Definition isSet (v : option string) : bool :=
  match v with
  | Some s => negb (s =? "")
  | None => false
  end.

Definition getPlaywrightVersion (h : host) (majorMinorOnly : bool) : outcome string :=
  json <- packageJson h ;;
  v <- get json "version" ;;
  if majorMinorOnly then
    match v with
    | VStr s => Ok (majorMinor s)
    | _ => Throw TypeError
    end
  else Ok (toString v).

Definition getClientLanguage (h : host) : string * string :=
  if negb (isSet (env_PW_LANG_NAME h)) then
    ("node", majorMinor (substring 1 (String.length (version h)) (version h)))
  else
    match env_PW_LANG_NAME h with
    | Some name =>
      if existsb (String.eqb name) ["node"; "python"; "java"; "csharp"] then
        (name, match env_PW_LANG_NAME_VERSION h with
               | Some v => v
               | None => "unknown"
               end)
      else ("unknown", "unknown")
    | None => ("unknown", "unknown")
    end.

Definition determineUserAgent (h : host) : outcome string :=
  os <- (if platform h =? "win32" then
           let version := split "." (release h) in
           Ok ("windows", part version 0 ++ "." ++ part version 1)
         else if platform h =? "darwin" then
           out <- sw_vers h ;;
           let version := split "." (trim out) in
           Ok ("macOS", part version 0 ++ "." ++ part version 1)
         else if platform h =? "linux" then
           distroInfo <- linuxDistributionInfo h ;;
           match distroInfo with
           | Some (id, version) =>
             Ok (if id =? "" then "linux" else id,
                 if version =? "" then "unknown" else version)
           | None => Ok ("linux", "unknown")
           end
         else Ok ("unknown", "unknown")) ;;
  let '(osIdentifier, osVersion) := os in
  let additionalTokens := if isSet (env_CI h) then ["CI/1"] else [] in
  let serializedTokens :=
    match additionalTokens with
    | [] => ""
    | _ => " " ++ join " " additionalTokens
    end in
  let '(langName, langVersion) := getClientLanguage h in
  playwrightVersion <- getPlaywrightVersion h false ;;
  Ok ("Playwright/" ++ playwrightVersion ++ " (" ++ arch h ++ "; " ++ osIdentifier ++ " "
        ++ osVersion ++ ") " ++ langName ++ "/" ++ langVersion ++ serializedTokens).

(** [try { c } catch (e) { handler }] *)
Definition tryCatch {A : Type} (c : outcome A) (handler : error -> outcome A) : outcome A :=
  match c with
  | Throw e => handler e
  | _ => c
  end.

(** [getUserAgent()] on the host [h] with the module variable
    [cachedUserAgent]: the string returned and the variable afterwards. *)
Definition getUserAgent (h : host) (cachedUserAgent : option string)
  : outcome (string * option string) :=
  let determine :=
    cached <- tryCatch (determineUserAgent h) (fun _ => Ok "Playwright/unknown") ;;
    Ok (cached, Some cached) in
  match cachedUserAgent with
  | Some cached => if negb (cached =? "") then Ok (cached, cachedUserAgent) else determine
  | None => determine
  end.

(** The results of calling [getUserAgent] once on each host of [hs], one
    call after the other. *)
Fixpoint calls (hs : list host) (cachedUserAgent : option string)
  : list (outcome string) :=
  match hs with
  | [] => []
  | h :: rest =>
    match getUserAgent h cachedUserAgent with
    | Ok (s, cached) => Ok s :: calls rest cached
    | Throw e => Throw e :: calls rest cachedUserAgent
    | OutOfFuel => [OutOfFuel]
    end
  end.

(** A Linux host in a CI run. *)
Definition linuxHost : host :=
  {| platform := "linux";
     release := "6.1.0";
     sw_vers := Throw (Failure "sw_vers: command not found");
     linuxDistributionInfo := Ok (Some ("ubuntu", "22.04"));
     arch := "x64";
     env_CI := Some "1";
     env_PW_LANG_NAME := None;
     env_PW_LANG_NAME_VERSION := None;
     version := "v18.17.1";
     packageJson := Ok (VObj [("name", VStr "playwright-core"); ("version", VStr "1.36.0")]) |}.

(** A host on which [package.json] cannot be required. *)
Definition brokenHost : host :=
  {| platform := "win32";
     release := "10.0.19045";
     sw_vers := Throw (Failure "sw_vers: command not found");
     linuxDistributionInfo := Ok None;
     arch := "x64";
     env_CI := None;
     env_PW_LANG_NAME := Some "python";
     env_PW_LANG_NAME_VERSION := Some "3.11";
     version := "v18.17.1";
     packageJson := Throw (Failure "Cannot find module './../../package.json'") |}.

End UserAgent.

(** * Properties *)

Import Js GenerateChannels UserAgent.

(** ** The document as the specification reads it *)

(** [item.k] where the access does not throw. *)
Definition field (item : value) (k : string) : value :=
  match get item k with
  | Ok v => v
  | _ => VUndefined
  end.

(** [null] read as the empty definition, as the loops over the events and
    the commands do. *)
Definition orEmpty (v : value) : value :=
  match v with
  | VNull => VObj []
  | _ => v
  end.

(** The entity is a channel. *)
Definition isChannel (item : value) : bool := isStr (field item "type") "interface".

(** The names of the channels, in document order. *)
Definition channelNames (es : list (string * value)) : list string :=
  map fst (filter (fun e => isChannel (snd e)) es).

(** The entity is a channel declared with [extends: parent] (an empty
    [extends] is none). *)
Definition extendsChannel (item : value) (parent : string) : bool :=
  isChannel item && truthy (field item "extends") && isStr (field item "extends") parent.

(** The channels that directly extend [parent], in document order. *)
Definition directChildren (es : list (string * value)) (parent : string) : list string :=
  map fst (filter (fun e => extendsChannel (snd e) parent) es).

(** The commands of a channel. *)
Definition commandsOf (item : value) : list (string * value) :=
  match entries (orElse (field item "commands") (VObj [])) with
  | Ok l => l
  | _ => []
  end.

(** The definition of the command carries [tracing.flag]. *)
Definition carries (method : value) (flag : string) : bool :=
  truthy (field (field method "tracing") flag).

(** The document declares a mixin under the name a splice gives. *)
Definition declaresMixin (es : list (string * value)) (v : value) : bool :=
  match v with
  | VStr name => existsb (fun e => (fst e =? name) && isStr (field (snd e) "type") "mixin") es
  | _ => false
  end.

(** ** The tracing sets and the trait mappings as the specification
       describes them *)

(** What a flag on the command [m] of the channel [C] records. *)
Definition recordedFor (es : list (string * value)) (C m : string) : list string :=
  (C ++ "." ++ m) :: map (fun D => D ++ "." ++ m) (directChildren es C).

(** The set of the commands that carry [tracing.flag], as the
    specification describes it. *)
Definition recorded (flag : string) (es : list (string * value)) : list string :=
  flat_map (fun e =>
              if isChannel (snd e) then
                flat_map (fun c => if carries (snd c) flag
                                   then recordedFor es (fst e) (fst c) else [])
                         (commandsOf (snd e))
              else [])
           es.

(** One trait mapping as the specification describes it: the channels in
    reverse document order, then the fallback. *)
Definition conditional (suffix name : string) : string :=
  "    T extends " ++ name ++ "Channel ? " ++ name ++ suffix ++ " :".

Definition traitMapping (title declaration suffix fallback : string)
    (es : list (string * value)) : list string :=
  [title; declaration] ++ map (conditional suffix) (rev (channelNames es))
                       ++ [fallback; ""].

(** ** The validator registry *)

(** The registry the emitted [createScheme] returns: of the statements
    [scheme.name = s;] it runs, the last one for a name stays. *)
Definition registered (assignments : list (string * string)) (name : string)
  : option string :=
  option_map snd (find (fun a => fst a =? name) (rev assignments)).

(** A validator, and [tType] as the header of [validator.ts] defines it
    over the registry [scheme] of the validators. *)
Definition validator : Type := value -> string -> outcome value.

Definition tType (scheme : string -> option validator) (name : string) : validator :=
  fun arg path =>
    match scheme name with
    | None => Throw (Failure (path ++ ": unknown type " ++ dq ++ name ++ dq))
    | Some v => v arg path
    end.

(** ** Property lists as the specification reads them *)

Section Expansion.

Variable channels : list string.
Variable mixins : list (value * value).

(** The entries of a property list with every mixin-splice marker
    replaced, in place, by what [expand] makes of the property list of the
    mixin it names. *)
Fixpoint expandEach (expand : value -> outcome (list (string * value)))
    (es : list (string * value)) : outcome (list (string * value)) :=
  match es with
  | [] => Ok []
  | entry :: rest =>
    here <- (if startsWith (fst entry) "$mixin" then
               match mapGet (snd entry) mixins with
               | None => Throw TypeError
               | Some m => p <- get m "properties" ;; expand p
               end
             else Ok [entry]) ;;
    there <- expandEach expand rest ;;
    Ok (app here there)
  end.

(** The property list with every mixin-splice marker replaced, in place,
    by the property list of the mixin it names, recursively. *)
Fixpoint expandMixins (fuel : nat) (props : value) {struct fuel}
  : outcome (list (string * value)) :=
  match fuel with
  | O => Throw RangeError
  | S fuel' => es <- entries props ;; expandEach (expandMixins fuel') es
  end.

(** The entries of an expanded list resolved one after the other. *)
Fixpoint resolveEach (fuel : nat) (indent : string) (expanded : list (string * value))
  : outcome (list (string * resolved)) :=
  match expanded with
  | [] => Ok []
  | entry :: rest =>
    inner <- inlineType channels mixins fuel (snd entry) indent false ;;
    rs <- resolveEach fuel indent rest ;;
    Ok ((fst entry, inner) :: rs)
  end.

End Expansion.

(** The lines of one resolved entry in a static type and in a validator. *)
Definition tsLine (indent : string) (r : string * resolved) : string :=
  indent ++ fst r ++ (if optional (snd r) then "?" else "") ++ ": " ++ ts (snd r) ++ ",".

Definition schemeLine (indent : string) (r : string * resolved) : string :=
  indent ++ fst r ++ ": "
         ++ (if optional (snd r) then "tOptional(" ++ scheme (snd r) ++ ")" else scheme (snd r))
         ++ ",".

(** The entries a projection keeps: all of them, or the optional ones. *)
Definition kept (onlyOptional : bool) (rs : list (string * resolved))
  : list (string * resolved) :=
  filter (fun r => negb onlyOptional || optional (snd r)) rs.

(** The text of an object type around the lines of its entries. *)
Definition objectText (indent : string) (lines : list string) : string :=
  "{" ++ nl ++ join nl lines ++ nl ++ indent ++ "}".

(** The text [objectType] gives an object type whose entries have the
    lines [lines]: [{}] when the property list has no entry at all. *)
Definition objectShape (props : value) (indent : string) (lines : list string) : string :=
  match entries props with
  | Ok [] => "{}"
  | _ => objectText indent lines
  end.

(** The name a type token carries, its optionality marker removed. *)
Definition baseName (token : string) : string :=
  if endsWith token "?" then dropLast token else token.

(** The names [inlineType] resolves by itself. *)
Definition isBuiltin (name : string) : bool :=
  (name =? "binary") || (name =? "json")
  || existsb (String.eqb name) ["string"; "boolean"; "number"; "undefined"]
  || (name =? "Channel").

(** The computation returns, or throws an error of its own, within the
    stack it was given: it neither exhausts the stack nor fails to
    return. *)
Definition settles {A : Type} (c : outcome A) : bool :=
  match c with
  | OutOfFuel => false
  | Throw RangeError => false
  | _ => true
  end.

(** The mixins a type expression and a property list splice, at any
    depth, as [inlineType] and [visitProperties] reach them. *)
Fixpoint typeSplices (v : value) {struct v} : list value :=
  match v with
  | VObj fields =>
    match lookup "type" fields with
    | VStr tag =>
      if startsWith tag "array" then
        (fix items (l : list (string * value)) : list value :=
           match l with
           | [] => []
           | (k, x) :: rest => if "items" =? k then typeSplices x else items rest
           end) fields
      else if startsWith tag "enum" then []
      else if startsWith tag "object" then
        (fix properties (l : list (string * value)) : list value :=
           match l with
           | [] => []
           | (k, x) :: rest => if "properties" =? k then propsSplices x else properties rest
           end) fields
      else []
    | _ => []
    end
  | _ => []
  end

with propsSplices (v : value) {struct v} : list value :=
  match v with
  | VObj fields =>
    (fix each (l : list (string * value)) : list value :=
       match l with
       | [] => []
       | (k, x) :: rest =>
         app (if startsWith k "$mixin" then [x] else typeSplices x) (each rest)
       end) fields
  | VArr items =>
    (fix each (i : nat) (l : list value) : list value :=
       match l with
       | [] => []
       | x :: rest =>
         app (if startsWith (string_of_nat i) "$mixin" then [x] else typeSplices x)
             (each (S i) rest)
       end) 0 items
  | VStr s =>
    flat_map (fun e : string * value => if startsWith (fst e) "$mixin" then [snd e] else [])
             (indexed 0 (chars s))
  | _ => []
  end.

(** The mixin-splice reference graph has no cycle: the mixins can be
    ranked so that every mixin ranks above the mixins its property list
    splices. *)
Definition acyclic (mixins : list (value * value)) (rank : value -> nat) : Prop :=
  forall x item y,
    mapGet x mixins = Some item ->
    In y (propsSplices (field item "properties")) ->
    mapGet y mixins <> None ->
    rank y < rank x.

(** ** The text of the generated files *)

(** A line of [validator.ts] without the two characters [addScheme] puts
    in front of it. *)
Definition unindent (line : string) : string := substring 2 (String.length line - 2) line.

(** The statement of the generated [channels.ts] that declares the set
    [name] of the command names [items], one quoted name per line; a set
    for which no name was recorded lists the empty name. *)
Definition setLiteral (name : string) (items : list string) : string :=
  "export const " ++ name ++ " = new Set([" ++ nl
  ++ join ("," ++ nl)
       (map (fun item => "  '" ++ item ++ "'")
            (match items with [] => [""] | _ => items end))
  ++ nl ++ "]);".

(** [TitleCase(name)], and the name itself where [titleCase] throws. *)
Definition capitalize (name : string) : string :=
  match titleCase name with
  | Ok t => t
  | _ => name
  end.

(** The events of a channel. *)
Definition eventsOf (item : value) : list (string * value) :=
  match entries (orElse (field item "events") (VObj [])) with
  | Ok l => l
  | _ => []
  end.

(** The name of the channel a channel extends, as the script prints it:
    empty when there is none. *)
Definition parentName (item : value) : string :=
  toString (orElse (field item "extends") (VStr "")).

(** The lines of the block of the channel [A] in [channels.ts]: the
    handler of an event, the signature of a command, the declaration of a
    type and the entry of an event in the map of the events. *)
Definition onLine (A : string) (event : string * value) : string :=
  "  on(event: '" ++ fst event ++ "', callback: (params: "
    ++ (A ++ capitalize (fst event) ++ "Event") ++ ") => void): this;".

Definition signature (A : string) (command : string * value) : string :=
  "  " ++ fst command ++ "(params"
    ++ (if truthy (field (snd command) "parameters") then "" else "?") ++ ": "
    ++ (A ++ capitalize (fst command) ++ "Params") ++ ", metadata?: Metadata): Promise<"
    ++ (A ++ capitalize (fst command) ++ "Result") ++ ">;".

Definition exportLine (type : string * string) : string :=
  "export type " ++ fst type ++ " = " ++ snd type ++ ";".

Definition eventsLine (A : string) (event : string * value) : string :=
  "  '" ++ fst event ++ "': " ++ (A ++ capitalize (fst event) ++ "Event") ++ ";".

(** The names of the types of the channel [A]: one for each event, and
    three for each command. *)
Definition typeNames (A : string) (item : value) : list string :=
  app (map (fun event => A ++ capitalize (fst event) ++ "Event") (eventsOf item))
      (flat_map (fun command => [A ++ capitalize (fst command) ++ "Params";
                                 A ++ capitalize (fst command) ++ "Options";
                                 A ++ capitalize (fst command) ++ "Result"])
                (commandsOf item)).

(** The block of the channel [A], the text of its initializer being
    [init] and its types being [types]. *)
Definition channelBlock (A : string) (item : value) (init : string)
    (types : list (string * string)) : list string :=
  app ["// ----------- " ++ A ++ " -----------";
       "export type " ++ (A ++ "Initializer") ++ " = " ++ init ++ ";";
       "export interface " ++ A ++ "EventTarget {"]
 (app (map (onLine A) (eventsOf item))
 (app ["}";
       "export interface " ++ A ++ "Channel extends " ++ A ++ "EventTarget, "
         ++ parentName item ++ "Channel {";
       "  _type_" ++ A ++ ": boolean;"]
 (app (map (signature A) (commandsOf item))
 (app ["}"]
 (app (map exportLine types)
 (app [""; "export interface " ++ A ++ "Events {"]
 (app (map (eventsLine A) (eventsOf item))
      ["}" ++ nl]))))))).

(** ** The registries and the errors *)

(** The registries before the first loop. *)
Definition noRegistries : registries := {| channels := []; inherits := []; mixins := [] |}.

(** The names [inlineType] resolves before it looks at the channels. *)
Definition isPrimitive (name : string) : bool :=
  (name =? "binary") || (name =? "json")
  || existsb (String.eqb name) ["string"; "boolean"; "number"; "undefined"].

(** The entries of [inherits] the first loop adds for the entries [es]
    of a document. *)
Definition parents (es : list (string * value)) : list (value * value) :=
  map (fun e => (VStr (fst e), field (snd e) "extends"))
      (filter (fun e => isChannel (snd e) && truthy (field (snd e) "extends")) es).

(** Where an assignment of the validator registry comes from: [name] is
    an object or an enum of the document, or the Params type of a command
    [m] of a channel [A], or the same for a channel that directly extends
    [A], the expression [s] then being the lookup of the Params type
    of [A]. *)
Definition origin (es : list (string * value)) (a : string * string) : Prop :=
  let '(name, s) := a in
  (exists item,
      In (name, item) es /\
      (isStr (field item "type") "object" = true \/ isStr (field item "type") "enum" = true)) \/
  (exists A item m method t,
      In (A, item) es /\ isChannel item = true /\ In (m, method) (commandsOf item) /\
      titleCase m = Ok t /\
      (name = A ++ t ++ "Params" \/
       exists B, In B (directChildren es A) /\ name = B ++ t ++ "Params" /\
                 s = "tType('" ++ (A ++ t ++ "Params") ++ "')")).

(** The item is a type definition whose [type] is a string that starts
    with none of [array], [enum] and [object]. *)
Definition unrecognised (item : value) : bool :=
  match item with
  | VStr _ => false
  | _ =>
    match get item "type" with
    | Ok (VStr tag) =>
      negb (startsWith tag "array") && negb (startsWith tag "enum")
      && negb (startsWith tag "object")
    | _ => false
    end
  end.

(** The first two components of a version as the user agent prints them
    on Windows and on macOS: [undefined] stands for a second component
    that is not there. *)
Definition twoComponents (raw : string) : string :=
  match split "." raw with
  | [only] => only ++ ".undefined"
  | _ => majorMinor raw
  end.

(** ** The generated files, entity by entity *)

(** [block] is what an entity adds to [channels.ts], its types being
    resolved with the registries [r]: the block of a channel, the type of
    an object and an empty line, the type of an enum, and nothing for any
    other entity. *)
Definition entityBlock (fuel : nat) (r : registries) (entry : string * value)
    (block : list string) : Prop :=
  let '(name, item) := entry in
  if isChannel item then
    exists init types,
      objectType (channels r) (mixins r) fuel
                 (orElse (field item "initializer") (VObj [])) "" false = Ok init /\
      block = channelBlock name item (ts_lines init) types /\
      NoDup (map fst types) /\
      forall n, In n (map fst types) <-> In n (typeNames name item)
  else if isStr (field item "type") "object" then
    exists inner,
      objectType (channels r) (mixins r) fuel (field item "properties") "" false = Ok inner /\
      block = ["export type " ++ name ++ " = " ++ ts_lines inner ++ ";"; ""]
  else if isStr (field item "type") "enum" then
    exists literals,
      field item "literals" = VArr literals /\
      block = ["export type " ++ name ++ " = " ++ join " | " (map quoted literals) ++ ";"]
  else block = [].

(** [group] is what a command [c] of the channel [A] adds to the
    validator registry: the validator of its Params type, then, for each
    channel that directly extends [A], the lookup of that type under the
    name of the channel. *)
Definition commandGroup (fuel : nat) (r : registries) (es : list (string * value))
    (A : string) (c : string * value) (group : list (string * string)) : Prop :=
  exists parameters,
    objectType (channels r) (mixins r) fuel
               (orElse (field (snd c) "parameters") (VObj [])) "" false = Ok parameters /\
    group
    = (A ++ capitalize (fst c) ++ "Params",
       if truthy (field (snd c) "parameters") then scheme_lines parameters
       else "tOptional(tObject({}))")
      :: map (fun B => (B ++ capitalize (fst c) ++ "Params",
                        "tType('" ++ (A ++ capitalize (fst c) ++ "Params") ++ "')"))
             (directChildren es A).

(** [group] is what an entity adds to the validator registry. *)
Definition entityGroup (fuel : nat) (r : registries) (es : list (string * value))
    (entry : string * value) (group : list (string * string)) : Prop :=
  let '(name, item) := entry in
  if isChannel item then
    exists groups,
      Forall2 (commandGroup fuel r es name) (commandsOf item) groups /\
      group = concat groups
  else if isStr (field item "type") "object" then
    exists inner,
      objectType (channels r) (mixins r) fuel (field item "properties") "" false = Ok inner /\
      group = [(name, scheme_lines inner)]
  else if isStr (field item "type") "enum" then
    exists literals,
      field item "literals" = VArr literals /\
      group = [(name, "tEnum([" ++ join ", " (map quoted literals) ++ "])")]
  else group = [].

(** ** What the proofs keep track of *)

(** [l'] is [l] with more elements pushed. *)
Definition pushed {B : Type} (l l' : list B) : Prop := exists t, l' = app l t.

(** The script only ever pushes to its arrays. *)
Record grows (o o' : output) : Prop := {
  grows_channels : pushed (channels_ts o) (channels_ts o');
  grows_validator : pushed (validator_ts o) (validator_ts o');
  grows_snapshots : pushed (tracingSnapshots o) (tracingSnapshots o');
  grows_pauses : pushed (pausesBeforeInputActions o) (pausesBeforeInputActions o');
  grows_assignments : pushed (assignments o) (assignments o')
}.

(** Only [channels_ts] has changed. *)
Definition emitsOnly (o o' : output) : Prop :=
  validator_ts o' = validator_ts o /\
  tracingSnapshots o' = tracingSnapshots o /\
  pausesBeforeInputActions o' = pausesBeforeInputActions o /\
  assignments o' = assignments o.

(** [validator_ts] holds the header and the text of the assignments. *)
Definition linked (o : output) : Prop :=
  validator_ts o
  = validatorHeader :: flat_map (fun a => schemeLines (fst a) (snd a)) (assignments o).

(** What a flag on the command [m] of the channel [name] pushes. *)
Definition recordedBy (derivedClasses : list (value * list string)) (name m : string)
  : list string :=
  (name ++ "." ++ m) :: map (fun derived => derived ++ "." ++ m) (derivedOf derivedClasses name).

(** The body of the loop of [visitProperties] with the fuel [n] left. *)
Definition visitEntry (channels : list string) (mixins : list (value * value)) (n : nat)
    (indent : string) (onlyOptional : bool) (entry : string * value)
    (acc : list string * list string) : outcome (list string * list string) :=
  let '(name, v) := entry in
  if startsWith name "$mixin" then
    match mapGet v mixins with
    | None => Throw TypeError
    | Some m =>
      p <- get m "properties" ;;
      visitProperties channels mixins n p indent onlyOptional acc
    end
  else
    inner <- inlineType channels mixins n v indent false ;;
    Ok (pushProperty indent name onlyOptional inner acc).

(** What [visitProperties] has pushed to [acc] once it has visited the
    resolved entries [rs]. *)
Definition visited (indent : string) (onlyOptional : bool) (rs : list (string * resolved))
    (acc : list string * list string) : list string * list string :=
  (app (fst acc) (map (tsLine indent) (kept onlyOptional rs)),
   app (snd acc) (map (schemeLine indent) (kept onlyOptional rs))).

(** Every mixin of [l] that is declared ranks below [r]. *)
Definition below (mixins : list (value * value)) (rank : value -> nat) (r : nat)
    (l : list value) : Prop :=
  forall y, In y l -> mapGet y mixins <> None -> rank y < r.

(** The size of a value: the number of objects and arrays in it. *)
Fixpoint vsize (v : value) : nat :=
  match v with
  | VObj fields =>
    S ((fix sum (l : list (string * value)) : nat :=
          match l with
          | [] => 0
          | (_, x) :: rest => vsize x + sum rest
          end) fields)
  | VArr items =>
    S ((fix sum (l : list value) : nat :=
          match l with
          | [] => 0
          | x :: rest => vsize x + sum rest
          end) items)
  | _ => 0
  end.

(** The computation returns, or throws a [TypeError], the [RangeError]
    of an exhausted stack, or the error of [raise] on an item that is
    [unrecognised]. *)
Definition throwsOnly {A : Type} (c : outcome A) : Prop :=
  match c with
  | Ok _ => True
  | Throw TypeError => True
  | Throw RangeError => True
  | Throw (InvalidItem item) => unrecognised item = true
  | Throw _ => False
  | OutOfFuel => False
  end.

(** [o'] is [o] with assignments added, each of which satisfies [Q]. *)
Definition adds (Q : string * string -> Prop) (o o' : output) : Prop :=
  exists t, assignments o' = app (assignments o) t /\ Forall Q t.

(** [ts_types] as a map keyed by strings. *)
Definition keyed (types : list (string * string)) : list (value * string) :=
  map (fun type => (VStr (fst type), snd type)) types.

(** [ts_types] holds types under distinct names, which are [names]. *)
Definition typesOver (names : list string) (ts_types : list (value * string)) : Prop :=
  exists types,
    ts_types = keyed types /\ NoDup (map fst types) /\
    forall n, In n (map fst types) <-> In n names.

(** The character [c] does not occur in [w]. *)
Definition free (c : ascii) (w : string) : Prop :=
  existsb (Ascii.eqb c) (list_ascii_of_string w) = false.

(** ** Documents and file systems to run the script on *)

(** A file system in which [channels.ts] is stale and [validator.ts] is
    missing. *)
Definition staleFs (path : string) : option string :=
  if path =? channelsPath then Some "stale" else None.

(** A file system in which both targets exist and are empty. *)
Definition blankFs (path : string) : option string :=
  if (path =? channelsPath) || (path =? validatorPath) then Some "" else None.

(** A Windows host whose release has a single component. *)
Definition windowsHost : host :=
  {| platform := "win32";
     release := "11";
     sw_vers := Throw (Failure "sw_vers: command not found");
     linuxDistributionInfo := Ok None;
     arch := "arm64";
     env_CI := None;
     env_PW_LANG_NAME := Some "java";
     env_PW_LANG_NAME_VERSION := Some "17";
     version := "v18.17.1";
     packageJson := Ok (VObj [("version", VStr "1.36.0")]) |}.

(** The three levels of inheritance of the specification: [A] with a
    command that carries [tracing.snapshot], [B] extends [A], [G] extends
    [B]. *)
Definition chain : value :=
  obj [("A", obj [("type", str "interface");
                  ("commands", obj [("m", obj [("tracing", obj [("snapshot", VBool true)])])])]);
       ("B", obj [("type", str "interface"); ("extends", str "A")]);
       ("G", obj [("type", str "interface"); ("extends", str "B")])].

(** A channel that declares again a command of the channel it extends. *)
Definition overriding : value :=
  obj [("A", obj [("type", str "interface");
                  ("commands", obj [("foo", obj [("parameters", obj [("x", str "string")])])])]);
       ("B", obj [("type", str "interface"); ("extends", str "A");
                  ("commands", obj [("foo", obj [("parameters", obj [("y", str "number")])])])])].

(** A channel declared before the channel it extends, both with the
    command [foo]. *)
Definition shadowed : value :=
  obj [("B", obj [("type", str "interface"); ("extends", str "A");
                  ("commands", obj [("foo", obj [("parameters", obj [("y", str "number")])])])]);
       ("A", obj [("type", str "interface");
                  ("commands", obj [("foo", obj [("parameters", obj [("x", str "string")])])])])].

(** A command whose declared parameters are all optional. *)
Definition optionalOnly : value :=
  obj [("A", obj [("type", str "interface");
                  ("commands", obj [("foo", obj [("parameters", obj [("x", str "string?")])])])])].


(** A mixin that splices itself, and a property list that splices it. *)
Definition selfMixin : list (value * value) :=
  [(VStr "Loop", obj [("type", str "mixin"); ("properties", obj [("$mixin", str "Loop")])])].

Definition spliceLoop : value := obj [("$mixin", str "Loop")].

(** A document whose object splices that mixin. *)
Definition cyclic : value :=
  obj [("Loop", obj [("type", str "mixin"); ("properties", obj [("$mixin", str "Loop")])]);
       ("Holder", obj [("type", str "object");
                       ("properties", obj [("$mixin", str "Loop")])])].


(** Two mixins, the second splicing the first, and a property list that
    splices the second between two entries of its own. *)
Definition layered : list (value * value) :=
  [(VStr "Base", obj [("type", str "mixin");
                      ("properties", obj [("timeout", str "number?")])]);
   (VStr "Extra", obj [("type", str "mixin");
                       ("properties", obj [("$mixin", str "Base");
                                           ("strict", str "boolean?")])])].

Definition layeredProps : value :=
  obj [("selector", str "string"); ("$mixin", str "Extra"); ("force", str "boolean?")].

Definition layeredRank (v : value) : nat :=
  if isStr v "Extra" then 1 else 0.

(** ** Loops and sequencing *)

Lemma bind_Ok {A B : Type} (c : outcome A) (k : A -> outcome B) (b : B) :
  bind c k = Ok b -> exists a, c = Ok a /\ k a = Ok b.
Proof. destruct c; cbn; intros H; try discriminate. eauto. Qed.

Lemma forEach_app {A S : Type} (body : A -> S -> outcome S) (l1 l2 : list A) (s : S) :
  forEach body (l1 ++ l2)%list s = (s1 <- forEach body l1 s ;; forEach body l2 s1).
Proof.
  revert s. induction l1 as [|x l1 IH]; intros s; cbn; [reflexivity|].
  destruct (body x s); cbn; auto.
Qed.

(** A loop that returns relates its first and last states by every
    preorder its body respects. *)
Lemma forEach_preorder {A S : Type} (R : S -> S -> Prop) (body : A -> S -> outcome S) :
  (forall s, R s s) ->
  (forall s1 s2 s3, R s1 s2 -> R s2 s3 -> R s1 s3) ->
  forall l,
    (forall x s s', In x l -> body x s = Ok s' -> R s s') ->
    forall s s', forEach body l s = Ok s' -> R s s'.
Proof.
  intros Hrefl Htrans l. induction l as [|x l IH]; intros Hbody s s' H; cbn in H.
  - injection H as <-. apply Hrefl.
  - apply bind_Ok in H. destruct H as (s1 & H1 & H2).
    eapply Htrans.
    + apply (Hbody x s s1); [now left | exact H1].
    + apply IH; [|exact H2]. intros y t t' Hy. apply Hbody. now right.
Qed.

(** In a loop that returns, the body has returned on every element, from
    a state the first one leads to and to a state that leads to the last. *)
Lemma forEach_In {A S : Type} (R : S -> S -> Prop) (body : A -> S -> outcome S) :
  (forall s, R s s) ->
  (forall s1 s2 s3, R s1 s2 -> R s2 s3 -> R s1 s3) ->
  forall l,
    (forall x s s', In x l -> body x s = Ok s' -> R s s') ->
    forall s s' x, forEach body l s = Ok s' -> In x l ->
    exists s1 s2, R s s1 /\ body x s1 = Ok s2 /\ R s2 s'.
Proof.
  intros Hrefl Htrans l. induction l as [|y l IH]; intros Hbody s s' x H Hin; [easy|].
  cbn in H. apply bind_Ok in H. destruct H as (s1 & H1 & H2).
  destruct Hin as [->|Hin].
  - exists s, s1. repeat split; auto.
    apply (forEach_preorder R body Hrefl Htrans l); [|exact H2].
    intros z t t' Hz. apply Hbody. now right.
  - destruct (IH (fun z t t' Hz => Hbody z t t' (or_intror Hz)) s1 s' x H2 Hin)
      as (t1 & t2 & Ht1 & Hb & Ht2).
    exists t1, t2. repeat split; auto.
    eapply Htrans; [|exact Ht1]. apply (Hbody y s s1); [now left | exact H1].
Qed.

(** A loop whose body appends to a list of the state appends the
    concatenation. *)
Lemma forEach_appends {A S B : Type} (proj : S -> list B) (added : A -> list B)
    (body : A -> S -> outcome S) (l : list A) :
  (forall x s s', In x l -> body x s = Ok s' -> proj s' = (proj s ++ added x)%list) ->
  forall s s', forEach body l s = Ok s' -> proj s' = (proj s ++ flat_map added l)%list.
Proof.
  induction l as [|x l IH]; intros Hbody s s' H; cbn in H.
  - injection H as <-. cbn. now rewrite app_nil_r.
  - apply bind_Ok in H. destruct H as (s1 & H1 & H2).
    rewrite (IH (fun y t t' Hy => Hbody y t t' (or_intror Hy)) s1 s' H2).
    rewrite (Hbody x s s1 (or_introl eq_refl) H1). cbn. now rewrite app_assoc.
Qed.

Lemma string_eqb_false_neq (a b : string) : (a =? b) = false -> a <> b.
Proof. intros H E. apply String.eqb_neq in H. contradiction. Qed.

Lemma writeFile_missing filePath content w :
  files w filePath = None -> writeFile filePath content w = Throw (ENOENT filePath).
Proof. unfold writeFile. now intros ->. Qed.

Lemma writeFile_same filePath content w :
  files w filePath = Some content -> writeFile filePath content w = Ok w.
Proof. unfold writeFile. intros ->. now rewrite String.eqb_refl. Qed.

Lemma writeFile_differs filePath content w existing :
  files w filePath = Some existing -> existing <> content ->
  writeFile filePath content w =
  Ok {| files := fun path => if path =? filePath then Some content else files w path;
        console := push (console w) ("Writing //" ++ filePath);
        hasChanges := true |}.
Proof.
  unfold writeFile. intros -> Hne.
  apply String.eqb_neq in Hne. now rewrite Hne.
Qed.

(** A run whose generation returned [o]. *)
Lemma main_generated (fuel : nat) (protocol : value) (fs : string -> option string)
    (o : output) :
  generate fuel protocol = Ok o ->
  let newChannels := join nl (channels_ts o) in
  let newValidator := join nl (validator_ts o) in
  let run := main fuel protocol fs in
  match fs channelsPath, fs validatorPath with
  | Some c, Some v =>
    fst run = Exit (if (c =? newChannels) && (v =? newValidator) then 0 else 1) /\
    files (snd run) channelsPath = Some newChannels /\
    files (snd run) validatorPath = Some newValidator /\
    (forall path, path <> channelsPath -> path <> validatorPath ->
                  files (snd run) path = fs path)
  | None, _ => run = (Uncaught (ENOENT channelsPath),
                      {| files := fs; console := []; hasChanges := false |})
  | Some _, None => fst run = Uncaught (ENOENT validatorPath)
  end.
Proof.
  intros Hgen newChannels newValidator run.
  subst run. unfold main. rewrite Hgen. fold newChannels newValidator.
  set (w0 := {| files := fs; console := []; hasChanges := false |}).
  assert (Hpaths : (validatorPath =? channelsPath) = false) by reflexivity.
  assert (Hpaths' : (channelsPath =? validatorPath) = false) by reflexivity.
  assert (Hfiles : files w0 = fs) by reflexivity.
  destruct (fs channelsPath) as [c|] eqn:Hc.
  2:{ now rewrite (writeFile_missing channelsPath newChannels w0 Hc). }
  destruct (c =? newChannels) eqn:Ec.
  + apply String.eqb_eq in Ec. subst c.
    rewrite (writeFile_same channelsPath newChannels w0 Hc).
    destruct (fs validatorPath) as [v|] eqn:Hv.
    2:{ now rewrite (writeFile_missing validatorPath newValidator w0 Hv). }
    destruct (v =? newValidator) eqn:Ev.
    * apply String.eqb_eq in Ev. subst v.
      rewrite (writeFile_same validatorPath newValidator w0 Hv).
      cbn [files hasChanges console fst snd]. repeat split; auto.
    * apply string_eqb_false_neq in Ev.
      rewrite (writeFile_differs validatorPath newValidator w0 v Hv Ev).
      cbn [files hasChanges console fst snd].
      rewrite Hpaths', String.eqb_refl, Hfiles, Hc. repeat split.
      intros path _ Hp. apply String.eqb_neq in Hp. now rewrite Hp.
  + apply string_eqb_false_neq in Ec.
    rewrite (writeFile_differs channelsPath newChannels w0 c Hc Ec).
    set (w1 := {| files := _; console := _; hasChanges := true |}).
    assert (Hv1 : files w1 validatorPath = fs validatorPath).
    { subst w1. cbn [files]. now rewrite Hpaths. }
    assert (Hc1 : files w1 channelsPath = Some newChannels).
    { subst w1. cbn [files]. now rewrite String.eqb_refl. }
    assert (Ho1 : forall path, path <> channelsPath -> files w1 path = fs path).
    { intros path Hp. subst w1. cbn [files]. apply String.eqb_neq in Hp. now rewrite Hp. }
    assert (Hh1 : hasChanges w1 = true) by reflexivity.
    clearbody w1.
    destruct (fs validatorPath) as [v|] eqn:Hv.
    2:{ now rewrite (writeFile_missing validatorPath newValidator w1 Hv1). }
    destruct (v =? newValidator) eqn:Ev.
    * apply String.eqb_eq in Ev. subst v.
      rewrite (writeFile_same validatorPath newValidator w1 Hv1).
      cbn [files hasChanges console fst snd]. rewrite Hh1. repeat split; auto.
    * apply string_eqb_false_neq in Ev.
      rewrite (writeFile_differs validatorPath newValidator w1 v Hv1 Ev).
      cbn [files hasChanges console fst snd].
      rewrite Hpaths', String.eqb_refl, Hc1. repeat split.
      intros path Hp1 Hp2. apply String.eqb_neq in Hp2. rewrite Hp2. auto.
Qed.

(** A run whose generation gave no result leaves the files as they were. *)
Lemma main_not_generated (fuel : nat) (protocol : value) (fs : string -> option string) :
  result (generate fuel protocol) = None ->
  snd (main fuel protocol fs) = {| files := fs; console := []; hasChanges := false |}.
Proof.
  unfold main. now destruct (generate fuel protocol).
Qed.

(** C8. The writer reads the target and aborts the run when it is missing,
    leaves the process state as it is when the content read equals the
    generated one, and writes it otherwise; when both targets exist the run
    ends with status 0 if both already held the generated contents and with
    status 1 if at least one was written, and both hold the generated
    contents afterwards. *)
Theorem writeFile_exit_contract :
  (forall filePath content w,
      match files w filePath with
      | None => writeFile filePath content w = Throw (ENOENT filePath)
      | Some existing =>
        if existing =? content then writeFile filePath content w = Ok w
        else exists w',
            writeFile filePath content w = Ok w' /\
            files w' filePath = Some content /\
            (forall path, path <> filePath -> files w' path = files w path) /\
            hasChanges w' = true
      end) /\
  (forall fuel protocol fs o,
      generate fuel protocol = Ok o ->
      let newChannels := join nl (channels_ts o) in
      let newValidator := join nl (validator_ts o) in
      let run := main fuel protocol fs in
      match fs channelsPath, fs validatorPath with
      | Some c, Some v =>
        fst run = Exit (if (c =? newChannels) && (v =? newValidator) then 0 else 1) /\
        files (snd run) channelsPath = Some newChannels /\
        files (snd run) validatorPath = Some newValidator /\
        (forall path, path <> channelsPath -> path <> validatorPath ->
                      files (snd run) path = fs path)
      | None, _ => run = (Uncaught (ENOENT channelsPath),
                          {| files := fs; console := []; hasChanges := false |})
      | Some _, None => fst run = Uncaught (ENOENT validatorPath)
      end).
Proof.
  split.
  - intros filePath content w. unfold writeFile.
    destruct (files w filePath) as [existing|]; [|reflexivity].
    destruct (existing =? content) eqn:E; [reflexivity|].
    eexists. split; [reflexivity|]. cbn. rewrite String.eqb_refl.
    repeat split. intros path Hp. apply String.eqb_neq in Hp. now rewrite Hp.
  - intros fuel protocol fs o. apply main_generated.
Qed.

(** C2, as stated, fails: with a stale [channels.ts] and no [validator.ts]
    the run aborts on the second target after it has rewritten the first,
    so one file holds new contents and the other is as it was. *)
Lemma partial_output_counterexample :
  let run := main 10 sample staleFs in
  fst run = Uncaught (ENOENT validatorPath) /\
  staleFs channelsPath = Some "stale" /\
  match generate 10 sample with
  | Ok o => files (snd run) channelsPath = Some (join nl (channels_ts o))
  | _ => False
  end /\
  files (snd run) channelsPath <> Some "stale" /\
  staleFs validatorPath = None /\
  files (snd run) validatorPath = None.
Proof.
  cbv zeta.
  split; [vm_compute; reflexivity|].
  split; [vm_compute; reflexivity|].
  split; [vm_compute; reflexivity|].
  split; [vm_compute; discriminate|].
  split; vm_compute; reflexivity.
Qed.

(** C2, amended. A run that fails while generating, or that finds
    [channels.ts] missing, leaves every file as it was; a run that
    completes leaves both targets with the generated contents; a run that
    finds [validator.ts] missing aborts after [channels.ts] has been
    brought to its generated contents, every other file being as it was. *)
Theorem main_abort_files (fuel : nat) (protocol : value) (fs : string -> option string) :
  let run := main fuel protocol fs in
  let untouched := {| files := fs; console := []; hasChanges := false |} in
  match generate fuel protocol with
  | OutOfFuel => run = (Hang, untouched)
  | Throw e => run = (Uncaught e, untouched)
  | Ok o =>
    match fs channelsPath, fs validatorPath with
    | None, _ => run = (Uncaught (ENOENT channelsPath), untouched)
    | Some _, None =>
      fst run = Uncaught (ENOENT validatorPath) /\
      files (snd run) channelsPath = Some (join nl (channels_ts o)) /\
      (forall path, path <> channelsPath -> files (snd run) path = fs path)
    | Some _, Some _ =>
      (exists code, fst run = Exit code) /\
      files (snd run) channelsPath = Some (join nl (channels_ts o)) /\
      files (snd run) validatorPath = Some (join nl (validator_ts o)) /\
      (forall path, path <> channelsPath -> path <> validatorPath ->
                    files (snd run) path = fs path)
    end
  end.
Proof.
  intros run untouched.
  destruct (generate fuel protocol) as [o|e|] eqn:Hgen;
    try (subst run; unfold main; rewrite Hgen; reflexivity).
  pose proof (main_generated fuel protocol fs o Hgen) as H.
  cbv zeta in H. fold run in H.
  destruct (fs channelsPath) as [c|] eqn:Hc; [|exact H].
  destruct (fs validatorPath) as [v|] eqn:Hv.
  - destruct H as (H1 & H2 & H3 & H4). repeat split; auto. eexists; exact H1.
  - split; [exact H|].
    subst run. unfold main. rewrite Hgen.
    set (w0 := {| files := fs; console := []; hasChanges := false |}).
    assert (Hpaths : (validatorPath =? channelsPath) = false) by reflexivity.
    destruct (c =? join nl (channels_ts o)) eqn:Ec.
    + apply String.eqb_eq in Ec. subst c.
      rewrite (writeFile_same channelsPath _ w0 Hc).
      rewrite (writeFile_missing validatorPath _ w0 Hv). cbn [snd files]. auto.
    + apply string_eqb_false_neq in Ec.
      rewrite (writeFile_differs channelsPath _ w0 c Hc Ec).
      set (w1 := {| files := _; console := _; hasChanges := true |}).
      assert (Hv1 : files w1 validatorPath = None).
      { subst w1. cbn [files]. now rewrite Hpaths. }
      rewrite (writeFile_missing validatorPath _ w1 Hv1).
      subst w1. cbn [snd files]. rewrite String.eqb_refl. split; [reflexivity|].
      intros path Hp. apply String.eqb_neq in Hp. now rewrite Hp.
Qed.

(** ** The cached user agent *)

Example getUserAgent_linux :
  getUserAgent linuxHost None
  = Ok ("Playwright/1.36.0 (x64; ubuntu 22.04) node/18.17 CI/1",
        Some "Playwright/1.36.0 (x64; ubuntu 22.04) node/18.17 CI/1").
Proof. reflexivity. Qed.

Example getUserAgent_fallback :
  calls [brokenHost; linuxHost; brokenHost] None
  = [Ok "Playwright/unknown"; Ok "Playwright/unknown"; Ok "Playwright/unknown"].
Proof. reflexivity. Qed.

Lemma determineUserAgent_truthy (h : host) (s : string) :
  determineUserAgent h = Ok s -> (s =? "") = false.
Proof.
  unfold determineUserAgent. intros H.
  destruct (_ : outcome (string * string)) as [[osIdentifier osVersion]|e|] in H;
    cbn [bind] in H; try discriminate.
  destruct (getClientLanguage h) as [langName langVersion].
  destruct (getPlaywrightVersion h false) as [v|e|]; cbn [bind] in H; try discriminate.
  injection H as <-. reflexivity.
Qed.

Lemma getUserAgent_first (h : host) :
  match determineUserAgent h with
  | Ok s => getUserAgent h None = Ok (s, Some s)
  | Throw _ => getUserAgent h None = Ok ("Playwright/unknown", Some "Playwright/unknown")
  | OutOfFuel => getUserAgent h None = OutOfFuel
  end.
Proof.
  unfold getUserAgent. destruct (determineUserAgent h); reflexivity.
Qed.

Lemma getUserAgent_hit (h : host) (s : string) :
  (s =? "") = false -> getUserAgent h (Some s) = Ok (s, Some s).
Proof. unfold getUserAgent. now intros ->. Qed.

Lemma calls_cached (hs : list host) (s : string) :
  (s =? "") = false -> calls hs (Some s) = map (fun _ => Ok s) hs.
Proof.
  intros Hs. induction hs as [|h hs IH]; [reflexivity|].
  cbn [calls map]. rewrite (getUserAgent_hit h s Hs). now rewrite IH.
Qed.

(** C10. [getUserAgent] never throws; when [determineUserAgent] throws,
    the first call returns ['Playwright/unknown']; and once a first call
    has returned a string, every later call returns that string, whatever
    the host then answers. *)
Theorem getUserAgent_never_throws_and_caches :
  (forall h cachedUserAgent,
      match getUserAgent h cachedUserAgent with
      | Throw _ => False
      | _ => True
      end) /\
  (forall h e,
      determineUserAgent h = Throw e ->
      getUserAgent h None = Ok ("Playwright/unknown", Some "Playwright/unknown")) /\
  (forall h s cached,
      getUserAgent h None = Ok (s, cached) ->
      forall later, calls later cached = map (fun _ => Ok s) later).
Proof.
  split; [|split].
  - intros h [cached|]; unfold getUserAgent.
    + destruct (cached =? ""); cbn [negb]; [|exact I].
      destruct (determineUserAgent h); exact I.
    + destruct (determineUserAgent h); exact I.
  - intros h e H. pose proof (getUserAgent_first h) as F. now rewrite H in F.
  - intros h s cached H later.
    pose proof (getUserAgent_first h) as F.
    destruct (determineUserAgent h) as [s'|e|] eqn:D; rewrite F in H; try discriminate;
      injection H as <- <-; apply calls_cached.
    + now apply (determineUserAgent_truthy h).
    + reflexivity.
Qed.

(** ** The script only pushes *)

Lemma pushed_refl {B : Type} (l : list B) : pushed l l.
Proof. exists []. now rewrite app_nil_r. Qed.

Lemma pushed_trans {B : Type} (l1 l2 l3 : list B) :
  pushed l1 l2 -> pushed l2 l3 -> pushed l1 l3.
Proof. intros [t ->] [u ->]. exists (t ++ u)%list. now rewrite app_assoc. Qed.

Lemma pushed_app {B : Type} (l t : list B) : pushed l (l ++ t)%list.
Proof. now exists t. Qed.

Lemma pushed_In {B : Type} (l l' : list B) (x : B) : pushed l l' -> In x l -> In x l'.
Proof. intros [t ->] H. apply in_or_app. now left. Qed.

Lemma grows_refl (o : output) : grows o o.
Proof. split; apply pushed_refl. Qed.

Lemma grows_trans (o1 o2 o3 : output) : grows o1 o2 -> grows o2 o3 -> grows o1 o3.
Proof. intros [] []. split; eapply pushed_trans; eauto. Qed.

Lemma grows_emit (line : string) (o : output) : grows o (emit line o).
Proof. split; cbn; try apply pushed_refl. apply pushed_app. Qed.

Lemma grows_addScheme (name s : string) (o : output) : grows o (addScheme name s o).
Proof. split; cbn; try apply pushed_refl; apply pushed_app. Qed.

Lemma grows_pushSnapshots (names : list string) (o : output) : grows o (pushSnapshots names o).
Proof. split; cbn; try apply pushed_refl; apply pushed_app. Qed.

Lemma grows_pushPauses (names : list string) (o : output) : grows o (pushPauses names o).
Proof. split; cbn; try apply pushed_refl; apply pushed_app. Qed.

Lemma grows_fold {A : Type} (step : output -> A -> output) (l : list A) (o : output) :
  (forall o x, grows o (step o x)) -> grows o (fold_left step l o).
Proof.
  intros Hstep. revert o. induction l as [|x l IH]; intros o; cbn; [apply grows_refl|].
  eapply grows_trans; [apply Hstep | apply IH].
Qed.

Lemma emitsOnly_refl (o : output) : emitsOnly o o.
Proof. now repeat split. Qed.

Lemma emitsOnly_trans (o1 o2 o3 : output) :
  emitsOnly o1 o2 -> emitsOnly o2 o3 -> emitsOnly o1 o3.
Proof.
  unfold emitsOnly. intros (A1 & A2 & A3 & A4) (B1 & B2 & B3 & B4).
  repeat split; congruence.
Qed.

Lemma emitsOnly_emit (line : string) (o : output) : emitsOnly o (emit line o).
Proof. now repeat split. Qed.

Lemma emitsOnly_fold {A : Type} (step : output -> A -> output) (l : list A) (o : output) :
  (forall o x, emitsOnly o (step o x)) -> emitsOnly o (fold_left step l o).
Proof.
  intros Hstep. revert o. induction l as [|x l IH]; intros o; cbn; [apply emitsOnly_refl|].
  eapply emitsOnly_trans; [apply Hstep | apply IH].
Qed.

Create HintDb grows.

#[local] Hint Resolve grows_refl grows_emit grows_addScheme grows_pushSnapshots
  grows_pushPauses : grows.

Ltac grows_chain :=
  repeat first
    [ apply grows_refl
    | assumption
    | eapply grows_trans; [| solve [auto with grows] ] ].

Lemma addAliases_grows_step (channelName methodName paramsName : string)
    (entry : value * value) (o o' : output) :
  (let '(key, parent) := entry in
   if isStr parent channelName then
     t <- titleCase methodName ;;
     Ok (addScheme (toString key ++ t ++ "Params") ("tType('" ++ paramsName ++ "')") o)
   else Ok o) = Ok o' ->
  grows o o'.
Proof.
  destruct entry as [key parent]. intros H.
  destruct (isStr parent channelName).
  - apply bind_Ok in H. destruct H as (t & _ & H). injection H as <-. auto with grows.
  - injection H as <-. auto with grows.
Qed.

Lemma addAliases_grows r channelName methodName paramsName o o' :
  addAliases r channelName methodName paramsName o = Ok o' -> grows o o'.
Proof.
  unfold addAliases.
  apply (forEach_preorder grows); [apply grows_refl | apply grows_trans |].
  intros entry s s' _. apply addAliases_grows_step.
Qed.

Lemma emitEvent_grows fuel r channelName entry st st' :
  emitEvent fuel r channelName entry st = Ok st' -> grows (snd st) (snd st').
Proof.
  destruct entry as [eventName event], st as [[ts_types eventTypes] o].
  unfold emitEvent. intros H.
  apply bind_Ok in H. destruct H as (p & _ & H).
  apply bind_Ok in H. destruct H as (parameters & _ & H).
  apply bind_Ok in H. destruct H as (t & _ & H).
  injection H as <-. cbn [snd]. auto with grows.
Qed.

Lemma get_field (v : value) (k : string) (x : value) : get v k = Ok x -> field v k = x.
Proof. unfold field. now intros ->. Qed.

Lemma field_orEmpty (v : value) (k : string) : field (orEmpty v) k = field v k.
Proof. now destruct v. Qed.

Lemma tracingFlag_carries (method : value) (flag : string) (x : value) :
  tracingFlag (orEmpty method) flag = Ok x -> truthy x = carries method flag.
Proof.
  unfold tracingFlag, carries. intros H.
  apply bind_Ok in H. destruct H as (tracing & Ht & H).
  apply get_field in Ht. rewrite field_orEmpty in Ht. subst tracing.
  destruct (truthy (field method "tracing")) eqn:T.
  - apply get_field in H. now subst x.
  - injection H as <-. rewrite T.
    destruct (field method "tracing"); cbn in T |- *; try discriminate; reflexivity.
Qed.

Lemma emitCommand_Ok fuel r dc name m method ts_types o st' :
  emitCommand fuel r dc name (m, method) (ts_types, o) = Ok st' ->
  let p := field method "parameters" in
  let ret := field method "returns" in
  let flagged := fun o =>
    let o := if carries method "snapshot"
             then pushSnapshots (recordedBy dc name m) o else o in
    if carries method "pausesBeforeInput"
    then pushPauses (recordedBy dc name m) o else o in
  exists t parameters options returns o',
    titleCase m = Ok t /\
    objectType (channels r) (mixins r) fuel (orElse p (VObj [])) "" false = Ok parameters /\
    objectType (channels r) (mixins r) fuel (orElse p (VObj [])) "" true = Ok options /\
    objectType (channels r) (mixins r) fuel (orElse ret (VObj [])) "" false = Ok returns /\
    addAliases r name m (name ++ t ++ "Params")
      (addScheme (name ++ t ++ "Params")
         (if truthy p then scheme_lines parameters else "tOptional(tObject({}))")
         (flagged o)) = Ok o' /\
    st' = (setType (name ++ t ++ "Result") (if truthy ret then ts_lines returns else "void")
             (setType (name ++ t ++ "Options") (ts_lines options)
                (setType (name ++ t ++ "Params") (ts_lines parameters) ts_types)),
           emit ("  " ++ m ++ "(params" ++ (if truthy p then "" else "?") ++ ": "
                   ++ (name ++ t ++ "Params") ++ ", metadata?: Metadata): Promise<"
                   ++ (name ++ t ++ "Result") ++ ">;") o').
Proof.
  unfold emitCommand. fold (orEmpty method). intros H.
  apply bind_Ok in H. destruct H as (snapshot & Hs & H).
  apply tracingFlag_carries in Hs.
  apply bind_Ok in H. destruct H as (pauses & Hp & H).
  apply tracingFlag_carries in Hp.
  apply bind_Ok in H. destruct H as (p & Hpar & H).
  apply get_field in Hpar. rewrite field_orEmpty in Hpar. subst p.
  apply bind_Ok in H. destruct H as (parameters & Hparameters & H).
  apply bind_Ok in H. destruct H as (t & Ht & H).
  apply bind_Ok in H. destruct H as (options & Hoptions & H).
  apply bind_Ok in H. destruct H as (o' & Ho' & H).
  apply bind_Ok in H. destruct H as (ret & Hret & H).
  apply get_field in Hret. rewrite field_orEmpty in Hret. subst ret.
  apply bind_Ok in H. destruct H as (returns & Hreturns & H).
  injection H as <-.
  rewrite Hs, Hp in Ho'.
  exists t, parameters, options, returns, o'. cbv zeta.
  repeat split; first [assumption | reflexivity].
Qed.

Lemma emitCommand_grows fuel r dc name entry st st' :
  emitCommand fuel r dc name entry st = Ok st' -> grows (snd st) (snd st').
Proof.
  destruct entry as [m method], st as [ts_types o]. intros H.
  apply emitCommand_Ok in H. cbv zeta in H.
  destruct H as (t & parameters & options & returns & o' & _ & _ & _ & _ & Ha & ->).
  apply addAliases_grows in Ha. cbn [snd].
  eapply grows_trans; [|apply grows_emit].
  eapply grows_trans; [|exact Ha].
  eapply grows_trans; [|apply grows_addScheme].
  destruct (carries method "pausesBeforeInput"), (carries method "snapshot");
    grows_chain.
Qed.

Lemma emitInterface_Ok fuel r dc name item o o' :
  emitInterface fuel r dc name item o = Ok o' ->
  exists init events ts_types eventTypes o1 ts_types' o2,
    objectType (channels r) (mixins r) fuel (orElse (field item "initializer") (VObj [])) ""
               false = Ok init /\
    entries (orElse (field item "events") (VObj [])) = Ok events /\
    forEach (emitEvent fuel r name) events
      ([], [],
       emit ("export interface " ++ name ++ "EventTarget {")
         (emit ("export type " ++ (name ++ "Initializer") ++ " = " ++ ts_lines init ++ ";")
            (emit ("// ----------- " ++ name ++ " -----------") o)))
    = Ok (ts_types, eventTypes, o1) /\
    forEach (emitCommand fuel r dc name) (commandsOf item)
      (ts_types,
       emit ("  _type_" ++ name ++ ": boolean;")
         (emit ("export interface " ++ name ++ "Channel extends " ++ name
                  ++ "EventTarget, " ++ toString (orElse (field item "extends") (VStr ""))
                  ++ "Channel {")
            (emit "}" o1)))
    = Ok (ts_types', o2) /\
    grows o2 o' /\ emitsOnly o2 o'.
Proof.
  unfold emitInterface. intros H.
  apply bind_Ok in H. destruct H as (i & Hi & H). apply get_field in Hi. subst i.
  apply bind_Ok in H. destruct H as (init & Hinit & H).
  apply bind_Ok in H. destruct H as (evs & Hevs & H). apply get_field in Hevs. subst evs.
  apply bind_Ok in H. destruct H as (events & Hevents & H).
  apply bind_Ok in H. destruct H as ([[ts_types eventTypes] o1] & Hloop1 & H).
  apply bind_Ok in H. destruct H as (ext & Hext & H). apply get_field in Hext. subst ext.
  apply bind_Ok in H. destruct H as (cmds & Hcmds & H). apply get_field in Hcmds. subst cmds.
  apply bind_Ok in H. destruct H as (commands & Hcommands & H).
  apply bind_Ok in H. destruct H as ([ts_types' o2] & Hloop2 & H).
  injection H as <-.
  exists init, events, ts_types, eventTypes, o1, ts_types', o2.
  unfold commandsOf. rewrite Hcommands.
  split; [assumption|]. split; [assumption|]. split; [assumption|].
  split; [assumption|]. split.
  - eapply grows_trans; [|apply grows_emit].
    eapply grows_trans; [|apply grows_fold; intros ? []; apply grows_emit].
    eapply grows_trans; [|apply grows_emit].
    eapply grows_trans; [|apply grows_emit].
    eapply grows_trans; [|apply grows_fold; intros ? []; apply grows_emit].
    apply grows_emit.
  - eapply emitsOnly_trans; [|apply emitsOnly_emit].
    eapply emitsOnly_trans; [|apply emitsOnly_fold; intros ? []; apply emitsOnly_emit].
    eapply emitsOnly_trans; [|apply emitsOnly_emit].
    eapply emitsOnly_trans; [|apply emitsOnly_emit].
    eapply emitsOnly_trans; [|apply emitsOnly_fold; intros ? []; apply emitsOnly_emit].
    apply emitsOnly_emit.
Qed.

Lemma emitInterface_grows fuel r dc name item o o' :
  emitInterface fuel r dc name item o = Ok o' -> grows o o'.
Proof.
  intros H. apply emitInterface_Ok in H.
  destruct H as (init & events & ts_types & eventTypes & o1 & ts_types' & o2
                 & _ & _ & H1 & H2 & H3 & _).
  apply (forEach_preorder (fun s s' => grows (snd s) (snd s'))) in H1;
    [| intros; apply grows_refl | intros ? ? ?; apply grows_trans
     | intros ? ? ? _; apply emitEvent_grows ].
  apply (forEach_preorder (fun s s' => grows (snd s) (snd s'))) in H2;
    [| intros; apply grows_refl | intros ? ? ?; apply grows_trans
     | intros ? ? ? _; apply emitCommand_grows ].
  cbn [snd] in H1, H2.
  eapply grows_trans; [|exact H3].
  eapply grows_trans; [|exact H2].
  eapply grows_trans; [|apply grows_emit].
  eapply grows_trans; [|apply grows_emit].
  eapply grows_trans; [|apply grows_emit].
  eapply grows_trans; [|exact H1].
  grows_chain.
Qed.

Lemma emitEntity_grows fuel r dc entry o o' :
  emitEntity fuel r dc entry o = Ok o' -> grows o o'.
Proof.
  destruct entry as [name item]. unfold emitEntity. intros H.
  apply bind_Ok in H. destruct H as (type & _ & H).
  destruct (isStr type "interface"); [now apply emitInterface_grows in H|].
  destruct (isStr type "object").
  { apply bind_Ok in H. destruct H as (props & _ & H).
    apply bind_Ok in H. destruct H as (inner & _ & H).
    injection H as <-. grows_chain. }
  destruct (isStr type "enum").
  { apply bind_Ok in H. destruct H as (literals & _ & H).
    destruct literals; try discriminate. injection H as <-. grows_chain. }
  injection H as <-. apply grows_refl.
Qed.

(** ** The trait mappings *)

Lemma channelNames_rev (es : list (string * value)) :
  channelNames (rev es) = rev (channelNames es).
Proof.
  unfold channelNames. induction es as [|e es IH]; [reflexivity|].
  cbn [rev filter]. rewrite filter_app, map_app, IH. cbn [filter].
  destruct (isChannel (snd e)); cbn; [reflexivity|]. now rewrite app_nil_r.
Qed.

Lemma flat_map_channelNames (suffix : string) (l : list (string * value)) :
  flat_map (fun e => if isChannel (snd e) then [conditional suffix (fst e)] else []) l
  = map (conditional suffix) (channelNames l).
Proof.
  unfold channelNames. induction l as [|e l IH]; [reflexivity|].
  cbn [flat_map filter]. rewrite IH.
  destruct (isChannel (snd e)); reflexivity.
Qed.

Lemma trait_loop (suffix : string) (l : list (string * value)) (o o' : output) :
  forEach (trait suffix) l o = Ok o' ->
  channels_ts o' = (channels_ts o ++ map (conditional suffix) (channelNames l))%list.
Proof.
  intros H. rewrite <- flat_map_channelNames.
  apply (forEach_appends channels_ts _ (trait suffix) l); [|exact H].
  intros [name item] s s' _ Hb. unfold trait in Hb.
  apply bind_Ok in Hb. destruct Hb as (type & Ht & Hb). apply get_field in Ht.
  unfold isChannel. cbn [snd fst]. rewrite Ht.
  destruct (isStr type "interface"); cbn [negb] in Hb; injection Hb as <-.
  - reflexivity.
  - now rewrite app_nil_r.
Qed.

Lemma emitTraits_channels (es : list (string * value)) (o o' : output) :
  emitTraits (rev es) o = Ok o' ->
  channels_ts o' =
  (channels_ts o
   ++ traitMapping "// ----------- Initializer Traits -----------"
        "export type InitializerTraits<T> =" "Initializer" "    object;" es
   ++ traitMapping "// ----------- Event Traits -----------"
        "export type EventsTraits<T> =" "Events" "    undefined;" es
   ++ traitMapping "// ----------- EventTarget Traits -----------"
        "export type EventTargetTraits<T> =" "EventTarget" "    undefined;" es)%list.
Proof.
  unfold emitTraits. intros H.
  apply bind_Ok in H. destruct H as (o1 & H1 & H). apply trait_loop in H1.
  apply bind_Ok in H. destruct H as (o2 & H2 & H). apply trait_loop in H2.
  apply bind_Ok in H. destruct H as (o3 & H3 & H). apply trait_loop in H3.
  injection H as <-. cbn [emit channels_ts] in *. unfold push in *.
  rewrite H3, H2, H1, channelNames_rev. unfold traitMapping.
  repeat rewrite <- app_assoc. reflexivity.
Qed.

(** C5. The generated [channels.ts] starts with its header and the three
    trait mappings, each listing the channels, and only them, in reverse
    document order, and ending with its fallback. *)
Theorem traits_in_reverse_document_order (fuel : nat) (protocol : value) (o : output) :
  generate fuel protocol = Ok o ->
  exists es rest,
    entries protocol = Ok es /\
    channels_ts o =
    (channelsHeader
     :: traitMapping "// ----------- Initializer Traits -----------"
          "export type InitializerTraits<T> =" "Initializer" "    object;" es
     ++ traitMapping "// ----------- Event Traits -----------"
          "export type EventsTraits<T> =" "Events" "    undefined;" es
     ++ traitMapping "// ----------- EventTarget Traits -----------"
          "export type EventTargetTraits<T> =" "EventTarget" "    undefined;" es
     ++ rest)%list.
Proof.
  unfold generate. intros H.
  apply bind_Ok in H. destruct H as (es & Hes & H).
  apply bind_Ok in H. destruct H as (r & _ & H).
  apply bind_Ok in H. destruct H as (dc & _ & H).
  apply bind_Ok in H. destruct H as (o1 & H1 & H).
  apply bind_Ok in H. destruct H as (o2 & H2 & H).
  injection H as <-.
  apply emitTraits_channels in H1. cbn [initial channels_ts] in H1.
  apply (forEach_preorder grows) in H2;
    [| apply grows_refl | apply grows_trans | intros ? ? ? _; apply emitEntity_grows ].
  destruct (grows_channels _ _ H2) as [extra Hextra].
  exists es. eexists. split; [exact Hes|].
  cbn [finish emit channels_ts]. unfold push. rewrite Hextra, H1.
  cbn [app]. repeat rewrite <- app_assoc. reflexivity.
Qed.

(** C5 on the sample document: [B], declared after [A], comes first. *)
Lemma traits_in_reverse_document_order_sample :
  exists es rest,
    entries sample = Ok es /\
    channelNames es = ["A"; "B"] /\
    match result (generate 10 sample) with
    | Some o =>
      channels_ts o =
      (channelsHeader
       :: ["// ----------- Initializer Traits -----------";
           "export type InitializerTraits<T> =";
           "    T extends BChannel ? BInitializer :";
           "    T extends AChannel ? AInitializer :";
           "    object;"; ""]
       ++ traitMapping "// ----------- Event Traits -----------"
            "export type EventsTraits<T> =" "Events" "    undefined;" es
       ++ traitMapping "// ----------- EventTarget Traits -----------"
            "export type EventTargetTraits<T> =" "EventTarget" "    undefined;" es
       ++ rest)%list
    | None => False
    end.
Proof.
  destruct (generate 10 sample) as [o|e|] eqn:G;
    [| vm_compute in G; discriminate G | vm_compute in G; discriminate G].
  destruct (traits_in_reverse_document_order 10 sample o G) as (es & rest & Hes & H).
  exists es, rest. split; [exact Hes|].
  injection Hes as <-. split; [reflexivity|]. exact H.
Defined.

(** ** The inheritance index *)

Lemma sameValueZero_eq (a b : value) : sameValueZero a b = true -> a = b.
Proof.
  destruct a, b; cbn; intros H; try discriminate; try reflexivity.
  - apply Bool.eqb_prop in H. now subst.
  - apply Z.eqb_eq in H. now subst.
  - apply String.eqb_eq in H. now subst.
Qed.

Lemma sameValueZero_str (s : string) (v : value) : sameValueZero (VStr s) v = isStr v s.
Proof. destruct v; cbn; try reflexivity. apply String.eqb_sym. Qed.

Lemma isStr_eq (v : value) (s : string) : isStr v s = true -> v = VStr s.
Proof. destruct v; cbn; try discriminate. intros H. apply String.eqb_eq in H. now subst. Qed.

Lemma mapGet_mapSet_str {V : Type} (s : string) (k : value) (v : V) (m : list (value * V)) :
  mapGet (VStr s) (mapSet k v m) = if isStr k s then Some v else mapGet (VStr s) m.
Proof.
  induction m as [|[k1 v1] m IH]; cbn [mapSet mapGet].
  - now rewrite sameValueZero_str.
  - destruct (sameValueZero k k1) eqn:E; cbn [mapGet].
    + apply sameValueZero_eq in E. subst k1. rewrite sameValueZero_str.
      destruct (isStr k s); reflexivity.
    + rewrite IH, sameValueZero_str.
      destruct (isStr k1 s) eqn:E1; [|reflexivity].
      destruct (isStr k s) eqn:E2; [|reflexivity].
      apply isStr_eq in E1, E2. subst. cbn in E. now rewrite String.eqb_refl in E.
Qed.

Lemma derive_step (name : string) (item : value) (dc dc' : list (value * list string)) :
  derive (name, item) dc = Ok dc' ->
  forall C, derivedOf dc' C
            = (derivedOf dc C ++ if extendsChannel item C then [name] else [])%list.
Proof.
  unfold derive, extendsChannel, isChannel. intros H C.
  apply bind_Ok in H. destruct H as (type & Ht & H). apply get_field in Ht. rewrite Ht.
  destruct (isStr type "interface"); cbn [andb].
  2:{ injection H as <-. now rewrite app_nil_r. }
  apply bind_Ok in H. destruct H as (ext & He & H). apply get_field in He. rewrite He.
  destruct (truthy ext); cbn [andb].
  2:{ injection H as <-. now rewrite app_nil_r. }
  unfold derivedOf.
  destruct (mapGet ext dc) as [items|] eqn:G; injection H as <-;
    rewrite mapGet_mapSet_str; destruct (isStr ext C) eqn:E;
    try (now rewrite app_nil_r);
    apply isStr_eq in E; rewrite E in G; now rewrite G.
Qed.

Lemma derive_loop (es : list (string * value)) (dc dc' : list (value * list string)) :
  forEach derive es dc = Ok dc' ->
  forall C, derivedOf dc' C = (derivedOf dc C ++ directChildren es C)%list.
Proof.
  revert dc. induction es as [|[name item] es IH]; intros dc H C; cbn in H.
  - injection H as <-. unfold directChildren. cbn. now rewrite app_nil_r.
  - apply bind_Ok in H. destruct H as (dc1 & H1 & H2).
    rewrite (IH dc1 H2 C), (derive_step name item dc dc1 H1 C), <- app_assoc.
    f_equal. unfold directChildren. cbn [filter snd].
    destruct (extendsChannel item C); reflexivity.
Qed.

(** ** The commands that carry a tracing flag *)

Lemma addAliases_flags r channelName methodName paramsName o o' :
  addAliases r channelName methodName paramsName o = Ok o' ->
  tracingSnapshots o' = tracingSnapshots o /\
  pausesBeforeInputActions o' = pausesBeforeInputActions o.
Proof.
  unfold addAliases.
  apply (forEach_preorder
           (fun s s' => tracingSnapshots s' = tracingSnapshots s /\
                        pausesBeforeInputActions s' = pausesBeforeInputActions s)).
  - now intros.
  - intros s1 s2 s3 [-> ->] [-> ->]. now split.
  - intros [key parent] s s' _ H.
    destruct (isStr parent channelName).
    + apply bind_Ok in H. destruct H as (t & _ & H). injection H as <-. now split.
    + injection H as <-. now split.
Qed.

Lemma emitEvent_flags fuel r channelName entry st st' :
  emitEvent fuel r channelName entry st = Ok st' ->
  tracingSnapshots (snd st') = tracingSnapshots (snd st) /\
  pausesBeforeInputActions (snd st') = pausesBeforeInputActions (snd st).
Proof.
  destruct entry as [eventName event], st as [[ts_types eventTypes] o].
  unfold emitEvent. intros H.
  apply bind_Ok in H. destruct H as (p & _ & H).
  apply bind_Ok in H. destruct H as (parameters & _ & H).
  apply bind_Ok in H. destruct H as (t & _ & H).
  injection H as <-. now split.
Qed.

Lemma emitCommand_flags fuel r dc name m method st st' :
  emitCommand fuel r dc name (m, method) st = Ok st' ->
  tracingSnapshots (snd st')
  = (tracingSnapshots (snd st)
     ++ if carries method "snapshot" then recordedBy dc name m else [])%list /\
  pausesBeforeInputActions (snd st')
  = (pausesBeforeInputActions (snd st)
     ++ if carries method "pausesBeforeInput" then recordedBy dc name m else [])%list.
Proof.
  destruct st as [ts_types o]. intros H. apply emitCommand_Ok in H. cbv zeta in H.
  destruct H as (t & parameters & options & returns & o' & _ & _ & _ & _ & Ha & ->).
  apply addAliases_flags in Ha. destruct Ha as [Ha1 Ha2].
  cbn [snd emit tracingSnapshots pausesBeforeInputActions]. rewrite Ha1, Ha2.
  cbn [addScheme tracingSnapshots pausesBeforeInputActions].
  destruct (carries method "pausesBeforeInput"), (carries method "snapshot");
    cbn [pushPauses pushSnapshots tracingSnapshots pausesBeforeInputActions];
    rewrite ?app_nil_r; split; reflexivity.
Qed.

Lemma emitCommand_flags_entry fuel r dc name c st st' :
  emitCommand fuel r dc name c st = Ok st' ->
  tracingSnapshots (snd st')
  = (tracingSnapshots (snd st)
     ++ if carries (snd c) "snapshot" then recordedBy dc name (fst c) else [])%list /\
  pausesBeforeInputActions (snd st')
  = (pausesBeforeInputActions (snd st)
     ++ if carries (snd c) "pausesBeforeInput" then recordedBy dc name (fst c) else [])%list.
Proof. destruct c as [m method]. apply emitCommand_flags. Qed.

Lemma emitInterface_flags fuel r dc name item o o' :
  emitInterface fuel r dc name item o = Ok o' ->
  tracingSnapshots o'
  = (tracingSnapshots o
     ++ flat_map (fun c => if carries (snd c) "snapshot"
                           then recordedBy dc name (fst c) else [])
                 (commandsOf item))%list /\
  pausesBeforeInputActions o'
  = (pausesBeforeInputActions o
     ++ flat_map (fun c => if carries (snd c) "pausesBeforeInput"
                           then recordedBy dc name (fst c) else [])
                 (commandsOf item))%list.
Proof.
  intros H. apply emitInterface_Ok in H.
  destruct H as (init & events & ts_types & eventTypes & o1 & ts_types' & o2
                 & _ & _ & H1 & H2 & _ & (_ & -> & -> & _)).
  apply (forEach_preorder
           (fun s s' => tracingSnapshots (snd s') = tracingSnapshots (snd s) /\
                        pausesBeforeInputActions (snd s') = pausesBeforeInputActions (snd s)))
    in H1;
    [| now intros | intros s1 s2 s3 [-> ->] [-> ->]; now split
     | intros ? ? ? _ Hb; exact (emitEvent_flags _ _ _ _ _ _ Hb) ].
  cbn [snd emit tracingSnapshots pausesBeforeInputActions] in H1.
  destruct H1 as [L1 L2].
  pose proof (forEach_appends (fun s => tracingSnapshots (snd s))
                (fun c => if carries (snd c) "snapshot" then recordedBy dc name (fst c) else [])
                (emitCommand fuel r dc name) (commandsOf item)
                (fun c s s' _ Hc => proj1 (emitCommand_flags_entry fuel r dc name c s s' Hc))
                _ _ H2) as S1.
  pose proof (forEach_appends (fun s => pausesBeforeInputActions (snd s))
                (fun c => if carries (snd c) "pausesBeforeInput"
                          then recordedBy dc name (fst c) else [])
                (emitCommand fuel r dc name) (commandsOf item)
                (fun c s s' _ Hc => proj2 (emitCommand_flags_entry fuel r dc name c s s' Hc))
                _ _ H2) as S2.
  cbn [snd emit tracingSnapshots pausesBeforeInputActions] in S1, S2.
  rewrite L1 in S1. rewrite L2 in S2. now split.
Qed.

Lemma emitEntity_flags fuel r dc name item o o' :
  emitEntity fuel r dc (name, item) o = Ok o' ->
  tracingSnapshots o'
  = (tracingSnapshots o
     ++ if isChannel item
        then flat_map (fun c => if carries (snd c) "snapshot"
                                then recordedBy dc name (fst c) else [])
                      (commandsOf item)
        else [])%list /\
  pausesBeforeInputActions o'
  = (pausesBeforeInputActions o
     ++ if isChannel item
        then flat_map (fun c => if carries (snd c) "pausesBeforeInput"
                                then recordedBy dc name (fst c) else [])
                      (commandsOf item)
        else [])%list.
Proof.
  unfold emitEntity, isChannel. intros H.
  apply bind_Ok in H. destruct H as (type & Ht & H). apply get_field in Ht. rewrite Ht.
  destruct (isStr type "interface"); [exact (emitInterface_flags _ _ _ _ _ _ _ H)|].
  rewrite !app_nil_r.
  destruct (isStr type "object").
  { apply bind_Ok in H. destruct H as (props & _ & H).
    apply bind_Ok in H. destruct H as (inner & _ & H).
    injection H as <-. now split. }
  destruct (isStr type "enum").
  { apply bind_Ok in H. destruct H as (literals & _ & H).
    destruct literals; try discriminate. injection H as <-. now split. }
  injection H as <-. now split.
Qed.

Lemma emitTraits_only (l : list (string * value)) (o o' : output) :
  emitTraits l o = Ok o' -> emitsOnly o o'.
Proof.
  assert (L : forall suffix l o o', forEach (trait suffix) l o = Ok o' -> emitsOnly o o').
  { intros suffix l0. apply (forEach_preorder emitsOnly);
      [apply emitsOnly_refl | apply emitsOnly_trans |].
    intros [name item] s s' _ H. unfold trait in H.
    apply bind_Ok in H. destruct H as (type & _ & H).
    destruct (negb (isStr type "interface")); injection H as <-;
      [apply emitsOnly_refl | apply emitsOnly_emit]. }
  unfold emitTraits. intros H.
  apply bind_Ok in H. destruct H as (o1 & H1 & H). apply L in H1.
  apply bind_Ok in H. destruct H as (o2 & H2 & H). apply L in H2.
  apply bind_Ok in H. destruct H as (o3 & H3 & H). apply L in H3.
  injection H as <-.
  repeat (eapply emitsOnly_trans; [|apply emitsOnly_emit]).
  eapply emitsOnly_trans; [|exact H3].
  repeat (eapply emitsOnly_trans; [|apply emitsOnly_emit]).
  eapply emitsOnly_trans; [|exact H2].
  repeat (eapply emitsOnly_trans; [|apply emitsOnly_emit]).
  eapply emitsOnly_trans; [|exact H1].
  repeat (eapply emitsOnly_trans; [|apply emitsOnly_emit]).
  apply emitsOnly_refl.
Qed.

Lemma recorded_flat_map (flag : string) (dc : list (value * list string))
    (es all : list (string * value)) :
  (forall C, derivedOf dc C = directChildren all C) ->
  flat_map (fun e => if isChannel (snd e)
                     then flat_map (fun c => if carries (snd c) flag
                                             then recordedBy dc (fst e) (fst c) else [])
                                   (commandsOf (snd e))
                     else []) es
  = flat_map (fun e => if isChannel (snd e)
                       then flat_map (fun c => if carries (snd c) flag
                                               then recordedFor all (fst e) (fst c) else [])
                                     (commandsOf (snd e))
                       else []) es.
Proof.
  intros Hdc. apply flat_map_ext. intros [C item]. cbn [fst snd].
  destruct (isChannel item); [|reflexivity].
  apply flat_map_ext. intros [m method]. cbn [fst snd].
  unfold recordedBy, recordedFor. now rewrite Hdc.
Qed.

Lemma recorded_In (flag : string) (es : list (string * value)) (s : string) :
  In s (recorded flag es) <->
  exists C item m method,
    In (C, item) es /\ isChannel item = true /\
    In (m, method) (commandsOf item) /\ carries method flag = true /\
    (s = C ++ "." ++ m \/ exists D, In D (directChildren es C) /\ s = D ++ "." ++ m).
Proof.
  unfold recorded. rewrite in_flat_map. split.
  - intros ([C item] & Hin & Hs). cbn [fst snd] in Hs.
    destruct (isChannel item) eqn:Hc; [|contradiction].
    apply in_flat_map in Hs. destruct Hs as ([m method] & Hm & Hs). cbn [fst snd] in Hs.
    destruct (carries method flag) eqn:Hf; [|contradiction].
    exists C, item, m, method. repeat (split; [assumption|]).
    destruct Hs as [<-|Hs]; [now left|]. right.
    apply in_map_iff in Hs. destruct Hs as (D & <- & HD). eauto.
  - intros (C & item & m & method & Hin & Hc & Hm & Hf & Hs).
    exists (C, item). split; [exact Hin|]. cbn [fst snd]. rewrite Hc.
    apply in_flat_map. exists (m, method). split; [exact Hm|]. cbn [fst snd]. rewrite Hf.
    destruct Hs as [->|(D & HD & ->)]; [now left|]. right.
    apply in_map_iff. eauto.
Qed.

(** C3. The snapshot set and the pauses-before-input set are, in document
    order: for every channel [C] and every command [m] of [C] that carries
    the flag, ['C.m'] followed by ['D.m'] for the channels [D] that
    directly extend [C], and nothing else; a channel directly extends [C]
    when its own [extends] is [C]. *)
Theorem tracing_flags_direct_children (fuel : nat) (protocol : value) (o : output) :
  generate fuel protocol = Ok o ->
  exists es,
    entries protocol = Ok es /\
    tracingSnapshots o = recorded "snapshot" es /\
    pausesBeforeInputActions o = recorded "pausesBeforeInput" es /\
    (forall flag s,
        In s (recorded flag es) <->
        exists C item m method,
          In (C, item) es /\ isChannel item = true /\
          In (m, method) (commandsOf item) /\ carries method flag = true /\
          (s = C ++ "." ++ m \/ exists D, In D (directChildren es C) /\ s = D ++ "." ++ m)) /\
    (forall C D, In D (directChildren es C) <->
                 exists item, In (D, item) es /\ isChannel item = true /\
                              truthy (field item "extends") = true /\
                              field item "extends" = VStr C).
Proof.
  unfold generate. intros H.
  apply bind_Ok in H. destruct H as (es & Hes & H).
  apply bind_Ok in H. destruct H as (r & _ & H).
  apply bind_Ok in H. destruct H as (dc & Hdc & H).
  apply bind_Ok in H. destruct H as (o1 & H1 & H).
  apply bind_Ok in H. destruct H as (o2 & H2 & H).
  injection H as <-.
  apply emitTraits_only in H1. destruct H1 as (_ & T1 & T2 & _).
  cbn [initial tracingSnapshots pausesBeforeInputActions] in T1, T2.
  pose proof (derive_loop es [] dc Hdc) as Hd. cbn [derivedOf mapGet app] in Hd.
  exists es. split; [exact Hes|].
  pose proof (forEach_appends tracingSnapshots _ (emitEntity fuel r dc) es
                (fun e s s' _ He =>
                   proj1 (emitEntity_flags fuel r dc (fst e) (snd e) s s'
                            (eq_ind _ (fun e => emitEntity fuel r dc e s = Ok s') He _
                                    (surjective_pairing e)))) _ _ H2) as S1.
  pose proof (forEach_appends pausesBeforeInputActions _ (emitEntity fuel r dc) es
                (fun e s s' _ He =>
                   proj2 (emitEntity_flags fuel r dc (fst e) (snd e) s s'
                            (eq_ind _ (fun e => emitEntity fuel r dc e s = Ok s') He _
                                    (surjective_pairing e)))) _ _ H2) as S2.
  rewrite T1 in S1. rewrite T2 in S2. cbn [app] in S1, S2.
  cbn [finish emit tracingSnapshots pausesBeforeInputActions].
  split; [rewrite S1; now apply recorded_flat_map|].
  split; [rewrite S2; now apply recorded_flat_map|].
  split; [intros flag s; apply recorded_In|].
  intros C D. unfold directChildren. rewrite in_map_iff. split.
  - intros ([D' item] & <- & Hin). apply filter_In in Hin. destruct Hin as [Hin Hx].
    unfold extendsChannel in Hx. cbn [snd] in Hx.
    apply andb_prop in Hx. destruct Hx as [Hx Hs]. apply andb_prop in Hx.
    destruct Hx as [Hc Ht]. apply isStr_eq in Hs. exists item. auto.
  - intros (item & Hin & Hc & Ht & He). exists (D, item). split; [reflexivity|].
    apply filter_In. split; [exact Hin|].
    unfold extendsChannel. cbn [snd]. rewrite Hc, Ht, He. cbn. now rewrite String.eqb_refl.
Qed.

(** C3 on the three levels of inheritance: the flag on [A.m] is recorded
    for [A] and for its child [B], not for the grandchild [G]. *)
Lemma tracing_flags_direct_children_chain :
  match result (generate 10 chain) with
  | Some o => tracingSnapshots o = ["A.m"; "B.m"] /\ pausesBeforeInputActions o = []
  | None => False
  end.
Proof.
  destruct (generate 10 chain) as [o|e|] eqn:G;
    [| vm_compute in G; discriminate G | vm_compute in G; discriminate G].
  destruct (tracing_flags_direct_children 10 chain o G) as (es & Hes & H1 & H2 & _).
  injection Hes as <-. cbn [result]. split; [exact H1 | exact H2].
Defined.

(** ** The entries of the validator registry *)

Lemma mapSet_In_str {V : Type} (s : string) (v : V) (m : list (value * V)) :
  In (VStr s, v) (mapSet (VStr s) v m).
Proof.
  induction m as [|[k1 v1] m IH]; cbn [mapSet]; [now left|].
  destruct (sameValueZero (VStr s) k1) eqn:E.
  - apply sameValueZero_eq in E. subst k1. now left.
  - now right.
Qed.

Lemma mapSet_In_other {V : Type} (k k' : value) (v v' : V) (m : list (value * V)) :
  In (k, v) m -> sameValueZero k' k = false -> In (k, v) (mapSet k' v' m).
Proof.
  intros Hin Hne. induction m as [|[k1 v1] m IH]; [easy|].
  cbn [mapSet]. destruct (sameValueZero k' k1) eqn:E.
  - destruct Hin as [Hin|Hin]; [|now right].
    injection Hin as -> ->. congruence.
  - destruct Hin as [Hin|Hin]; [now left | right; auto].
Qed.

Lemma register_inherits_keep (name : string) (item : value) (r r' : registries)
    (B : string) (parent : value) :
  register (name, item) r = Ok r' -> name <> B ->
  In (VStr B, parent) (inherits r) -> In (VStr B, parent) (inherits r').
Proof.
  unfold register. intros H Hne Hin.
  apply bind_Ok in H. destruct H as (type & _ & H).
  apply bind_Ok in H. destruct H as (r1 & H1 & H).
  assert (In (VStr B, parent) (inherits r1)) as Hin1.
  { destruct (isStr type "interface"); [|now injection H1 as <-].
    apply bind_Ok in H1. destruct H1 as (ext & _ & H1). injection H1 as <-.
    cbn [inherits]. destruct (truthy ext); [|exact Hin].
    apply mapSet_In_other; [exact Hin|]. cbn. now apply String.eqb_neq. }
  injection H as <-. now destruct (isStr type "mixin").
Qed.

Lemma register_inherits_add (B : string) (item : value) (r r' : registries) (A : string) :
  register (B, item) r = Ok r' -> extendsChannel item A = true ->
  In (VStr B, VStr A) (inherits r').
Proof.
  unfold register, extendsChannel, isChannel. intros H Hx.
  apply andb_prop in Hx. destruct Hx as [Hx Hs]. apply andb_prop in Hx.
  destruct Hx as [Hc Ht]. apply isStr_eq in Hs.
  apply bind_Ok in H. destruct H as (type & Htype & H).
  apply get_field in Htype. rewrite Htype in Hc. rewrite Hc in H.
  apply bind_Ok in H. destruct H as (r1 & H1 & H).
  apply bind_Ok in H1. destruct H1 as (ext & Hext & H1). apply get_field in Hext.
  rewrite Hext in Ht, Hs. rewrite Ht in H1. subst ext. injection H1 as <-.
  injection H as <-.
  assert (In (VStr B, VStr A) (mapSet (VStr B) (VStr A) (inherits r)))
    by apply mapSet_In_str.
  destruct (isStr type "mixin"); cbn [inherits]; rewrite Hs; assumption.
Qed.

Lemma register_loop_inherits (es : list (string * value)) (r r' : registries)
    (B : string) (item : value) (A : string) :
  forEach register es r = Ok r' -> NoDup (map fst es) ->
  In (B, item) es -> extendsChannel item A = true ->
  In (VStr B, VStr A) (inherits r').
Proof.
  intros H Hnd Hin Hx.
  destruct (in_split _ _ Hin) as (pre & post & ->).
  rewrite forEach_app in H. apply bind_Ok in H. destruct H as (r1 & _ & H).
  cbn [forEach] in H. apply bind_Ok in H. destruct H as (r2 & H2 & H).
  pose proof (register_inherits_add B item r1 r2 A H2 Hx) as Hin2.
  rewrite map_app in Hnd. apply NoDup_remove_2 in Hnd. cbn [map fst] in Hnd.
  assert (Hpost : forall e, In e post -> fst e <> B).
  { intros e He Heq. apply Hnd. apply in_or_app. right. rewrite <- Heq. now apply in_map. }
  clear - H Hin2 Hpost. revert r2 H Hin2.
  induction post as [|[name it] post IH]; intros r2 H Hin2; cbn in H.
  - now injection H as <-.
  - apply bind_Ok in H. destruct H as (r3 & H3 & H).
    apply (IH (fun e He => Hpost e (or_intror He)) r3 H).
    apply (register_inherits_keep name it r2 r3 B (VStr A) H3); [|exact Hin2].
    apply (Hpost (name, it)). now left.
Qed.

Lemma addAliases_In r channelName methodName paramsName o o' key parent t :
  addAliases r channelName methodName paramsName o = Ok o' ->
  titleCase methodName = Ok t ->
  In (key, parent) (inherits r) -> isStr parent channelName = true ->
  In (toString key ++ t ++ "Params", "tType('" ++ paramsName ++ "')") (assignments o').
Proof.
  unfold addAliases. intros H Ht Hin Hp.
  destruct (forEach_In grows _ grows_refl grows_trans (inherits r)
              (fun x s s' _ Hb =>
                 addAliases_grows_step channelName methodName paramsName x s s' Hb)
              o o' (key, parent) H Hin) as (s1 & s2 & _ & Hb & G).
  cbn beta iota in Hb. rewrite Hp, Ht in Hb. cbn [bind] in Hb. injection Hb as <-.
  apply (pushed_In _ _ _ (grows_assignments _ _ G)).
  cbn [addScheme assignments]. apply in_or_app. right. now left.
Qed.

Lemma grows_finish (o : output) : grows o (finish o).
Proof. split; cbn; try apply pushed_refl. apply pushed_app. Qed.

(** In a run that returns, every command of every channel has been
    emitted, and what was pushed then is in the output. *)
Lemma generate_command fuel protocol o es A itemA m method :
  generate fuel protocol = Ok o -> entries protocol = Ok es ->
  In (A, itemA) es -> isChannel itemA = true -> In (m, method) (commandsOf itemA) ->
  exists r dc st st',
    forEach register es {| channels := []; inherits := []; mixins := [] |} = Ok r /\
    emitCommand fuel r dc A (m, method) st = Ok st' /\
    grows (snd st') o.
Proof.
  unfold generate. intros H Hes HA Hc Hm. rewrite Hes in H. cbn [bind] in H.
  apply bind_Ok in H. destruct H as (r & Hr & H).
  apply bind_Ok in H. destruct H as (dc & _ & H).
  apply bind_Ok in H. destruct H as (o1 & _ & H).
  apply bind_Ok in H. destruct H as (o2 & H2 & H).
  injection H as <-.
  destruct (forEach_In grows _ grows_refl grows_trans es
              (fun x s s' _ Hb => emitEntity_grows fuel r dc x s s' Hb)
              o1 o2 (A, itemA) H2 HA) as (s1 & s2 & _ & Hb & G2).
  unfold emitEntity in Hb. apply bind_Ok in Hb. destruct Hb as (type & Ht & Hb).
  apply get_field in Ht. unfold isChannel in Hc. rewrite Ht in Hc. rewrite Hc in Hb.
  apply emitInterface_Ok in Hb.
  destruct Hb as (init & events & ts_types & eventTypes & o3 & ts_types' & o4
                  & _ & _ & _ & Hloop & G4 & _).
  destruct (forEach_In (fun s s' => grows (snd s) (snd s')) _
              (fun s => grows_refl (snd s))
              (fun s1 s2 s3 => grows_trans (snd s1) (snd s2) (snd s3))
              (commandsOf itemA)
              (fun x s s' _ Hb => emitCommand_grows fuel r dc A x s s' Hb)
              _ _ (m, method) Hloop Hm) as (st & st' & _ & Hcmd & G).
  cbn [snd] in G.
  exists r, dc, st, st'. split; [exact Hr|]. split; [exact Hcmd|].
  eapply grows_trans; [exact G|]. eapply grows_trans; [exact G4|].
  eapply grows_trans; [exact G2|].
  eapply grows_trans; [|apply grows_finish]. grows_chain.
Qed.

Lemma registered_last (before after : list (string * string)) (name s : string) :
  ~ In name (map fst after) ->
  registered (before ++ (name, s) :: after)%list name = Some s.
Proof.
  intros Hn. unfold registered. rewrite rev_app_distr. cbn [rev].
  rewrite <- app_assoc. cbn [app].
  assert (F : forall (l rest : list (string * string)),
             ~ In name (map fst l) ->
             find (fun a => fst a =? name) (l ++ rest)%list
             = find (fun a => fst a =? name) rest).
  { induction l as [|[n x] l IH]; intros rest Hl; [reflexivity|].
    cbn [app find fst]. destruct (n =? name) eqn:E.
    - apply String.eqb_eq in E. subst n. exfalso. apply Hl. now left.
    - apply IH. intros Hin. apply Hl. now right. }
  rewrite F.
  - cbn [find fst]. now rewrite String.eqb_refl.
  - rewrite map_rev. intros Hin. apply in_rev in Hin. contradiction.
Qed.

(** C4, as stated, fails: when [B], declared after [A], declares the
    command [foo] itself, the entry [BFooParams] the registry ends with
    is the validator of the parameters of [B], not the lookup of
    [AFooParams]. *)
Lemma alias_counterexample :
  match result (generate 10 overriding) with
  | Some o =>
    assignments o
    = [("AFooParams", "tObject({
  x: tString,
})");
       ("BFooParams", "tType('AFooParams')");
       ("BFooParams", "tObject({
  y: tNumber,
})")] /\
    registered (assignments o) "BFooParams" = Some "tObject({
  y: tNumber,
})"
  | None => False
  end.
Proof. vm_compute. split; reflexivity. Qed.

(** C4, amended. For every channel [B] declared with [extends A] and every
    command [m] of the channel [A], the generator registers an entry named
    [B + TitleCase(m) + 'Params'] that is the lookup
    [tType('A + TitleCase(m) + Params')]; the registry ends with it unless
    a later assignment has the same name; and [tType] of a name applies the
    validator the registry holds for that name. *)
Theorem inherited_command_alias fuel protocol o es A itemA B itemB m method :
  generate fuel protocol = Ok o -> entries protocol = Ok es -> NoDup (map fst es) ->
  In (A, itemA) es -> isChannel itemA = true -> In (m, method) (commandsOf itemA) ->
  In (B, itemB) es -> extendsChannel itemB A = true ->
  exists t before after,
    titleCase m = Ok t /\
    assignments o
    = app before ((B ++ t ++ "Params", "tType('" ++ (A ++ t ++ "Params") ++ "')") :: after) /\
    (~ In (B ++ t ++ "Params") (map fst after) ->
     registered (assignments o) (B ++ t ++ "Params")
     = Some ("tType('" ++ (A ++ t ++ "Params") ++ "')")) /\
    (forall (scheme : string -> option validator) v,
        scheme (A ++ t ++ "Params") = Some v ->
        forall arg path, tType scheme (A ++ t ++ "Params") arg path = v arg path).
Proof.
  intros H Hes Hnd HA Hc Hm HB Hx.
  destruct (generate_command fuel protocol o es A itemA m method H Hes HA Hc Hm)
    as (r & dc & [ts_types s] & st' & Hr & Hcmd & G).
  apply emitCommand_Ok in Hcmd. cbv zeta in Hcmd.
  destruct Hcmd as (t & parameters & options & returns & o' & Ht & _ & _ & _ & Ha & ->).
  pose proof (register_loop_inherits es _ r B itemB A Hr Hnd HB Hx) as Hin.
  pose proof (addAliases_In r A m (A ++ t ++ "Params") _ o' (VStr B) (VStr A) t
                Ha Ht Hin) as Halias.
  cbn [isStr toString] in Halias. rewrite String.eqb_refl in Halias.
  specialize (Halias eq_refl).
  cbn [snd] in G.
  assert (In (B ++ t ++ "Params", "tType('" ++ (A ++ t ++ "Params") ++ "')") (assignments o))
    as Hin'.
  { apply (pushed_In _ _ _ (grows_assignments _ _ G)). exact Halias. }
  destruct (in_split _ _ Hin') as (before & after & Hsplit).
  exists t, before, after. split; [exact Ht|]. split; [exact Hsplit|]. split.
  - intros Hafter. rewrite Hsplit. now apply registered_last.
  - intros scheme v Hv arg path. unfold tType. now rewrite Hv.
Qed.

(** C4, amended, on the sample document: [B] extends [A] and [A] declares
    [foo]. *)
Lemma inherited_command_alias_sample :
  match result (generate 10 sample) with
  | Some o =>
    exists t before after,
      titleCase "foo" = Ok t /\
      assignments o
      = app before (("B" ++ t ++ "Params", "tType('" ++ ("A" ++ t ++ "Params") ++ "')") :: after) /\
      (~ In ("B" ++ t ++ "Params") (map fst after) ->
       registered (assignments o) ("B" ++ t ++ "Params")
       = Some ("tType('" ++ ("A" ++ t ++ "Params") ++ "')")) /\
      (forall (scheme : string -> option validator) v,
          scheme ("A" ++ t ++ "Params") = Some v ->
          forall arg path, tType scheme ("A" ++ t ++ "Params") arg path = v arg path)
  | None => False
  end.
Proof.
  destruct (generate 10 sample) as [o|e|] eqn:G;
    [| vm_compute in G; discriminate G | vm_compute in G; discriminate G].
  cbn [result].
  eapply (inherited_command_alias 10 sample o _ "A" _ "B" _ "foo" _ G).
  - reflexivity.
  - cbn. repeat constructor; cbn; intuition discriminate.
  - cbn. right. right. right. left. reflexivity.
  - reflexivity.
  - cbn. left. reflexivity.
  - cbn. right. right. right. right. left. reflexivity.
  - reflexivity.
Defined.

(** ** The text of [validator.ts] is the text of the assignments *)

Lemma linked_only (o o' : output) : emitsOnly o o' -> linked o -> linked o'.
Proof. unfold linked. intros (-> & _ & _ & ->). auto. Qed.

Lemma linked_addScheme (name s : string) (o : output) :
  linked o -> linked (addScheme name s o).
Proof.
  unfold linked. cbn [addScheme validator_ts assignments]. intros ->.
  unfold push. rewrite flat_map_app. cbn [flat_map fst snd]. now rewrite app_nil_r.
Qed.

Lemma addAliases_linked r channelName methodName paramsName o o' :
  addAliases r channelName methodName paramsName o = Ok o' -> linked o -> linked o'.
Proof.
  unfold addAliases.
  apply (forEach_preorder (fun s s' => linked s -> linked s')); [auto | auto |].
  intros [key parent] s s' _ H.
  destruct (isStr parent channelName).
  - apply bind_Ok in H. destruct H as (t & _ & H). injection H as <-.
    apply linked_addScheme.
  - now injection H as <-.
Qed.

Lemma emitEvent_linked fuel r channelName entry st st' :
  emitEvent fuel r channelName entry st = Ok st' -> linked (snd st) -> linked (snd st').
Proof.
  destruct entry as [eventName event], st as [[ts_types eventTypes] o].
  unfold emitEvent. intros H.
  apply bind_Ok in H. destruct H as (p & _ & H).
  apply bind_Ok in H. destruct H as (parameters & _ & H).
  apply bind_Ok in H. destruct H as (t & _ & H).
  injection H as <-. cbn [snd]. apply linked_only, emitsOnly_emit.
Qed.

Lemma emitCommand_linked fuel r dc name entry st st' :
  emitCommand fuel r dc name entry st = Ok st' -> linked (snd st) -> linked (snd st').
Proof.
  destruct entry as [m method], st as [ts_types o]. intros H L.
  apply emitCommand_Ok in H. cbv zeta in H.
  destruct H as (t & parameters & options & returns & o' & _ & _ & _ & _ & Ha & ->).
  cbn [snd] in *. apply (linked_only o'); [apply emitsOnly_emit|].
  apply (addAliases_linked _ _ _ _ _ _ Ha). apply linked_addScheme.
  destruct (carries method "pausesBeforeInput"), (carries method "snapshot"); exact L.
Qed.

Lemma emitEntity_linked fuel r dc entry o o' :
  emitEntity fuel r dc entry o = Ok o' -> linked o -> linked o'.
Proof.
  destruct entry as [name item]. unfold emitEntity. intros H L.
  apply bind_Ok in H. destruct H as (type & _ & H).
  destruct (isStr type "interface").
  { apply emitInterface_Ok in H.
    destruct H as (init & events & ts_types & eventTypes & o1 & ts_types' & o2
                   & _ & _ & H1 & H2 & _ & E).
    apply (linked_only o2 o' E).
    pose proof (forEach_preorder (fun s s' => linked (snd s) -> linked (snd s'))
                  (emitEvent fuel r name) (fun s L => L)
                  (fun s1 s2 s3 L12 L23 L => L23 (L12 L)) _
                  (fun x s s' _ Hb => emitEvent_linked _ _ _ _ _ _ Hb) _ _ H1) as L1.
    pose proof (forEach_preorder (fun s s' => linked (snd s) -> linked (snd s'))
                  (emitCommand fuel r dc name) (fun s L => L)
                  (fun s1 s2 s3 L12 L23 L => L23 (L12 L)) _
                  (fun x s s' _ Hb => emitCommand_linked _ _ _ _ _ _ _ Hb) _ _ H2) as L2.
    cbn [snd] in L1, L2. apply L2.
    repeat apply (fun l o => linked_only o (emit l o) (emitsOnly_emit l o)).
    apply L1.
    repeat apply (fun l o => linked_only o (emit l o) (emitsOnly_emit l o)).
    exact L. }
  destruct (isStr type "object").
  { apply bind_Ok in H. destruct H as (props & _ & H).
    apply bind_Ok in H. destruct H as (inner & _ & H).
    injection H as <-. apply linked_addScheme. exact L. }
  destruct (isStr type "enum").
  { apply bind_Ok in H. destruct H as (literals & _ & H).
    destruct literals; try discriminate. injection H as <-.
    apply linked_addScheme. exact L. }
  now injection H as <-.
Qed.

(** [validator.ts] is its header, the text of the assignments in order,
    and the end of [createScheme]. *)
Lemma validator_ts_assignments (fuel : nat) (protocol : value) (o : output) :
  generate fuel protocol = Ok o ->
  validator_ts o
  = validatorHeader
    :: push (flat_map (fun a => schemeLines (fst a) (snd a)) (assignments o))
            (nl ++ "  return scheme;" ++ nl ++ "}" ++ nl).
Proof.
  unfold generate. intros H.
  apply bind_Ok in H. destruct H as (es & _ & H).
  apply bind_Ok in H. destruct H as (r & _ & H).
  apply bind_Ok in H. destruct H as (dc & _ & H).
  apply bind_Ok in H. destruct H as (o1 & H1 & H).
  apply bind_Ok in H. destruct H as (o2 & H2 & H).
  injection H as <-.
  apply emitTraits_only in H1.
  assert (L1 : linked o1) by (apply (linked_only initial o1 H1); reflexivity).
  pose proof (forEach_preorder (fun s s' => linked s -> linked s')
                (emitEntity fuel r dc) (fun s L => L)
                (fun s1 s2 s3 L12 L23 L => L23 (L12 L)) _
                (fun x s s' _ Hb => emitEntity_linked _ _ _ _ _ _ Hb) _ _ H2 L1) as L2.
  unfold linked in L2. rename L2 into H2'.
  cbn [finish emit validator_ts assignments]. unfold push. now rewrite H2'.
Qed.

(** ** A deeper stack changes no result *)

Lemma settles_Ok {A : Type} (c : outcome A) (a : A) : c = Ok a -> settles c = true.
Proof. now intros ->. Qed.

Lemma settles_bind {A B : Type} (c : outcome A) (k : A -> outcome B) :
  settles (bind c k) = true -> settles c = true.
Proof. now destruct c. Qed.

Lemma bind_same {A B : Type} (c c' : outcome A) (k k' : A -> outcome B) :
  settles (bind c k) = true ->
  (settles c = true -> c' = c) ->
  (forall a, c = Ok a -> settles (k a) = true -> k' a = k a) ->
  bind c' k' = bind c k.
Proof.
  intros S Hc Hk. rewrite (Hc (settles_bind c k S)).
  destruct c as [a|e|]; cbn in *; auto; discriminate.
Qed.

Lemma forEach_same {A S : Type} (f g : A -> S -> outcome S) (l : list A) (s : S) :
  (forall x s, settles (f x s) = true -> g x s = f x s) ->
  settles (forEach f l s) = true -> forEach g l s = forEach f l s.
Proof.
  intros Hfg. revert s. induction l as [|x l IH]; intros s H; cbn in *; [reflexivity|].
  apply bind_same; auto.
Qed.

Section Fuel.

Variable channels : list string.
Variable mixins : list (value * value).

Lemma fuel_step (n : nat) :
  (forall type indent w,
      settles (inlineType channels mixins n type indent w) = true ->
      inlineType channels mixins (S n) type indent w
      = inlineType channels mixins n type indent w) /\
  (forall props indent oo,
      settles (properties channels mixins n props indent oo) = true ->
      properties channels mixins (S n) props indent oo
      = properties channels mixins n props indent oo) /\
  (forall props indent oo acc,
      settles (visitProperties channels mixins n props indent oo acc) = true ->
      visitProperties channels mixins (S n) props indent oo acc
      = visitProperties channels mixins n props indent oo acc).
Proof.
  induction n as [|n (IHi & IHp & IHv)]; [repeat split; intros; discriminate|].
  split; [|split].
  - intros type indent w H.
    change (inlineType channels mixins (S (S n)) type indent w)
      with (match type with
            | VStr s => inlineString channels s
            | _ =>
              tag <- get type "type" ;;
              match tag with
              | VStr tag =>
                if startsWith tag "array" then
                  let optional := endsWith tag "?" in
                  items <- get type "items" ;;
                  inner <- inlineType channels mixins (S n) items indent true ;;
                  Ok {| ts := ts inner ++ "[]"; scheme := "tArray(" ++ scheme inner ++ ")";
                        optional := optional |}
                else if startsWith tag "enum" then
                  let optional := endsWith tag "?" in
                  literals <- get type "literals" ;;
                  match literals with
                  | VArr literals =>
                    let union := join " | " (map quoted literals) in
                    Ok {| ts := if w then "(" ++ union ++ ")" else union;
                          scheme := "tEnum([" ++ join ", " (map quoted literals) ++ "])";
                          optional := optional |}
                  | _ => Throw TypeError
                  end
                else if startsWith tag "object" then
                  let optional := endsWith tag "?" in
                  props <- get type "properties" ;;
                  inner <- properties channels mixins (S n) props (indent ++ "  ") false ;;
                  Ok {| ts := "{" ++ nl ++ ts_lines inner ++ nl ++ indent ++ "}";
                        scheme := "tObject({" ++ nl ++ scheme_lines inner ++ nl ++ indent ++ "})";
                        optional := optional |}
                else raise type
              | _ => Throw TypeError
              end
            end).
    cbn [inlineType] in H |- *.
    destruct type; try reflexivity;
      (apply bind_same; [exact H | reflexivity |]);
      intros tag _ Ht; destruct tag; try reflexivity;
      destruct (startsWith s "array");
      try (cbv zeta in Ht |- *; apply bind_same; [exact Ht | reflexivity |];
           intros items _ Hi; apply bind_same; [exact Hi | apply IHi | reflexivity]);
      destruct (startsWith s "enum"); try reflexivity;
      destruct (startsWith s "object"); try reflexivity;
      cbv zeta in Ht |- *; (apply bind_same; [exact Ht | reflexivity |]);
      intros props _ Hp; apply bind_same; [exact Hp | apply IHp | reflexivity].
  - intros props indent oo H. cbn [properties] in H |- *.
    apply bind_same; [exact H | apply IHv | reflexivity].
  - intros props indent oo acc H. cbn [visitProperties] in H |- *.
    apply bind_same; [exact H | reflexivity |].
    intros es _ He. apply forEach_same; [|exact He].
    intros [name v] s Hs. destruct (startsWith name "$mixin").
    + destruct (mapGet v mixins); [|reflexivity].
      apply bind_same; [exact Hs | reflexivity |]. intros p _. apply IHv.
    + apply bind_same; [exact Hs | apply IHi | reflexivity].
Qed.

Lemma inlineType_more (n m : nat) type indent w :
  n <= m -> settles (inlineType channels mixins n type indent w) = true ->
  inlineType channels mixins m type indent w = inlineType channels mixins n type indent w.
Proof.
  intros Hle H. induction Hle as [|m Hle IH]; [reflexivity|].
  rewrite <- IH. apply (proj1 (fuel_step m)). now rewrite IH.
Qed.

Lemma properties_more (n m : nat) props indent oo :
  n <= m -> settles (properties channels mixins n props indent oo) = true ->
  properties channels mixins m props indent oo = properties channels mixins n props indent oo.
Proof.
  intros Hle H. induction Hle as [|m Hle IH]; [reflexivity|].
  rewrite <- IH. apply (proj1 (proj2 (fuel_step m))). now rewrite IH.
Qed.

Lemma visitProperties_more (n m : nat) props indent oo acc :
  n <= m -> settles (visitProperties channels mixins n props indent oo acc) = true ->
  visitProperties channels mixins m props indent oo acc
  = visitProperties channels mixins n props indent oo acc.
Proof.
  intros Hle H. induction Hle as [|m Hle IH]; [reflexivity|].
  rewrite <- IH. apply (proj2 (proj2 (fuel_step m))). now rewrite IH.
Qed.

End Fuel.

(** ** Visiting a property list is expanding it, then resolving it *)

Section Visit.

Variable channels : list string.
Variable mixins : list (value * value).

Lemma expandMixins_S (n : nat) (props : value) :
  expandMixins mixins (S n) props
  = (es <- entries props ;; expandEach mixins (expandMixins mixins n) es).
Proof. reflexivity. Qed.

Lemma expandMixins_more (n : nat) :
  forall props flat,
    expandMixins mixins n props = Ok flat -> expandMixins mixins (S n) props = Ok flat.
Proof.
  induction n as [|n IH]; intros props flat H; [discriminate|].
  rewrite expandMixins_S in H. rewrite (expandMixins_S (S n)).
  apply bind_Ok in H. destruct H as (es & He & H). rewrite He. cbn [bind].
  clear He. revert flat H. induction es as [|[name v] es IHes]; intros flat H; [exact H|].
  cbn [expandEach] in H |- *.
  apply bind_Ok in H. destruct H as (here & Hh & H).
  apply bind_Ok in H. destruct H as (there & Ht & H). injection H as <-.
  rewrite (IHes there Ht). cbn [fst snd] in Hh |- *.
  destruct (startsWith name "$mixin").
  - destruct (mapGet v mixins) as [m|]; [|discriminate].
    apply bind_Ok in Hh. destruct Hh as (p & Hp & Hh). rewrite Hp. cbn [bind].
    now rewrite (IH p here Hh).
  - now rewrite Hh.
Qed.

Lemma resolveEach_more (n m : nat) indent flat rs :
  n <= m -> resolveEach channels mixins n indent flat = Ok rs ->
  resolveEach channels mixins m indent flat = Ok rs.
Proof.
  intros Hle. revert rs. induction flat as [|e flat IH]; intros rs H; [exact H|].
  cbn [resolveEach] in H |- *.
  apply bind_Ok in H. destruct H as (inner & Hi & H).
  apply bind_Ok in H. destruct H as (rs' & Hr & H). injection H as <-.
  assert (Hm : inlineType channels mixins m (snd e) indent false = Ok inner).
  { rewrite <- Hi. apply inlineType_more; [exact Hle|]. now rewrite Hi. }
  rewrite Hm. cbn [bind]. now rewrite (IH rs' Hr).
Qed.

Lemma resolveEach_app (n : nat) indent flat1 flat2 rs1 rs2 :
  resolveEach channels mixins n indent flat1 = Ok rs1 ->
  resolveEach channels mixins n indent flat2 = Ok rs2 ->
  resolveEach channels mixins n indent (flat1 ++ flat2)%list = Ok (rs1 ++ rs2)%list.
Proof.
  revert rs1. induction flat1 as [|e flat1 IH]; intros rs1 H1 H2.
  - now injection H1 as <-.
  - cbn [resolveEach app] in H1 |- *.
    apply bind_Ok in H1. destruct H1 as (inner & Hi & H1).
    apply bind_Ok in H1. destruct H1 as (rs' & Hr & H1). injection H1 as <-.
    rewrite Hi. cbn [bind]. now rewrite (IH rs' Hr H2).
Qed.

Lemma visited_nil indent oo acc : visited indent oo [] acc = acc.
Proof. destruct acc. unfold visited. cbn. now rewrite !app_nil_r. Qed.

Lemma visited_app indent oo rs1 rs2 acc :
  visited indent oo (rs1 ++ rs2)%list acc = visited indent oo rs2 (visited indent oo rs1 acc).
Proof.
  unfold visited, kept. cbn [fst snd]. now rewrite filter_app, !map_app, !app_assoc.
Qed.

Lemma pushProperty_visited indent name oo inner acc :
  pushProperty indent name oo inner acc = visited indent oo [(name, inner)] acc.
Proof.
  destruct acc as [tsAcc schemeAcc].
  unfold pushProperty, visited, kept, tsLine, schemeLine, push.
  cbv zeta. cbn [filter fst snd].
  destruct oo, (optional inner) eqn:E; cbn [andb negb orb map filter fst snd];
    rewrite ?E, ?app_nil_r; reflexivity.
Qed.

Lemma visit_expand (n : nat) :
  forall props indent oo acc acc',
    visitProperties channels mixins n props indent oo acc = Ok acc' ->
    exists flat rs,
      expandMixins mixins n props = Ok flat /\
      Forall (fun e => startsWith (fst e) "$mixin" = false) flat /\
      resolveEach channels mixins n indent flat = Ok rs /\
      map fst rs = map fst flat /\
      acc' = visited indent oo rs acc.
Proof.
  induction n as [|n IH]; intros props indent oo acc acc' H; [discriminate|].
  cbn [visitProperties] in H. rewrite expandMixins_S.
  apply bind_Ok in H. destruct H as (es & He & H). rewrite He. cbn [bind].
  clear He. revert acc H. induction es as [|[name v] es IHes]; intros acc H.
  - injection H as <-. exists [], []. now rewrite visited_nil.
  - cbn [forEach] in H. apply bind_Ok in H. destruct H as (acc1 & H1 & H).
    destruct (IHes acc1 H) as (flat2 & rs2 & E2 & F2 & R2 & N2 & ->).
    cbn [expandEach]. rewrite E2. cbn [fst snd]. destruct (startsWith name "$mixin") eqn:Hmix.
    + destruct (mapGet v mixins) as [m|]; [|discriminate].
      apply bind_Ok in H1. destruct H1 as (p & Hp & H1). rewrite Hp. cbn [bind].
      destruct (IH p indent oo acc acc1 H1) as (flat1 & rs1 & E1 & F1 & R1 & N1 & ->).
      rewrite E1. cbn [bind].
      exists (flat1 ++ flat2)%list, (rs1 ++ rs2)%list.
      split; [reflexivity|]. split; [now apply Forall_app|].
      split; [apply resolveEach_app;
              [apply (resolveEach_more n (S n)); [lia | exact R1] | exact R2]|].
      split; [now rewrite !map_app, N1, N2|].
      now rewrite visited_app.
    + apply bind_Ok in H1. destruct H1 as (inner & Hi & H1). injection H1 as <-.
      change (inlineType channels mixins n v indent false = Ok inner) in Hi.
      cbn [bind app].
      exists ((name, v) :: flat2), ((name, inner) :: rs2).
      split; [reflexivity|]. split; [now constructor|].
      split.
      { assert (Hm : inlineType channels mixins (S n) v indent false = Ok inner).
        { rewrite <- Hi. apply inlineType_more; [lia|]. now rewrite Hi. }
        cbn [resolveEach snd fst]. rewrite Hm. cbn [bind]. now rewrite R2. }
      split; [cbn; now rewrite N2|].
      rewrite pushProperty_visited.
      change ((name, inner) :: rs2) with ([(name, inner)] ++ rs2)%list.
      now rewrite visited_app.
Qed.

(** The projection returns whenever the full resolution does. *)
Lemma visit_both (n : nat) :
  forall props indent acc acc',
    visitProperties channels mixins n props indent false acc = Ok acc' ->
    forall acc2, exists acc2',
      visitProperties channels mixins n props indent true acc2 = Ok acc2'.
Proof.
  induction n as [|n IH]; intros props indent acc acc' H acc2; [discriminate|].
  cbn [visitProperties] in H |- *.
  apply bind_Ok in H. destruct H as (es & He & H). rewrite He. cbn [bind].
  clear He. revert acc acc2 H. induction es as [|[name v] es IHes]; intros acc acc2 H.
  - eexists. reflexivity.
  - cbn [forEach] in H |- *. apply bind_Ok in H. destruct H as (acc1 & H1 & H).
    destruct (startsWith name "$mixin").
    + destruct (mapGet v mixins) as [m|]; [|discriminate].
      apply bind_Ok in H1. destruct H1 as (p & Hp & H1). rewrite Hp. cbn [bind].
      destruct (IH p indent acc acc1 H1 acc2) as (acc2' & ->). cbn [bind].
      apply (IHes acc1 acc2' H).
    + apply bind_Ok in H1. destruct H1 as (inner & Hi & H1). rewrite Hi. cbn [bind].
      apply (IHes acc1 _ H).
Qed.

End Visit.

(** ** The Options projection *)

Lemma kept_all (rs : list (string * resolved)) : kept false rs = rs.
Proof.
  unfold kept. cbn [negb orb]. induction rs as [|r rs IH]; [reflexivity|].
  cbn [filter]. now rewrite IH.
Qed.

Lemma kept_optional (rs : list (string * resolved)) :
  kept true rs = filter (fun r => optional (snd r)) rs.
Proof. reflexivity. Qed.

Lemma properties_S channels mixins n props indent oo :
  properties channels mixins (S n) props indent oo
  = (acc <- visitProperties channels mixins n props indent oo ([], []) ;;
     Ok {| ts_lines := join nl (fst acc); scheme_lines := join nl (snd acc) |}).
Proof. reflexivity. Qed.

Lemma properties_expand channels mixins fuel props indent oo inner :
  properties channels mixins fuel props indent oo = Ok inner ->
  exists flat rs,
    expandMixins mixins fuel props = Ok flat /\
    Forall (fun e => startsWith (fst e) "$mixin" = false) flat /\
    resolveEach channels mixins fuel indent flat = Ok rs /\
    map fst rs = map fst flat /\
    inner = {| ts_lines := join nl (map (tsLine indent) (kept oo rs));
               scheme_lines := join nl (map (schemeLine indent) (kept oo rs)) |}.
Proof.
  destruct fuel as [|n]; [discriminate|]. rewrite properties_S. intros H.
  apply bind_Ok in H. destruct H as (acc & Hv & H). injection H as <-.
  destruct (visit_expand channels mixins n props indent oo _ _ Hv)
    as (flat & rs & E & F & R & N & ->).
  exists flat, rs. split; [now apply expandMixins_more|]. split; [exact F|].
  split; [apply (resolveEach_more channels mixins n (S n)); [lia | exact R]|].
  split; [exact N|]. reflexivity.
Qed.

(** When [objectType] gives the type of a property list, it gives its
    projection on the optional entries too; the entries of the first are
    the entries of the expanded list, in order, and the entries of the
    second are those of them that are optional, in the same order and
    with the same lines. *)
Lemma objectType_projection channels mixins fuel props indent params :
  objectType channels mixins fuel props indent false = Ok params ->
  exists n flat rs options,
    expandMixins mixins n props = Ok flat /\
    resolveEach channels mixins n (indent ++ "  ") flat = Ok rs /\
    map fst rs = map fst flat /\
    objectType channels mixins fuel props indent true = Ok options /\
    ts_lines params = objectShape props indent (map (tsLine (indent ++ "  ")) rs) /\
    ts_lines options
    = objectShape props indent
        (map (tsLine (indent ++ "  ")) (filter (fun r => optional (snd r)) rs)) /\
    Forall (fun r => tsLine (indent ++ "  ") r
                     = (indent ++ "  ") ++ fst r ++ "?: " ++ ts (snd r) ++ ",")
           (filter (fun r => optional (snd r)) rs).
Proof.
  unfold objectType, objectShape. intros H.
  apply bind_Ok in H. destruct H as (es & He & H). rewrite He. cbn [bind].
  assert (Hopt : forall rs : list (string * resolved),
             Forall (fun r => tsLine (indent ++ "  ") r
                              = (indent ++ "  ") ++ fst r ++ "?: " ++ ts (snd r) ++ ",")
                    (filter (fun r => optional (snd r)) rs)).
  { intros rs. apply Forall_forall. intros r Hr. apply filter_In in Hr.
    destruct Hr as [_ Hr]. unfold tsLine. now rewrite Hr. }
  destruct es as [|e es].
  - injection H as <-. exists 1, [], [], {| ts_lines := "{}"; scheme_lines := "tObject({})" |}.
    cbn [expandMixins]. rewrite He. repeat split; auto.
  - apply bind_Ok in H. destruct H as (inner & Hp & H). injection H as <-.
    destruct (properties_expand _ _ _ _ _ _ _ Hp) as (flat & rs & E & _ & R & N & ->).
    destruct fuel as [|k]; [discriminate|]. rewrite properties_S in Hp.
    apply bind_Ok in Hp. destruct Hp as (acc & Hv & _).
    destruct (visit_both channels mixins k props (indent ++ "  ") _ _ Hv ([], []))
      as (acc2 & Hv2).
    assert (Hp2 : properties channels mixins (S k) props (indent ++ "  ") true
                  = Ok {| ts_lines := join nl (fst acc2); scheme_lines := join nl (snd acc2) |}).
    { rewrite properties_S. now rewrite Hv2. }
    destruct (properties_expand _ _ _ _ _ _ _ Hp2) as (flat' & rs' & E' & _ & R' & _ & Heq).
    rewrite E in E'. injection E' as <-. rewrite R in R'. injection R' as <-.
    rewrite Heq in Hp2. rewrite Hp2. cbn [bind].
    exists (S k), flat, rs. eexists.
    split; [exact E|]. split; [exact R|]. split; [exact N|].
    split; [reflexivity|].
    cbn [ts_lines]. rewrite kept_all, kept_optional.
    repeat split; auto.
Qed.

Example options_layered :
  result (objectType [] layered 10 layeredProps "" false)
  = Some {| ts_lines := "{
  selector: string,
  timeout?: number,
  strict?: boolean,
  force?: boolean,
}";
            scheme_lines := "tObject({
  selector: tString,
  timeout: tOptional(tNumber),
  strict: tOptional(tBoolean),
  force: tOptional(tBoolean),
})" |} /\
  result (objectType [] layered 10 layeredProps "" true)
  = Some {| ts_lines := "{
  timeout?: number,
  strict?: boolean,
  force?: boolean,
}";
            scheme_lines := "tObject({
  timeout: tOptional(tNumber),
  strict: tOptional(tBoolean),
  force: tOptional(tBoolean),
})" |}.
Proof. split; vm_compute; reflexivity. Qed.

(** ** Expansion returns when no mixin splices itself *)

Section Termination.

Variable channels : list string.
Variable mixins : list (value * value).

Lemma inlineType_S (n : nat) (type : value) (indent : string) (w : bool) :
  inlineType channels mixins (S n) type indent w
  = match type with
    | VStr s => inlineString channels s
    | _ =>
      tag <- get type "type" ;;
      match tag with
      | VStr tag =>
        if startsWith tag "array" then
          items <- get type "items" ;;
          inner <- inlineType channels mixins n items indent true ;;
          Ok {| ts := ts inner ++ "[]"; scheme := "tArray(" ++ scheme inner ++ ")";
                optional := endsWith tag "?" |}
        else if startsWith tag "enum" then
          literals <- get type "literals" ;;
          match literals with
          | VArr literals =>
            Ok {| ts := if w then "(" ++ join " | " (map quoted literals) ++ ")"
                        else join " | " (map quoted literals);
                  scheme := "tEnum([" ++ join ", " (map quoted literals) ++ "])";
                  optional := endsWith tag "?" |}
          | _ => Throw TypeError
          end
        else if startsWith tag "object" then
          props <- get type "properties" ;;
          inner <- properties channels mixins n props (indent ++ "  ") false ;;
          Ok {| ts := "{" ++ nl ++ ts_lines inner ++ nl ++ indent ++ "}";
                scheme := "tObject({" ++ nl ++ scheme_lines inner ++ nl ++ indent ++ "})";
                optional := endsWith tag "?" |}
        else raise type
      | _ => Throw TypeError
      end
    end.
Proof. destruct type; reflexivity. Qed.

Lemma visitProperties_S (n : nat) props indent oo acc :
  visitProperties channels mixins (S n) props indent oo acc
  = (es <- entries props ;; forEach (visitEntry channels mixins n indent oo) es acc).
Proof. reflexivity. Qed.

Lemma inlineString_settles (s : string) : settles (inlineString channels s) = true.
Proof.
  unfold inlineString.
  repeat match goal with
         | |- context [if ?b then _ else _] => destruct b
         end; try reflexivity;
    match goal with
    | |- context [titleCase ?x] => destruct x; reflexivity
    end.
Qed.

End Termination.

Lemma indexed_In {A : Type} (l : list A) (i : nat) (k : string) (x : A) :
  In (k, x) (indexed i l) -> In x l.
Proof.
  revert i. induction l as [|y l IH]; intros i Hin; [contradiction|].
  cbn [indexed] in Hin. destruct Hin as [Hin|Hin].
  - injection Hin as _ <-. now left.
  - right. exact (IH _ Hin).
Qed.

(** What a property list and a type expression splice, along the entries
    the resolver reads. *)
Lemma typeSplices_items (fields : list (string * value)) (tag : string) :
  lookup "type" fields = VStr tag -> startsWith tag "array" = true ->
  typeSplices (VObj fields) = typeSplices (lookup "items" fields).
Proof.
  intros Ht Ha. cbn [typeSplices]. rewrite Ht, Ha. clear.
  induction fields as [|[k x] fields IH]; [reflexivity|].
  cbn [lookup]. destruct ("items" =? k); [reflexivity | exact IH].
Qed.

Lemma typeSplices_properties (fields : list (string * value)) (tag : string) :
  lookup "type" fields = VStr tag -> startsWith tag "array" = false ->
  startsWith tag "enum" = false -> startsWith tag "object" = true ->
  typeSplices (VObj fields) = propsSplices (lookup "properties" fields).
Proof.
  intros Ht Ha He Ho. cbn [typeSplices]. rewrite Ht, Ha, He, Ho. clear.
  induction fields as [|[k x] fields IH]; [reflexivity|].
  cbn [lookup]. destruct ("properties" =? k); [reflexivity | exact IH].
Qed.

Lemma propsSplices_entries (v : value) (es : list (string * value)) (k : string) (x : value) :
  entries v = Ok es -> In (k, x) es ->
  if startsWith k "$mixin" then In x (propsSplices v)
  else incl (typeSplices x) (propsSplices v).
Proof.
  destruct v; cbn [entries]; intros He Hin; try discriminate; injection He as <-;
    try contradiction.
  - (* a string *)
    cbn [propsSplices].
    destruct (startsWith k "$mixin") eqn:Hk.
    + apply in_flat_map. exists (k, x). split; [exact Hin|]. cbn [fst snd].
      rewrite Hk. now left.
    + assert (exists c, x = VStr c) as [c ->].
      { apply indexed_In in Hin. unfold chars in Hin. apply in_map_iff in Hin.
        destruct Hin as (c & <- & _). eauto. }
      intros y Hy. contradiction.
  - (* an array *)
    cbn [propsSplices]. revert Hin. generalize 0.
    induction items as [|y items IH]; intros i Hin; [contradiction|].
    cbn [indexed] in Hin. destruct Hin as [Hin|Hin].
    + injection Hin as <- <-.
      destruct (startsWith (string_of_nat i) "$mixin").
      * apply in_or_app. left. now left.
      * intros z Hz. apply in_or_app. now left.
    + specialize (IH (S i) Hin).
      destruct (startsWith k "$mixin").
      * apply in_or_app. now right.
      * intros z Hz. apply in_or_app. right. now apply IH.
  - (* an object *)
    cbn [propsSplices].
    induction fields as [|[k' y] fields IH]; [contradiction|].
    destruct Hin as [Hin|Hin].
    + injection Hin as -> ->.
      destruct (startsWith k "$mixin").
      * apply in_or_app. left. now left.
      * intros z Hz. apply in_or_app. now left.
    + specialize (IH Hin).
      destruct (startsWith k "$mixin").
      * apply in_or_app. now right.
      * intros z Hz. apply in_or_app. right. now apply IH.
Qed.

Lemma vsize_lookup (k : string) (fields : list (string * value)) :
  vsize (lookup k fields) < vsize (VObj fields).
Proof.
  cbn [vsize]. apply Nat.lt_succ_r.
  induction fields as [|[k' x] fields IH]; cbn [lookup]; [apply Nat.le_0_l|].
  destruct (k =? k'); [apply Nat.le_add_r|].
  eapply Nat.le_trans; [exact IH|]. apply Nat.le_add_l.
Qed.

Lemma vsize_entries (v : value) (es : list (string * value)) (k : string) (x : value) :
  entries v = Ok es -> In (k, x) es -> (exists c, x = VStr c) \/ vsize x < vsize v.
Proof.
  destruct v; cbn [entries]; intros He Hin; try discriminate; injection He as <-;
    try contradiction.
  - left. apply indexed_In in Hin. unfold chars in Hin. apply in_map_iff in Hin.
    destruct Hin as (c & <- & _). eauto.
  - right. apply indexed_In in Hin. cbn [vsize]. apply Nat.lt_succ_r.
    induction items as [|y items IH]; [contradiction|].
    destruct Hin as [->|Hin]; [apply Nat.le_add_r|].
    specialize (IH Hin). eapply Nat.le_trans; [exact IH|]. apply Nat.le_add_l.
  - right. cbn [vsize]. apply Nat.lt_succ_r.
    induction fields as [|[k' y] fields IH]; [contradiction|].
    destruct Hin as [Hin|Hin].
    + injection Hin as _ <-. apply Nat.le_add_r.
    + specialize (IH Hin). eapply Nat.le_trans; [exact IH|]. apply Nat.le_add_l.
Qed.

Lemma below_some (mixins : list (value * value)) (rank : value -> nat) (l : list value) :
  exists r, below mixins rank r l.
Proof.
  exists (S (list_max (map rank l))). intros y Hy _.
  apply Nat.lt_succ_r.
  pose proof (proj1 (list_max_le (map rank l) (list_max (map rank l))) (Nat.le_refl _)) as F.
  rewrite Forall_forall in F. apply F. now apply in_map.
Qed.

Section Acyclic.

Variable channels : list string.
Variable mixins : list (value * value).
Variable rank : value -> nat.
Hypothesis ranked : acyclic mixins rank.

(** With a stack deep enough, a loop settles when its body does on every
    entry. *)
Lemma forEach_settles (es : list (string * value)) :
  (forall e, In e es ->
             exists N, forall n, N <= n ->
                       forall indent oo acc,
                         settles (visitEntry channels mixins n indent oo e acc) = true) ->
  exists N, forall n, N <= n ->
            forall indent oo acc,
              settles (forEach (visitEntry channels mixins n indent oo) es acc) = true.
Proof.
  induction es as [|e es IH]; intros Hes.
  - exists 0. reflexivity.
  - destruct (Hes e (or_introl eq_refl)) as [N1 H1].
    destruct (IH (fun e' He' => Hes e' (or_intror He'))) as [N2 H2].
    exists (Nat.max N1 N2). intros n Hn indent oo acc. cbn [forEach].
    specialize (H1 n (Nat.le_trans _ _ _ (Nat.le_max_l N1 N2) Hn) indent oo acc).
    destruct (visitEntry channels mixins n indent oo e acc) as [acc1|err|];
      cbn [bind]; [|exact H1|discriminate].
    apply H2. exact (Nat.le_trans _ _ _ (Nat.le_max_r N1 N2) Hn).
Qed.

Lemma settles_by_rank (r : nat) :
  forall size v, vsize v < size ->
    (below mixins rank r (typeSplices v) ->
     exists N, forall n, N <= n ->
               forall indent w, settles (inlineType channels mixins n v indent w) = true) /\
    (below mixins rank r (propsSplices v) ->
     exists N, forall n, N <= n ->
               forall indent oo acc,
                 settles (visitProperties channels mixins n v indent oo acc) = true).
Proof.
  induction r as [r IHr] using lt_wf_ind.
  induction size as [|size IHsize]; intros v Hsize; [lia|].
  assert (Hstr : forall c, exists N, forall n, N <= n ->
                   forall indent w,
                     settles (inlineType channels mixins n (VStr c) indent w) = true).
  { intros c. exists 1. intros [|n] Hn indent w; [lia|].
    rewrite inlineType_S. apply inlineString_settles. }
  split.
  - (* a type expression *)
    intros Hb.
    destruct v as [| |b|z|s|items|fields]; try apply Hstr;
      try (exists 1; intros [|n] Hn indent w; [lia|]; rewrite inlineType_S; reflexivity).
    destruct (lookup "type" fields) as [| |b|z|tag|l|l] eqn:Ht;
      try (exists 1; intros [|n] Hn indent w; [lia|]; rewrite inlineType_S;
           cbn [get bind]; rewrite Ht; reflexivity).
    destruct (startsWith tag "array") eqn:Ha.
    { rewrite (typeSplices_items fields tag Ht Ha) in Hb.
      pose proof (vsize_lookup "items" fields) as Hlt.
      destruct (proj1 (IHsize (lookup "items" fields) ltac:(lia)) Hb) as [N HN].
      exists (S N). intros [|n] Hn indent w; [lia|]. rewrite inlineType_S.
      cbn [get bind]. rewrite Ht, Ha.
      specialize (HN n ltac:(lia) indent true).
      destruct (inlineType channels mixins n (lookup "items" fields) indent true);
        [reflexivity | exact HN | discriminate]. }
    destruct (startsWith tag "enum") eqn:He.
    { exists 1. intros [|n] Hn indent w; [lia|]. rewrite inlineType_S.
      cbn [get bind]. rewrite Ht, Ha, He. now destruct (lookup "literals" fields). }
    destruct (startsWith tag "object") eqn:Ho.
    2:{ exists 1. intros [|n] Hn indent w; [lia|]. rewrite inlineType_S.
        cbn [get bind]. now rewrite Ht, Ha, He, Ho. }
    rewrite (typeSplices_properties fields tag Ht Ha He Ho) in Hb.
    pose proof (vsize_lookup "properties" fields) as Hlt.
    destruct (proj2 (IHsize (lookup "properties" fields) ltac:(lia)) Hb) as [N HN].
    exists (S (S N)). intros [|[|n]] Hn indent w; try lia. rewrite inlineType_S.
    cbn [get bind]. rewrite Ht, Ha, He, Ho. rewrite properties_S.
    specialize (HN n ltac:(lia) (indent ++ "  ") false ([], [])).
    destruct (visitProperties channels mixins n (lookup "properties" fields)
                (indent ++ "  ") false ([], []));
      [reflexivity | exact HN | discriminate].
  - (* a property list *)
    intros Hb.
    destruct (entries v) as [es|err|] eqn:He.
    2:{ exists 1. intros [|n] Hn indent oo acc; [lia|].
        rewrite visitProperties_S, He.
        destruct v; try discriminate He; injection He as <-; reflexivity. }
    2:{ destruct v; discriminate. }
    assert (Hes : forall e, In e es ->
                    exists N, forall n, N <= n ->
                      forall indent oo acc,
                        settles (visitEntry channels mixins n indent oo e acc) = true).
    { intros [k x] Hin. unfold visitEntry.
      pose proof (propsSplices_entries v es k x He Hin) as Hsp.
      destruct (startsWith k "$mixin").
      - destruct (mapGet x mixins) as [item|] eqn:Hx; [|exists 0; reflexivity].
        destruct (get item "properties") as [p|err|] eqn:Hp;
          [| exists 0; destruct item; try discriminate Hp; injection Hp as <-; reflexivity
           | destruct item; discriminate].
        apply get_field in Hp.
        assert (Hr : rank x < r) by (apply Hb; [exact Hsp | congruence]).
        assert (Hbp : below mixins rank (rank x) (propsSplices p)).
        { intros y Hy Hpresent. subst p. exact (ranked x item y Hx Hy Hpresent). }
        destruct (proj2 (IHr (rank x) Hr (S (vsize p)) p (Nat.lt_succ_diag_r _)) Hbp) as [N HN].
        exists N. intros n Hn indent oo acc. cbn [bind]. apply HN. exact Hn.
      - assert (Hq : exists N, forall n, N <= n ->
                       forall indent w,
                         settles (inlineType channels mixins n x indent w) = true).
        { destruct (vsize_entries v es k x He Hin) as [[c ->]|Hlt]; [apply Hstr|].
          apply (proj1 (IHsize x ltac:(lia))).
          intros y Hy. apply Hb. now apply Hsp. }
        destruct Hq as [N HN]. exists N. intros n Hn indent oo acc.
        specialize (HN n Hn indent false).
        destruct (inlineType channels mixins n x indent false);
          [reflexivity | exact HN | discriminate]. }
    destruct (forEach_settles es Hes) as [N HN].
    exists (S N). intros [|n] Hn indent oo acc; [lia|].
    rewrite visitProperties_S, He. cbn [bind]. apply HN. lia.
Qed.

End Acyclic.

Lemma properties_settle channels mixins rank (props : value) :
  acyclic mixins rank ->
  exists N, forall n, N <= n ->
            forall indent oo, settles (properties channels mixins n props indent oo) = true.
Proof.
  intros Hacyclic.
  destruct (below_some mixins rank (propsSplices props)) as [r Hr].
  destruct (proj2 (settles_by_rank channels mixins rank Hacyclic r (S (vsize props)) props
                     (Nat.lt_succ_diag_r _)) Hr) as [N HN].
  exists (S N). intros [|n] Hn indent oo; [lia|]. rewrite properties_S.
  specialize (HN n ltac:(lia) indent oo ([], [])).
  destruct (visitProperties channels mixins n props indent oo ([], []));
    [reflexivity | exact HN | discriminate].
Qed.

Lemma spliceLoop_exhausts_stack channels (n : nat) :
  forall indent oo acc,
    visitProperties channels selfMixin n spliceLoop indent oo acc = Throw RangeError.
Proof.
  induction n as [|n IH]; intros indent oo acc; [reflexivity|].
  rewrite visitProperties_S. cbn [entries spliceLoop obj bind forEach].
  change (visitEntry channels selfMixin n indent oo ("$mixin", str "Loop") acc)
    with (visitProperties channels selfMixin n spliceLoop indent oo acc).
  now rewrite IH.
Qed.

Lemma layered_acyclic : acyclic layered layeredRank.
Proof.
  intros x item y Hx Hy _. unfold layered in Hx. cbn [mapGet] in Hx.
  destruct (sameValueZero x (VStr "Base")) eqn:E1.
  - injection Hx as <-. vm_compute in Hy. contradiction.
  - destruct (sameValueZero x (VStr "Extra")) eqn:E2; [|discriminate].
    injection Hx as <-. apply sameValueZero_eq in E2. subst x.
    vm_compute in Hy. destruct Hy as [<-|[]]. vm_compute. lia.
Qed.

(** The expansion of the layered property list: the entries of [Base],
    then the entry of [Extra], stand where [Extra] was spliced. *)
Example expandMixins_layered :
  expandMixins layered 3 layeredProps
  = Ok [("selector", str "string"); ("timeout", str "number?");
        ("strict", str "boolean?"); ("force", str "boolean?")].
Proof. reflexivity. Qed.

Example layered_settles :
  exists N, forall n, N <= n ->
            forall indent oo, settles (properties [] layered n layeredProps indent oo) = true.
Proof. exact (properties_settle [] layered layeredRank layeredProps layered_acyclic). Qed.

(** C9. Resolving a property list is resolving, entry by entry and in
    order, the list in which every mixin-splice marker has been replaced
    in place by the expanded property list of its mixin; as soon as the
    mixin-splice graph has no cycle, a stack of some depth is enough for
    every property list: with that depth or more the resolution returns a
    result or throws an error of its own, the same whatever the depth;
    and on a mixin that splices itself nothing detects the cycle, the
    calls nest without bound and the resolution throws the [RangeError]
    of an exhausted stack, however deep the stack is. *)
Theorem mixin_expansion_in_place_terminates_when_acyclic :
  (forall channels mixins fuel props indent onlyOptional inner,
      properties channels mixins fuel props indent onlyOptional = Ok inner ->
      exists flat rs,
        expandMixins mixins fuel props = Ok flat /\
        Forall (fun e => startsWith (fst e) "$mixin" = false) flat /\
        resolveEach channels mixins fuel indent flat = Ok rs /\
        map fst rs = map fst flat /\
        inner = {| ts_lines := join nl (map (tsLine indent) (kept onlyOptional rs));
                   scheme_lines := join nl (map (schemeLine indent) (kept onlyOptional rs)) |}) /\
  (forall channels mixins rank props,
      acyclic mixins rank ->
      exists N, forall n, N <= n ->
                forall indent onlyOptional,
                  settles (properties channels mixins n props indent onlyOptional) = true /\
                  properties channels mixins n props indent onlyOptional
                  = properties channels mixins N props indent onlyOptional) /\
  (forall channels n indent onlyOptional,
      properties channels selfMixin n spliceLoop indent onlyOptional = Throw RangeError).
Proof.
  split; [exact properties_expand|]. split.
  - intros channels mixins rank props H.
    destruct (properties_settle channels mixins rank props H) as [N HN].
    exists N. intros n Hn indent oo. split; [now apply HN|].
    apply properties_more; [exact Hn|]. now apply HN.
  - intros channels [|n] indent oo; [reflexivity|].
    rewrite properties_S. now rewrite spliceLoop_exhausts_stack.
Qed.

(** ** The errors of a run *)

Lemma throwsOnly_bind {A B : Type} (c : outcome A) (k : A -> outcome B) :
  throwsOnly c -> (forall a, throwsOnly (k a)) -> throwsOnly (bind c k).
Proof. destruct c; cbn [bind]; auto. Qed.

Lemma throwsOnly_forEach {A S : Type} (body : A -> S -> outcome S) (l : list A) :
  (forall x s, In x l -> throwsOnly (body x s)) -> forall s, throwsOnly (forEach body l s).
Proof.
  induction l as [|x l IH]; intros H s; cbn [forEach]; [exact I|].
  apply throwsOnly_bind; [apply H; now left|].
  intros s'. apply IH. intros y t Hy. apply H. now right.
Qed.

Lemma throwsOnly_get (v : value) (k : string) : throwsOnly (get v k).
Proof. destruct v; exact I. Qed.

Lemma throwsOnly_entries (v : value) : throwsOnly (entries v).
Proof. destruct v; exact I. Qed.

Lemma throwsOnly_titleCase (s : string) : throwsOnly (titleCase s).
Proof. destruct s; exact I. Qed.

Create HintDb throws.

#[local] Hint Resolve throwsOnly_get throwsOnly_entries throwsOnly_titleCase : throws.

Ltac throws :=
  repeat first
    [ exact I
    | solve [auto with throws]
    | apply throwsOnly_bind; [|intros ?]
    | apply throwsOnly_forEach; intros ? ? _
    | match goal with
      | |- throwsOnly (if ?b then _ else _) => destruct b
      | |- throwsOnly (match ?x with _ => _ end) => destruct x
      | |- throwsOnly (let '(_, _) := ?x in _) => destruct x
      end ].

Lemma throwsOnly_inlineString channels (s : string) : throwsOnly (inlineString channels s).
Proof. unfold inlineString. throws. Qed.

Lemma throwsOnly_resolver channels mixins (n : nat) :
  (forall type indent w, throwsOnly (inlineType channels mixins n type indent w)) /\
  (forall props indent oo, throwsOnly (properties channels mixins n props indent oo)) /\
  (forall props indent oo acc,
      throwsOnly (visitProperties channels mixins n props indent oo acc)).
Proof.
  induction n as [|n (IHi & IHp & IHv)]; [repeat split; intros; exact I|].
  split; [|split].
  - intros type indent w. rewrite inlineType_S.
    assert (Hs : forall s, throwsOnly (inlineString channels s))
      by apply throwsOnly_inlineString.
    destruct type as [| |b|z|s|items|fields]; cbn [get bind]; try exact I; [apply Hs|].
    destruct (lookup "type" fields) as [| |b'|n'|tag|l'|l'] eqn:Hg; try exact I.
    destruct (startsWith tag "array") eqn:Ha;
      [apply throwsOnly_bind; [apply IHi|]; intros inner; exact I|].
    destruct (startsWith tag "enum") eqn:He;
      [destruct (lookup "literals" fields); exact I|].
    destruct (startsWith tag "object") eqn:Ho;
      [apply throwsOnly_bind; [apply IHp|]; intros inner; exact I|].
    cbn [raise throwsOnly unrecognised get]. now rewrite Hg, Ha, He, Ho.
  - intros props indent oo. rewrite properties_S.
    apply throwsOnly_bind; [apply IHv|]. intros acc. exact I.
  - intros props indent oo acc. rewrite visitProperties_S.
    apply throwsOnly_bind; [apply throwsOnly_entries|]. intros es.
    apply throwsOnly_forEach. intros [name v] acc' _. unfold visitEntry.
    destruct (startsWith name "$mixin").
    + destruct (mapGet v mixins); [|exact I].
      apply throwsOnly_bind; [apply throwsOnly_get|]. intros p. apply IHv.
    + apply throwsOnly_bind; [apply IHi|]. intros inner. exact I.
Qed.

Lemma throwsOnly_objectType channels mixins fuel props indent oo :
  throwsOnly (objectType channels mixins fuel props indent oo).
Proof.
  unfold objectType. apply throwsOnly_bind; [apply throwsOnly_entries|].
  intros [|e es]; [exact I|].
  apply throwsOnly_bind; [apply throwsOnly_resolver|]. intros inner. exact I.
Qed.

#[local] Hint Resolve throwsOnly_objectType : throws.

Lemma throwsOnly_tracingFlag method flag : throwsOnly (tracingFlag method flag).
Proof. unfold tracingFlag. throws. Qed.

Lemma throwsOnly_addAliases r channelName methodName paramsName o :
  throwsOnly (addAliases r channelName methodName paramsName o).
Proof. unfold addAliases. throws. Qed.

#[local] Hint Resolve throwsOnly_tracingFlag throwsOnly_addAliases : throws.

Lemma throwsOnly_emitEvent fuel r channelName entry st :
  throwsOnly (emitEvent fuel r channelName entry st).
Proof. destruct entry as [eventName event], st as [[ts_types eventTypes] o].
  unfold emitEvent. throws. Qed.

Lemma throwsOnly_emitCommand fuel r dc name entry st :
  throwsOnly (emitCommand fuel r dc name entry st).
Proof. destruct entry as [m method], st as [ts_types o]. unfold emitCommand. throws. Qed.

#[local] Hint Resolve throwsOnly_emitEvent throwsOnly_emitCommand : throws.

Lemma throwsOnly_emitInterface fuel r dc name item o :
  throwsOnly (emitInterface fuel r dc name item o).
Proof.
  unfold emitInterface.
  repeat first
    [ exact I
    | solve [auto with throws]
    | apply throwsOnly_bind; [|intros ?]
    | apply throwsOnly_forEach; intros ? ? _
    | match goal with
      | |- throwsOnly (let '(_, _) := ?x in _) => destruct x
      end ].
Qed.

Lemma throwsOnly_emitEntity fuel r dc entry o :
  throwsOnly (emitEntity fuel r dc entry o).
Proof.
  destruct entry as [name item]. unfold emitEntity.
  apply throwsOnly_bind; [apply throwsOnly_get|]. intros type.
  destruct (isStr type "interface"); [apply throwsOnly_emitInterface|]. throws.
Qed.

Lemma throwsOnly_generate fuel protocol : throwsOnly (generate fuel protocol).
Proof.
  unfold generate.
  apply throwsOnly_bind; [apply throwsOnly_entries|]. intros es.
  apply throwsOnly_bind.
  { apply throwsOnly_forEach. intros [name v] r _. unfold register. throws. }
  intros r. apply throwsOnly_bind.
  { apply throwsOnly_forEach. intros [name item] dc _. unfold derive. throws. }
  intros dc. apply throwsOnly_bind.
  { unfold emitTraits.
    repeat (apply throwsOnly_bind;
            [apply throwsOnly_forEach; intros [name item] o _; unfold trait; throws|];
            intros ?).
    exact I. }
  intros o1. apply throwsOnly_bind; [|intros o2; exact I].
  apply throwsOnly_forEach. intros entry o _. apply throwsOnly_emitEntity.
Qed.

(** ** References that name no entity *)

Lemma inlineString_token channels (token : string) :
  exists r,
    inlineString channels token = Ok r /\
    optional r = endsWith token "?" /\
    (isBuiltin (baseName token) = false -> setHas (baseName token) channels = false ->
     ts r = baseName token /\ scheme r = "tType('" ++ baseName token ++ "')").
Proof.
  unfold inlineString, isBuiltin. fold (baseName token).
  destruct (baseName token =? "binary") eqn:E1;
    [eexists; split; [reflexivity|]; split; [reflexivity|]; discriminate|].
  destruct (baseName token =? "json") eqn:E2;
    [eexists; split; [reflexivity|]; split; [reflexivity|]; discriminate|].
  destruct (existsb (String.eqb (baseName token)) ["string"; "boolean"; "number"; "undefined"])
    eqn:E3.
  { destruct (baseName token) as [|c rest] eqn:Eb; [discriminate E3|].
    eexists. split; [reflexivity|]. split; [reflexivity|]. discriminate. }
  destruct (setHas (baseName token) channels) eqn:E4;
    [eexists; split; [reflexivity|]; split; [reflexivity|]; intros _ H; discriminate|].
  destruct (baseName token =? "Channel") eqn:E5;
    [eexists; split; [reflexivity|]; split; [reflexivity|]; discriminate|].
  eexists. split; [reflexivity|]. split; [reflexivity|]. intros _ _. split; reflexivity.
Qed.

Lemma mapGet_mapSet_inv {V : Type} (v k : value) (x : V) (m : list (value * V)) :
  mapGet v (mapSet k x m) <> None -> sameValueZero v k = true \/ mapGet v m <> None.
Proof.
  induction m as [|[k1 x1] m IH]; cbn [mapSet mapGet].
  - destruct (sameValueZero v k); [now left | now right].
  - destruct (sameValueZero k k1) eqn:E; cbn [mapGet].
    + destruct (sameValueZero v k1) eqn:E1; [|now right].
      apply sameValueZero_eq in E. subst k1. now left.
    + destruct (sameValueZero v k1); [right; discriminate | exact IH].
Qed.

Lemma register_loop_mixins (all es : list (string * value)) (r r' : registries) :
  forEach register es r = Ok r' -> incl es all ->
  (forall v, mapGet v (mixins r) <> None -> declaresMixin all v = true) ->
  forall v, mapGet v (mixins r') <> None -> declaresMixin all v = true.
Proof.
  revert r. induction es as [|[name item] es IH]; intros r H Hincl Hinv; cbn in H.
  - now injection H as <-.
  - apply bind_Ok in H. destruct H as (r1 & H1 & H).
    apply (IH r1 H); [intros e He; apply Hincl; now right|].
    clear IH H. unfold register in H1.
    apply bind_Ok in H1. destruct H1 as (type & Ht & H1). apply get_field in Ht.
    apply bind_Ok in H1. destruct H1 as (r2 & H2 & H1).
    assert (Hm2 : mixins r2 = mixins r).
    { destruct (isStr type "interface"); [|now injection H2 as <-].
      apply bind_Ok in H2. destruct H2 as (ext & _ & H2). now injection H2 as <-. }
    injection H1 as <-. intros v Hv.
    destruct (isStr type "mixin") eqn:Hmix; cbn [mixins] in Hv; rewrite Hm2 in Hv;
      [|now apply Hinv].
    apply mapGet_mapSet_inv in Hv. destruct Hv as [Hv|Hv]; [|now apply Hinv].
    apply sameValueZero_eq in Hv. subst v. cbn [declaresMixin].
    apply existsb_exists. exists (name, item). split; [apply Hincl; now left|].
    cbn [fst snd]. now rewrite String.eqb_refl, Ht, Hmix.
Qed.

Lemma generate_registers fuel protocol o es :
  generate fuel protocol = Ok o -> entries protocol = Ok es ->
  exists r dc o1 o2,
    forEach register es {| channels := []; inherits := []; mixins := [] |} = Ok r /\
    forEach (emitEntity fuel r dc) es o1 = Ok o2 /\
    (forall v, declaresMixin es v = false -> mapGet v (mixins r) = None).
Proof.
  unfold generate. intros H Hes. rewrite Hes in H. cbn [bind] in H.
  apply bind_Ok in H. destruct H as (r & Hr & H).
  apply bind_Ok in H. destruct H as (dc & _ & H).
  apply bind_Ok in H. destruct H as (o1 & _ & H).
  apply bind_Ok in H. destruct H as (o2 & H2 & _).
  exists r, dc, o1, o2. split; [exact Hr|]. split; [exact H2|].
  intros v Hv. destruct (mapGet v (mixins r)) eqn:G; [|reflexivity].
  rewrite (register_loop_mixins es es _ r Hr (incl_refl es)) in Hv; [discriminate| |].
  - intros v' Hv'. cbn in Hv'. contradiction.
  - now rewrite G.
Qed.






(** * Further properties of the two programs *)

(** ** Splitting and joining *)

Lemma split_cons (c : ascii) (s : string) : exists w ws, split c s = w :: ws.
Proof.
  destruct s as [|a rest]; cbn [split]; [eauto|].
  destruct (Ascii.eqb a c); [eauto|]. destruct (split c rest); eauto.
Qed.

Lemma join_cons (sep x : string) (y : string) (l : list string) :
  join sep (x :: y :: l) = x ++ sep ++ join sep (y :: l).
Proof. reflexivity. Qed.

Lemma join_split (c : ascii) (s : string) : join (String c "") (split c s) = s.
Proof.
  induction s as [|a rest IH]; [reflexivity|]. cbn [split].
  destruct (split_cons c rest) as (w & ws & E). rewrite E in IH |- *.
  destruct (Ascii.eqb a c) eqn:Ea.
  - apply Ascii.eqb_eq in Ea. subst a. rewrite join_cons, IH. reflexivity.
  - destruct ws as [|w' ws].
    + cbn in IH |- *. now rewrite IH.
    + rewrite join_cons in IH. rewrite join_cons. rewrite <- IH. reflexivity.
Qed.

(** No piece of a split holds the separator. *)
Lemma split_pieces (c : ascii) (s : string) :
  Forall (fun w => existsb (Ascii.eqb c) (list_ascii_of_string w) = false) (split c s).
Proof.
  induction s as [|a rest IH]; cbn [split].
  - repeat constructor.
  - destruct (Ascii.eqb a c) eqn:Ea.
    + constructor; [reflexivity | exact IH].
    + rewrite Ascii.eqb_sym in Ea.
      destruct (split c rest) as [|w ws]; [repeat constructor; cbn; now rewrite Ea|].
      inversion IH as [|? ? Hw Hws]; subst. constructor; [|exact Hws].
      cbn. now rewrite Ea.
Qed.

Lemma substring_all (s : string) : substring 0 (String.length s) s = s.
Proof. induction s as [|a s IH]; [reflexivity|]. cbn. now rewrite IH. Qed.

Lemma unindent_indent (line : string) : unindent ("  " ++ line) = line.
Proof.
  unfold unindent. cbn [append String.length].
  replace (S (S (String.length line)) - 2) with (String.length line) by lia.
  cbn [substring]. apply substring_all.
Qed.

(** X1. What [addScheme] pushes to [validator_ts] is the statement
    [scheme.name = s;] cut at its line ends, every line behind two spaces:
    each element pushed is one line, and the lines without their two
    spaces, joined again, are the statement. Nothing else changes. *)
Theorem addScheme_statement (name s : string) (o : output) :
  exists lines,
    validator_ts (addScheme name s o) = app (validator_ts o) lines /\
    Forall (fun line =>
              startsWith line "  " = true /\
              existsb (Ascii.eqb (ascii_of_nat 10)) (list_ascii_of_string line) = false)
           lines /\
    join nl (map unindent lines) = "scheme." ++ name ++ " = " ++ s ++ ";" /\
    channels_ts (addScheme name s o) = channels_ts o /\
    tracingSnapshots (addScheme name s o) = tracingSnapshots o /\
    pausesBeforeInputActions (addScheme name s o) = pausesBeforeInputActions o.
Proof.
  exists (schemeLines name s). split; [reflexivity|]. unfold schemeLines.
  set (statement := "scheme." ++ name ++ " = " ++ s ++ ";").
  split; [|split; [|repeat split]].
  - apply Forall_map. eapply Forall_impl; [|apply (split_pieces (ascii_of_nat 10) statement)].
    intros line H. split; [now destruct line|]. cbn. exact H.
  - rewrite map_map. erewrite map_ext; [|intros line; apply unindent_indent].
    rewrite map_id. apply (join_split (ascii_of_nat 10)).
Qed.

(** ** Runs of the script *)

Lemma main_Exit (fuel : nat) (protocol : value) (fs : string -> option string) (code : Z) :
  fst (main fuel protocol fs) = Exit code ->
  exists o c v,
    generate fuel protocol = Ok o /\ fs channelsPath = Some c /\ fs validatorPath = Some v.
Proof.
  intros H.
  destruct (generate fuel protocol) as [o|e|] eqn:G;
    [|unfold main in H; rewrite G in H; discriminate
     |unfold main in H; rewrite G in H; discriminate].
  pose proof (main_generated fuel protocol fs o G) as M. cbv zeta in M.
  destruct (fs channelsPath) as [c|].
  - destruct (fs validatorPath) as [v|]; [now exists o, c, v|]. rewrite M in H. discriminate.
  - rewrite M in H. discriminate.
Qed.

(** X2. A run that has ended with an exit status has left the files such
    that running the script again changes nothing: the second run ends
    with status 0, writes no file and prints nothing. *)
Theorem main_again (fuel : nat) (protocol : value) (fs : string -> option string)
    (code : Z) :
  fst (main fuel protocol fs) = Exit code ->
  let after := files (snd (main fuel protocol fs)) in
  main fuel protocol after = (Exit 0, {| files := after; console := []; hasChanges := false |}).
Proof.
  intros H after.
  destruct (main_Exit fuel protocol fs code H) as (o & c & v & G & Hc & Hv).
  pose proof (main_generated fuel protocol fs o G) as M. cbv zeta in M.
  rewrite Hc, Hv in M. destruct M as (_ & Mc & Mv & _). fold after in Mc, Mv.
  unfold main. rewrite G.
  set (w := {| files := after; console := []; hasChanges := false |}).
  rewrite (writeFile_same channelsPath _ w Mc).
  rewrite (writeFile_same validatorPath _ w Mv). reflexivity.
Qed.

(** X2 on the sample document and two empty targets: the first run
    rewrites both and ends with status 1. *)
Lemma main_again_sample :
  fst (main 10 sample blankFs) = Exit 1 /\
  fst (main 10 sample (files (snd (main 10 sample blankFs)))) = Exit 0.
Proof.
  assert (H : fst (main 10 sample blankFs) = Exit 1) by (vm_compute; reflexivity).
  split; [exact H|].
  rewrite (main_again 10 sample blankFs 1 H). reflexivity.
Defined.

(** X3. When both targets exist, the run prints one line [Writing //path]
    for each target it rewrites, [channels.ts] first; it ends with status
    0 exactly when it has printed nothing, and then no file has changed. *)
Theorem main_console (fuel : nat) (protocol : value) (fs : string -> option string)
    (o : output) (c v : string) :
  generate fuel protocol = Ok o ->
  fs channelsPath = Some c -> fs validatorPath = Some v ->
  let run := main fuel protocol fs in
  console (snd run)
  = app (if c =? join nl (channels_ts o) then []
         else ["Writing //packages/playwright-core/src/protocol/channels.ts"])
        (if v =? join nl (validator_ts o) then []
         else ["Writing //packages/playwright-core/src/protocol/validator.ts"]) /\
  (fst run = Exit 0 <-> console (snd run) = []) /\
  (fst run = Exit 0 -> files (snd run) = fs).
Proof.
  intros G Hc Hv run. subst run. unfold main. rewrite G.
  set (w0 := {| files := fs; console := []; hasChanges := false |}).
  assert (Hpaths : (validatorPath =? channelsPath) = false) by reflexivity.
  destruct (c =? join nl (channels_ts o)) eqn:Ec.
  - apply String.eqb_eq in Ec. subst c.
    rewrite (writeFile_same channelsPath _ w0 Hc).
    destruct (v =? join nl (validator_ts o)) eqn:Ev.
    + apply String.eqb_eq in Ev. subst v.
      rewrite (writeFile_same validatorPath _ w0 Hv). cbn. repeat split; auto.
    + apply string_eqb_false_neq in Ev.
      rewrite (writeFile_differs validatorPath _ w0 v Hv Ev). cbn.
      repeat split; intros H; discriminate.
  - apply string_eqb_false_neq in Ec.
    rewrite (writeFile_differs channelsPath _ w0 c Hc Ec).
    set (w1 := {| files := _; console := _; hasChanges := true |}).
    assert (Hv1 : files w1 validatorPath = Some v).
    { subst w1. cbn [files]. now rewrite Hpaths. }
    destruct (v =? join nl (validator_ts o)) eqn:Ev.
    + apply String.eqb_eq in Ev. subst v.
      rewrite (writeFile_same validatorPath _ w1 Hv1). cbn.
      repeat split; intros H; discriminate.
    + apply string_eqb_false_neq in Ev.
      rewrite (writeFile_differs validatorPath _ w1 v Hv1 Ev). cbn.
      repeat split; intros H; discriminate.
Qed.

(** X3 on the sample document and two empty targets. *)
Lemma main_console_sample :
  match result (generate 10 sample) with
  | Some o =>
    console (snd (main 10 sample blankFs))
    = ["Writing //packages/playwright-core/src/protocol/channels.ts";
       "Writing //packages/playwright-core/src/protocol/validator.ts"]
  | None => False
  end.
Proof.
  destruct (generate 10 sample) as [o|e|] eqn:G;
    [| vm_compute in G; discriminate G | vm_compute in G; discriminate G].
  cbn [result].
  destruct (main_console 10 sample blankFs o "" "" G eq_refl eq_refl) as (H & _).
  rewrite H. vm_compute in G. injection G as <-. vm_compute. reflexivity.
Defined.

(** ** Strings *)

Lemma append_assoc (a b c : string) : (a ++ b) ++ c = a ++ b ++ c.
Proof. induction a as [|x a IH]; [reflexivity|]. cbn. now rewrite IH. Qed.

Lemma append_nil_r (a : string) : a ++ "" = a.
Proof. induction a as [|x a IH]; [reflexivity|]. cbn. now rewrite IH. Qed.

Lemma length_append (a b : string) :
  String.length (a ++ b) = String.length a + String.length b.
Proof. induction a as [|x a IH]; [reflexivity|]. cbn. now rewrite IH. Qed.

(** ** The two sets of command names *)

Lemma join_quoted (x : string) (items : list string) :
  "  '" ++ join ("'," ++ nl ++ "  '") (x :: items) ++ "'"
  = join ("," ++ nl) (map (fun item => "  '" ++ item ++ "'") (x :: items)).
Proof.
  revert x. induction items as [|y items IH]; intros x; [reflexivity|].
  cbn [map] in IH |- *. rewrite !join_cons. rewrite <- IH.
  rewrite !append_assoc. reflexivity.
Qed.

Lemma setLiteral_joined (name : string) (items : list string) :
  "export const " ++ name ++ " = new Set([" ++ nl ++ "  '"
    ++ join ("'," ++ nl ++ "  '") items ++ "'" ++ nl ++ "]);"
  = setLiteral name items.
Proof.
  unfold setLiteral. destruct items as [|x items]; [reflexivity|].
  rewrite <- join_quoted. rewrite !append_assoc. reflexivity.
Qed.

(** X4. The generated [channels.ts] ends with the declarations of the two
    sets of command names, an empty line between them; each set lists the
    names recorded for it one per line, and a set for which no name was
    recorded lists the empty name. *)
Theorem channels_ts_sets (fuel : nat) (protocol : value) (o : output) :
  generate fuel protocol = Ok o ->
  exists body,
    channels_ts o
    = app body [setLiteral "commandsWithTracingSnapshots" (tracingSnapshots o); "";
                setLiteral "pausesBeforeInputActions" (pausesBeforeInputActions o)].
Proof.
  unfold generate. intros H.
  apply bind_Ok in H. destruct H as (es & _ & H).
  apply bind_Ok in H. destruct H as (r & _ & H).
  apply bind_Ok in H. destruct H as (dc & _ & H).
  apply bind_Ok in H. destruct H as (o1 & _ & H).
  apply bind_Ok in H. destruct H as (o2 & _ & H).
  injection H as <-. exists (channels_ts o2).
  cbn [finish emit channels_ts tracingSnapshots pausesBeforeInputActions]. unfold push.
  rewrite <- !app_assoc. cbn [app].
  rewrite <- (setLiteral_joined "commandsWithTracingSnapshots").
  rewrite <- (setLiteral_joined "pausesBeforeInputActions"). reflexivity.
Qed.

(** X4 on the three levels of inheritance, where no command pauses
    before input. *)
Lemma channels_ts_sets_chain :
  match result (generate 10 chain) with
  | Some o =>
    exists body,
      channels_ts o
      = app body ["export const commandsWithTracingSnapshots = new Set([
  'A.m',
  'B.m'
]);"; "";
                  "export const pausesBeforeInputActions = new Set([
  ''
]);"]
  | None => False
  end.
Proof.
  destruct (generate 10 chain) as [o|e|] eqn:G;
    [| vm_compute in G; discriminate G | vm_compute in G; discriminate G].
  cbn [result].
  destruct (channels_ts_sets 10 chain o G) as (body & H).
  exists body. rewrite H. vm_compute in G. injection G as <-. reflexivity.
Defined.

(** ** Entities of a kind the script does not know *)

Lemma forEach_skip {A S : Type} (body : A -> S -> outcome S) (x : A) (l1 l2 : list A) :
  (forall s, body x s = Ok s) ->
  forall s, forEach body (l1 ++ x :: l2)%list s = forEach body (l1 ++ l2)%list s.
Proof.
  intros Hx s. rewrite !forEach_app. cbn [forEach]. 
  destruct (forEach body l1 s); cbn [bind]; try reflexivity. now rewrite Hx.
Qed.

(** X5. An entity whose [type] is none of [interface], [object], [enum]
    and [mixin] is passed over without an error: the script generates
    what it generates for the document without that entity. *)
Theorem unknown_kind_ignored (fuel : nat) (before after : list (string * value))
    (name : string) (item type : value) :
  get item "type" = Ok type ->
  isStr type "interface" = false -> isStr type "object" = false ->
  isStr type "enum" = false -> isStr type "mixin" = false ->
  generate fuel (VObj (before ++ (name, item) :: after))
  = generate fuel (VObj (before ++ after)).
Proof.
  intros Ht Hi Ho He Hm. unfold generate. cbn [entries bind].
  rewrite (forEach_skip register (name, item)).
  2:{ intros r. unfold register. rewrite Ht. cbn [bind]. rewrite Hi. cbn [bind].
      now rewrite Hm. }
  destruct (forEach register _ _) as [r| |]; cbn [bind]; try reflexivity.
  rewrite (forEach_skip derive (name, item)).
  2:{ intros dc. unfold derive. rewrite Ht. cbn [bind]. now rewrite Hi. }
  destruct (forEach derive _ _) as [dc| |]; cbn [bind]; try reflexivity.
  assert (Htraits : forall o, emitTraits (rev (before ++ (name, item) :: after)) o
                              = emitTraits (rev (before ++ after)) o).
  { intros o. unfold emitTraits. rewrite !rev_app_distr. cbn [rev].
    rewrite <- !app_assoc. cbn [app].
    assert (Hskip : forall suffix s,
               forEach (trait suffix) (rev after ++ (name, item) :: rev before)%list s
               = forEach (trait suffix) (rev after ++ rev before)%list s).
    { intros suffix s. apply forEach_skip. intros s'. unfold trait. rewrite Ht.
      cbn [bind]. now rewrite Hi. }
    rewrite Hskip. destruct (forEach (trait "Initializer") _ _); cbn [bind]; try reflexivity.
    rewrite Hskip. destruct (forEach (trait "Events") _ _); cbn [bind]; try reflexivity.
    now rewrite Hskip. }
  rewrite Htraits.
  destruct (emitTraits _ _) as [o1| |]; cbn [bind]; try reflexivity.
  rewrite (forEach_skip (emitEntity fuel r dc) (name, item)); [reflexivity|].
  intros o. unfold emitEntity. rewrite Ht. cbn [bind]. now rewrite Hi, Ho, He.
Qed.

(** X5 on an entity of type [struct] put in front of the sample document. *)
Lemma unknown_kind_ignored_sample :
  match entries sample with
  | Ok es =>
    generate 10 (VObj (("Size", obj [("type", str "struct"); ("width", str "number")]) :: es))
    = generate 10 sample
  | _ => False
  end.
Proof.
  cbn [entries sample obj].
  apply (unknown_kind_ignored 10 [] _ "Size" _ (str "struct")); reflexivity.
Defined.

(** ** How a run ends *)

Lemma cyclic_exhausts_stack (fuel : nat) : generate fuel cyclic = Throw RangeError.
Proof.
  destruct fuel as [|[|[|n]]]; try (vm_compute; reflexivity).
  unfold generate. cbn [entries cyclic obj bind].
  cbn -[inlineType properties visitProperties].
  change (properties [] _ (S (S (S n))) _ "  " false)
    with (properties [] selfMixin (S (S (S n))) spliceLoop "  " false).
  rewrite properties_S, spliceLoop_exhausts_stack. reflexivity.
Qed.

(** X6. How a run can end: with the exit status 0 or 1; or with one of
    the two targets reported missing, which then is missing; or with the
    error of [raise], which then names a type definition whose [type] is
    a string that starts with none of [array], [enum] and [object]; or
    with a [TypeError]; or with the [RangeError] of an exhausted stack,
    thrown while the output is generated. It ends with no other uncaught
    error, and it always ends. [inlineType] does raise the error of
    [raise] on every such type definition, and the run on [cyclic], whose
    mixin splices itself, ends with the [RangeError] whatever the depth of
    the stack, no file touched. *)
Theorem main_ends :
  (forall fuel protocol fs,
      match fst (main fuel protocol fs) with
      | Exit code => code = 0%Z \/ code = 1%Z
      | Uncaught TypeError => True
      | Uncaught RangeError => generate fuel protocol = Throw RangeError
      | Uncaught (InvalidItem item) => unrecognised item = true
      | Uncaught (ENOENT path) =>
        (path = channelsPath \/ path = validatorPath) /\ fs path = None
      | Uncaught (Failure _) => False
      | Hang => False
      end) /\
  (forall channels mixins fuel item indent wrapEnums,
      unrecognised item = true ->
      inlineType channels mixins (S fuel) item indent wrapEnums = Throw (InvalidItem item)) /\
  (forall fuel fs,
      main fuel cyclic fs
      = (Uncaught RangeError, {| files := fs; console := []; hasChanges := false |})).
Proof.
  split; [|split].
  - intros fuel protocol fs.
    pose proof (throwsOnly_generate fuel protocol) as T.
    destruct (generate fuel protocol) as [o|e|] eqn:G.
    + pose proof (main_generated fuel protocol fs o G) as M. cbv zeta in M.
      destruct (fs channelsPath) as [c|] eqn:Hc.
      * destruct (fs validatorPath) as [v|] eqn:Hv.
        -- destruct M as (-> & _). destruct (_ && _); auto.
        -- rewrite M. split; [now right | exact Hv].
      * rewrite M. cbn [fst]. split; [now left | exact Hc].
    + unfold main. rewrite G. cbn [fst].
      destruct e; first [exact T | reflexivity | contradiction].
    + contradiction.
  - intros channels mixins fuel item indent w H. rewrite inlineType_S.
    unfold unrecognised in H.
    destruct item as [| |b|z|s|items|fields]; cbn [get] in H; try discriminate.
    cbn [get bind].
      destruct (lookup "type" fields) as [| |b'|n'|tag|l'|l']; try discriminate.
      apply andb_prop in H. destruct H as [H Ho]. apply andb_prop in H. destruct H as [Ha He].
      apply negb_true_iff in Ha, He, Ho. now rewrite Ha, He, Ho.
  - intros fuel fs. unfold main. now rewrite cyclic_exhausts_stack.
Qed.

(** ** Prefixes and suffixes *)

Lemma prefix_nil (s : string) : prefix "" s = true.
Proof. now destruct s. Qed.

Lemma prefix_append (a b : string) : prefix a (a ++ b) = true.
Proof.
  induction a as [|x a IH]; [apply prefix_nil|]. cbn.
  destruct (ascii_dec x x) as [_|N]; [exact IH | now elim N].
Qed.

Lemma prefix_cancel (a b c : string) : prefix (a ++ b) (a ++ c) = prefix b c.
Proof.
  induction a as [|x a IH]; [reflexivity|]. cbn.
  destruct (ascii_dec x x) as [_|N]; [exact IH | now elim N].
Qed.

Lemma substring_skip (a b : string) (m : nat) :
  substring (String.length a) m (a ++ b) = substring 0 m b.
Proof. induction a as [|x a IH]; [reflexivity|]. exact IH. Qed.

Lemma endsWith_append (a b : string) : endsWith (a ++ b) b = true.
Proof.
  unfold endsWith. rewrite length_append.
  replace (String.length a + String.length b - String.length b) with (String.length a) by lia.
  rewrite substring_skip, substring_all, String.eqb_refl.
  rewrite andb_true_r. apply Nat.leb_le. lia.
Qed.

(** ** The version with its first two components *)

Lemma firstn_join_prefix (sep : string) (l : list string) (k : nat) :
  prefix (join sep (firstn k l)) (join sep l) = true.
Proof.
  revert k. induction l as [|x l IH]; intros k.
  - now destruct k.
  - destruct k as [|k]; [apply prefix_nil|]. cbn [firstn].
    destruct l as [|y l]; [destruct k; cbn; rewrite <- (append_nil_r x) at 2; apply prefix_append|].
    destruct k as [|k].
    + cbn [firstn]. rewrite join_cons. apply prefix_append.
    + specialize (IH (S k)). cbn [firstn] in IH |- *. rewrite !join_cons.
      rewrite !prefix_cancel. exact IH.
Qed.

Lemma majorMinor_prefix (s : string) : prefix (majorMinor s) s = true.
Proof.
  unfold majorMinor. rewrite <- (join_split "." s) at 2.
  apply (firstn_join_prefix "." (split "." s) 2).
Qed.

Lemma split_free (c : ascii) (w : string) : free c w -> split c w = [w].
Proof.
  unfold free. induction w as [|a w IH]; [reflexivity|]. cbn. intros H.
  apply orb_false_elim in H. destruct H as [Ha Hw]. rewrite Ascii.eqb_sym in Ha.
  rewrite Ha, (IH Hw). reflexivity.
Qed.

Lemma split_free_append (c : ascii) (w rest : string) :
  free c w -> split c (w ++ String c rest) = w :: split c rest.
Proof.
  unfold free. induction w as [|a w IH]; cbn.
  - intros _. now rewrite Ascii.eqb_refl.
  - intros H. apply orb_false_elim in H. destruct H as [Ha Hw]. rewrite Ascii.eqb_sym in Ha.
    rewrite Ha, (IH Hw). reflexivity.
Qed.

Lemma split_join (c : ascii) (x : string) (l : list string) :
  Forall (free c) (x :: l) -> split c (join (String c "") (x :: l)) = x :: l.
Proof.
  revert x. induction l as [|y l IH]; intros x H.
  - cbn. apply split_free. now inversion H.
  - rewrite join_cons. inversion H as [|? ? Hx Hl]; subst.
    cbn [append]. rewrite (split_free_append c x _ Hx). now rewrite (IH y Hl).
Qed.

Lemma split_majorMinor (s : string) : split "." (majorMinor s) = firstn 2 (split "." s).
Proof.
  unfold majorMinor.
  pose proof (split_pieces "." s) as F.
  destruct (split_cons "." s) as (w & ws & E). rewrite E in F |- *.
  assert (F2 : Forall (free ".") (firstn 2 (w :: ws))).
  { inversion F as [|? ? Hw Hws]; subst.
    destruct ws as [|w' ws]; [repeat constructor; exact Hw|].
    inversion Hws; subst. repeat constructor; assumption. }
  cbn [firstn] in F2 |- *. now apply split_join.
Qed.

(** X7. [getPlaywrightVersion(true)] returns the first two components of
    the version that [getPlaywrightVersion()] returns: a prefix of it that
    holds at most one dot, and all of it when it has no third component. *)
Theorem getPlaywrightVersion_majorMinor (h : host) (short : string) :
  getPlaywrightVersion h true = Ok short ->
  exists full,
    getPlaywrightVersion h false = Ok full /\
    prefix short full = true /\
    split "." short = firstn 2 (split "." full) /\
    (length (split "." full) <= 2 -> short = full).
Proof.
  unfold getPlaywrightVersion. intros H.
  apply bind_Ok in H. destruct H as (json & Hj & H). rewrite Hj. cbn [bind].
  apply bind_Ok in H. destruct H as (v & Hv & H). rewrite Hv. cbn [bind].
  destruct v as [| |b|n|s|l|l]; try discriminate. injection H as <-.
  exists s. cbn [toString]. split; [reflexivity|].
  split; [apply majorMinor_prefix|]. split; [apply split_majorMinor|].
  intros Hlen. unfold majorMinor. rewrite firstn_all2 by exact Hlen.
  apply (join_split ".").
Qed.

Lemma getPlaywrightVersion_majorMinor_linux :
  getPlaywrightVersion linuxHost true = Ok "1.36" /\
  exists full,
    getPlaywrightVersion linuxHost false = Ok full /\
    prefix "1.36" full = true /\
    split "." "1.36" = firstn 2 (split "." full) /\
    (length (split "." full) <= 2 -> "1.36" = full).
Proof.
  split; [reflexivity|].
  apply (getPlaywrightVersion_majorMinor linuxHost "1.36"). reflexivity.
Defined.

(** ** The parts of the user agent *)

(** X8. The language [getClientLanguage] reports is [node] when
    [PW_LANG_NAME] is not set or empty, and otherwise the value of
    [PW_LANG_NAME] if it is one of [node], [python], [java] and [csharp],
    and [unknown] if not; for an unknown language the version is [unknown]
    as well, whatever [PW_LANG_NAME_VERSION] holds. *)
Theorem getClientLanguage_known (h : host) :
  In (fst (getClientLanguage h)) ["node"; "python"; "java"; "csharp"; "unknown"] /\
  (isSet (env_PW_LANG_NAME h) = false -> fst (getClientLanguage h) = "node") /\
  (forall name, env_PW_LANG_NAME h = Some name -> name <> "" ->
                if existsb (String.eqb name) ["node"; "python"; "java"; "csharp"]
                then fst (getClientLanguage h) = name
                else getClientLanguage h = ("unknown", "unknown")) /\
  (fst (getClientLanguage h) = "unknown" -> snd (getClientLanguage h) = "unknown").
Proof.
  unfold getClientLanguage.
  destruct (env_PW_LANG_NAME h) as [name|] eqn:E; cbn [isSet negb].
  2:{ cbn. repeat split; auto; discriminate. }
  destruct (name =? "") eqn:En; cbn [negb].
  { apply String.eqb_eq in En. subst name. cbn.
    repeat split; auto; try discriminate.
    intros name H Hne. injection H as <-. now elim Hne. }
  destruct (existsb (String.eqb name) ["node"; "python"; "java"; "csharp"]) eqn:Ex;
    cbn [fst snd].
  - split; [|split; [discriminate|split]].
    + apply existsb_exists in Ex. destruct Ex as (x & Hx & Heq).
      apply String.eqb_eq in Heq. subst x. cbn in Hx |- *. tauto.
    + intros name' H _. injection H as <-. now rewrite Ex.
    + intros ->. discriminate.
  - split; [cbn; tauto|]. split; [discriminate|]. split; [|reflexivity].
    intros name' H _. injection H as <-. now rewrite Ex.
Qed.

Lemma determineUserAgent_Ok (h : host) (s : string) :
  determineUserAgent h = Ok s ->
  exists v os,
    s = "Playwright/" ++ v ++ " (" ++ arch h ++ "; " ++ fst os ++ " " ++ snd os ++ ") "
          ++ fst (getClientLanguage h) ++ "/" ++ snd (getClientLanguage h)
          ++ (if isSet (env_CI h) then " CI/1" else "").
Proof.
  unfold determineUserAgent. intros H.
  apply bind_Ok in H. destruct H as ([osIdentifier osVersion] & _ & H).
  destruct (getClientLanguage h) as [langName langVersion].
  apply bind_Ok in H. destruct H as (v & _ & H). injection H as <-.
  exists v, (osIdentifier, osVersion). cbn [fst snd].
  now destruct (isSet (env_CI h)).
Qed.

Lemma calls_Ok (hs : list host) (s : string) :
  In (Ok s) (calls hs None) ->
  s = "Playwright/unknown" \/ exists h, In h hs /\ determineUserAgent h = Ok s.
Proof.
  destruct hs as [|h hs]; [intros []|]. cbn [calls].
  pose proof (getUserAgent_first h) as F.
  destruct (determineUserAgent h) as [s'|e|] eqn:D; rewrite F.
  - rewrite (calls_cached hs s' (determineUserAgent_truthy h s' D)).
    intros [H|H].
    + injection H as <-. right. exists h. split; [now left | exact D].
    + apply in_map_iff in H. destruct H as (h' & H & _). injection H as <-.
      right. exists h. split; [now left | exact D].
  - rewrite (calls_cached hs "Playwright/unknown" eq_refl).
    intros [H|H].
    + injection H as <-. now left.
    + apply in_map_iff in H. destruct H as (h' & H & _). injection H as <-. now left.
  - intros [H|[]]. discriminate.
Qed.

(** X9. Every string [getUserAgent] returns, in any sequence of calls
    that starts with the cache empty, starts with [Playwright/]; and it is
    either the fallback or ends with the token [CI/1] when the host that
    determined it had [CI] set. *)
Theorem getUserAgent_shape (hs : list host) (s : string) :
  In (Ok s) (calls hs None) ->
  startsWith s "Playwright/" = true /\
  (s = "Playwright/unknown" \/
   exists h, In h hs /\ determineUserAgent h = Ok s /\
             (isSet (env_CI h) = true -> endsWith s " CI/1" = true)).
Proof.
  intros H. apply calls_Ok in H. destruct H as [->|(h & Hin & D)].
  - split; [reflexivity | now left].
  - destruct (determineUserAgent_Ok h s D) as (v & os & E). split.
    + rewrite E. apply (prefix_append "Playwright/").
    + right. exists h. split; [exact Hin|]. split; [exact D|]. intros CI.
      rewrite CI in E. rewrite E.
      repeat rewrite <- append_assoc. apply endsWith_append.
Qed.

Lemma getUserAgent_shape_linux :
  In (Ok "Playwright/1.36.0 (x64; ubuntu 22.04) node/18.17 CI/1")
     (calls [linuxHost; brokenHost] None) /\
  startsWith "Playwright/1.36.0 (x64; ubuntu 22.04) node/18.17 CI/1" "Playwright/" = true.
Proof.
  assert (H : In (Ok "Playwright/1.36.0 (x64; ubuntu 22.04) node/18.17 CI/1")
                 (calls [linuxHost; brokenHost] None)) by (left; reflexivity).
  split; [exact H|]. exact (proj1 (getUserAgent_shape _ _ H)).
Defined.

(** ** The channels a type can refer to *)

Lemma setHas_setAdd (k n : string) (s : list string) :
  setHas k (setAdd n s) = (k =? n) || setHas k s.
Proof.
  unfold setAdd, setHas. destruct (existsb (String.eqb n) s) eqn:E.
  - destruct (k =? n) eqn:Ek; [|reflexivity].
    apply String.eqb_eq in Ek. subst k. now rewrite E.
  - unfold push. rewrite existsb_app. cbn. rewrite orb_false_r. apply orb_comm.
Qed.

Lemma register_channels (name : string) (item : value) (r r' : registries) :
  register (name, item) r = Ok r' ->
  forall k, setHas k (channels r')
            = (isChannel item && (k =? name)) || setHas k (channels r).
Proof.
  unfold register, isChannel. intros H k.
  apply bind_Ok in H. destruct H as (type & Ht & H). apply get_field in Ht. rewrite Ht.
  apply bind_Ok in H. destruct H as (r1 & H1 & H).
  assert (E : channels r' = channels r1).
  { injection H as <-. now destruct (isStr type "mixin"). }
  rewrite E. destruct (isStr type "interface"); cbn [andb orb].
  - apply bind_Ok in H1. destruct H1 as (ext & _ & H1). injection H1 as <-.
    cbn [channels]. apply setHas_setAdd.
  - now injection H1 as <-.
Qed.

Lemma register_loop_channels (es : list (string * value)) (r r' : registries) :
  forEach register es r = Ok r' ->
  forall k, setHas k (channels r') = true
            <-> setHas k (channels r) = true \/ In k (channelNames es).
Proof.
  revert r. induction es as [|[name item] es IH]; intros r H k; cbn in H.
  - injection H as <-. cbn. tauto.
  - apply bind_Ok in H. destruct H as (r1 & H1 & H).
    rewrite (IH r1 H k), (register_channels name item r r1 H1 k).
    unfold channelNames. cbn [filter snd].
    destruct (isChannel item); cbn [andb orb map fst In].
    + rewrite orb_true_iff, String.eqb_eq. intuition (subst; auto).
    + tauto.
Qed.

(** X10. The channels are registered in a pass of their own over the
    whole document, before any type is resolved: in a run that returns,
    every entity has been emitted with the registries of the whole
    document, in which the channels are the entities of type [interface];
    so a type token that names a channel declared anywhere in the
    document, before or after its use, is resolved as a reference to
    that channel, unless the name is one the resolver knows by itself. *)
Theorem channel_references (fuel : nat) (protocol : value) (o : output)
    (es : list (string * value)) :
  generate fuel protocol = Ok o -> entries protocol = Ok es ->
  exists r dc o1 o2,
    forEach register es noRegistries = Ok r /\
    forEach (emitEntity fuel r dc) es o1 = Ok o2 /\
    (forall name, setHas name (channels r) = true <-> In name (channelNames es)) /\
    (forall token n indent wrapEnums,
        In (baseName token) (channelNames es) -> isPrimitive (baseName token) = false ->
        inlineType (channels r) (mixins r) (S n) (VStr token) indent wrapEnums
        = Ok {| ts := baseName token ++ "Channel";
                scheme := "tChannel('" ++ baseName token ++ "')";
                optional := endsWith token "?" |}).
Proof.
  intros G Hes.
  destruct (generate_registers fuel protocol o es G Hes) as (r & dc & o1 & o2 & Hr & H2 & _).
  exists r, dc, o1, o2. split; [exact Hr|]. split; [exact H2|].
  assert (Hc : forall name, setHas name (channels r) = true <-> In name (channelNames es)).
  { intros name. rewrite (register_loop_channels es _ r Hr name). cbn. intuition discriminate. }
  split; [exact Hc|].
  intros token n indent w Hin Hp. rewrite inlineType_S.
  unfold inlineString. fold (baseName token).
  unfold isPrimitive in Hp. apply orb_false_elim in Hp. destruct Hp as [Hp E3].
  apply orb_false_elim in Hp. destruct Hp as [E1 E2].
  rewrite E1, E2, E3. apply Hc in Hin. now rewrite Hin.
Qed.

(** X10 on the sample document: [B], which is declared last, can be
    referred to. *)
Lemma channel_references_sample :
  match result (generate 10 sample), entries sample with
  | Some o, Ok es =>
    exists r,
      forEach register es noRegistries = Ok r /\
      inlineType (channels r) (mixins r) 1 (VStr "B?") "" false
      = Ok {| ts := "BChannel"; scheme := "tChannel('B')"; optional := true |}
  | _, _ => False
  end.
Proof.
  destruct (generate 10 sample) as [o|e|] eqn:G;
    [| vm_compute in G; discriminate G | vm_compute in G; discriminate G].
  cbn [result entries sample obj].
  destruct (channel_references 10 sample o _ G eq_refl) as (r & dc & o1 & o2 & Hr & _ & _ & H).
  exists r. split; [exact Hr|].
  apply (H "B?" 0 "" false); [|reflexivity].
  cbn. right. left. reflexivity.
Defined.

(** ** The optionality marker *)

Lemma substring_prefix (a b : string) : substring 0 (String.length a) (a ++ b) = a.
Proof. induction a as [|x a IH]; [now destruct b|]. cbn. now rewrite IH. Qed.

Lemma dropLast_marker (token : string) : dropLast (token ++ "?") = token.
Proof.
  unfold dropLast. rewrite length_append. cbn [String.length].
  replace (String.length token + 1 - 1) with (String.length token) by lia.
  apply substring_prefix.
Qed.

(** X11. The marker [?] at the end of a type token only sets the
    optionality of the result: the token with the marker resolves to the
    static type and the validator of the token without it. As the items
    of an array the two tokens give the same array type: the marker of
    the items is dropped without an error. *)
Theorem optional_marker channels mixins (fuel : nat) (token indent : string)
    (wrapEnums : bool) :
  endsWith token "?" = false ->
  exists r,
    inlineType channels mixins (S fuel) (VStr token) indent wrapEnums = Ok r /\
    optional r = false /\
    inlineType channels mixins (S fuel) (VStr (token ++ "?")) indent wrapEnums
    = Ok {| ts := ts r; scheme := scheme r; optional := true |} /\
    (forall tag more,
        startsWith tag "array" = true ->
        inlineType channels mixins (S (S fuel))
          (VObj (("type", VStr tag) :: ("items", VStr (token ++ "?")) :: more))
          indent wrapEnums
        = inlineType channels mixins (S (S fuel))
            (VObj (("type", VStr tag) :: ("items", VStr token) :: more))
            indent wrapEnums).
Proof.
  intros Hend.
  destruct (inlineString_token channels token) as (r & Hr & Ho & _).
  rewrite Hend in Ho.
  assert (Hq : inlineString channels (token ++ "?")
               = Ok {| ts := ts r; scheme := scheme r; optional := true |}).
  { revert Hr. unfold inlineString.
    rewrite Hend, (endsWith_append token "?"), dropLast_marker.
    repeat match goal with
           | |- context [if ?b then _ else _] => destruct b
           end; try (intros H; injection H as <-; reflexivity).
    destruct (titleCase token); cbn [bind]; intros H; try discriminate.
    injection H as <-. reflexivity. }
  exists r. rewrite !inlineType_S. split; [exact Hr|]. split; [exact Ho|].
  split; [exact Hq|].
  intros tag more Ha. rewrite (inlineType_S _ _ (S fuel)).
  rewrite (inlineType_S _ _ (S fuel) (VObj (_ :: (_, VStr token) :: _))).
  cbn [get lookup bind]. 
  change ("type" =? "type") with true. change ("items" =? "type") with false.
  change ("items" =? "items") with true. cbv iota. cbn [bind]. rewrite Ha.
  cbn [bind]. rewrite !inlineType_S, Hr, Hq. reflexivity.
Qed.

Lemma optional_marker_number :
  inlineType [] [] 1 (VStr "number?") "" false
  = Ok {| ts := "number"; scheme := "tNumber"; optional := true |}.
Proof.
  destruct (optional_marker [] [] 0 "number" "" false eq_refl) as (r & Hr & _ & Hq & _).
  refine (eq_trans Hq _). injection Hr as <-. reflexivity.
Defined.

(** ** The two indexes of the channels that extend a channel *)

Lemma mapSet_fresh {V : Type} (k : value) (v : V) (m : list (value * V)) :
  mapGet k m = None -> mapSet k v m = (m ++ [(k, v)])%list.
Proof.
  induction m as [|[k1 v1] m IH]; cbn [mapGet mapSet app]; [reflexivity|].
  destruct (sameValueZero k k1); [discriminate|]. intros H. now rewrite (IH H).
Qed.

Lemma mapGet_app_None {V : Type} (k : value) (m1 m2 : list (value * V)) :
  mapGet k m1 = None -> mapGet k m2 = None -> mapGet k (m1 ++ m2)%list = None.
Proof.
  induction m1 as [|[k1 v1] m1 IH]; cbn [mapGet app]; [auto|].
  destruct (sameValueZero k k1); [discriminate | exact IH].
Qed.

Lemma register_inherits (name : string) (item : value) (r r' : registries) :
  register (name, item) r = Ok r' ->
  inherits r' = if isChannel item && truthy (field item "extends")
                then mapSet (VStr name) (field item "extends") (inherits r)
                else inherits r.
Proof.
  unfold register, isChannel. intros H.
  apply bind_Ok in H. destruct H as (type & Ht & H). apply get_field in Ht. rewrite Ht.
  apply bind_Ok in H. destruct H as (r1 & H1 & H).
  assert (E : inherits r' = inherits r1).
  { injection H as <-. now destruct (isStr type "mixin"). }
  rewrite E. destruct (isStr type "interface"); cbn [andb].
  - apply bind_Ok in H1. destruct H1 as (ext & He & H1). apply get_field in He.
    rewrite He. now injection H1 as <-.
  - now injection H1 as <-.
Qed.

Lemma register_loop_parents (es : list (string * value)) (r r' : registries) :
  forEach register es r = Ok r' -> NoDup (map fst es) ->
  (forall e, In e es -> mapGet (VStr (fst e)) (inherits r) = None) ->
  inherits r' = (inherits r ++ parents es)%list.
Proof.
  revert r. induction es as [|[name item] es IH]; intros r H Hnd Hfresh; cbn in H.
  - injection H as <-. unfold parents. cbn. now rewrite app_nil_r.
  - apply bind_Ok in H. destruct H as (r1 & H1 & H).
    apply register_inherits in H1. inversion Hnd as [|? ? Hname Hnd']; subst.
    unfold parents. cbn [filter snd].
    destruct (isChannel item && truthy (field item "extends")).
    + rewrite (mapSet_fresh _ _ _ (Hfresh (name, item) (or_introl eq_refl))) in H1.
      rewrite (IH r1 H Hnd'); [rewrite H1, <- app_assoc; reflexivity|].
      intros e He. rewrite H1. apply mapGet_app_None; [apply Hfresh; now right|].
      cbn [mapGet fst]. rewrite sameValueZero_str. cbn [isStr].
      destruct (name =? fst e) eqn:E; [|reflexivity].
      apply String.eqb_eq in E. elim Hname. rewrite E. now apply in_map.
    + rewrite (IH r1 H Hnd'); [now rewrite H1|].
      intros e He. rewrite H1. apply Hfresh. now right.
Qed.

Lemma parents_children (es : list (string * value)) (A : string) :
  map (fun e => toString (fst e)) (filter (fun e => isStr (snd e) A) (parents es))
  = directChildren es A.
Proof.
  unfold parents, directChildren, extendsChannel.
  induction es as [|[name item] es IH]; [reflexivity|]. cbn [filter snd fst].
  destruct (isChannel item && truthy (field item "extends")); cbn [map filter fst snd andb].
  - destruct (isStr (field item "extends") A); cbn [map fst toString]; now rewrite IH.
  - exact IH.
Qed.

(** X12. The script keeps two indexes of the channels that extend a
    channel: [inherits], from which it takes the channels that get an
    alias of each command of [A], and [derivedClasses], from which it
    takes the channels a tracing flag of a command of [A] is recorded
    for. Both give, in the same order, the channels declared with
    [extends: A]. *)
Theorem children_indexes (es : list (string * value)) (r : registries)
    (dc : list (value * list string)) :
  forEach register es noRegistries = Ok r -> forEach derive es [] = Ok dc ->
  NoDup (map fst es) ->
  forall A,
    map (fun e => toString (fst e)) (filter (fun e => isStr (snd e) A) (inherits r))
    = directChildren es A /\
    derivedOf dc A = directChildren es A.
Proof.
  intros Hr Hd Hnd A. split.
  - rewrite (register_loop_parents es _ r Hr Hnd); [|reflexivity].
    cbn [noRegistries inherits app]. apply parents_children.
  - now rewrite (derive_loop es [] dc Hd A).
Qed.

Lemma children_indexes_sample :
  match entries sample with
  | Ok es =>
    match forEach register es noRegistries, forEach derive es [] with
    | Ok r, Ok dc =>
      map (fun e => toString (fst e)) (filter (fun e => isStr (snd e) "A") (inherits r))
      = ["B"] /\
      derivedOf dc "A" = ["B"]
    | _, _ => False
    end
  | _ => False
  end.
Proof.
  cbn [entries sample obj].
  destruct (forEach register _ noRegistries) as [r|e|] eqn:Hr;
    [| vm_compute in Hr; discriminate Hr | vm_compute in Hr; discriminate Hr].
  destruct (forEach derive _ []) as [dc|e|] eqn:Hd;
    [| vm_compute in Hd; discriminate Hd | vm_compute in Hd; discriminate Hd].
  apply (children_indexes _ r dc Hr Hd).
  cbn. repeat constructor; cbn; intuition discriminate.
Defined.

(** ** Where the assignments of the registry come from *)

Section Origins.

Variable Q : string * string -> Prop.

Lemma adds_refl (o : output) : adds Q o o.
Proof. exists []. split; [now rewrite app_nil_r | constructor]. Qed.

Lemma adds_trans (o1 o2 o3 : output) : adds Q o1 o2 -> adds Q o2 o3 -> adds Q o1 o3.
Proof.
  intros (t1 & E1 & F1) (t2 & E2 & F2). exists (t1 ++ t2)%list.
  split; [now rewrite E2, E1, app_assoc | now apply Forall_app].
Qed.

Lemma adds_only (o o' : output) : emitsOnly o o' -> adds Q o o'.
Proof.
  intros (_ & _ & _ & E). exists []. split; [now rewrite app_nil_r | constructor].
Qed.

Lemma adds_addScheme (name s : string) (o : output) :
  Q (name, s) -> adds Q o (addScheme name s o).
Proof. intros H. exists [(name, s)]. split; [reflexivity | now constructor]. Qed.

Lemma adds_all (o o' : output) :
  adds Q o o' -> Forall Q (assignments o) -> Forall Q (assignments o').
Proof. intros (t & -> & F) H. now apply Forall_app. Qed.

End Origins.

Lemma mapSet_In_inv {V : Type} (k k' : value) (v v' : V) (m : list (value * V)) :
  In (k, v) (mapSet k' v' m) -> (k = k' /\ v = v') \/ In (k, v) m.
Proof.
  induction m as [|[k1 v1] m IH]; cbn [mapSet].
  - intros [H|[]]. injection H as <- <-. now left.
  - destruct (sameValueZero k' k1) eqn:E.
    + apply sameValueZero_eq in E. subst k1. intros [H|H].
      * injection H as <- <-. now left.
      * right. now right.
    + intros [H|H]; [right; now left|].
      destruct (IH H) as [?|?]; [now left | right; now right].
Qed.

Lemma register_loop_keys (es : list (string * value)) (r r' : registries) :
  forEach register es r = Ok r' ->
  forall k p, In (k, p) (inherits r') ->
              In (k, p) (inherits r) \/
              exists B item, In (B, item) es /\ k = VStr B /\
                             forall A, isStr p A = true -> extendsChannel item A = true.
Proof.
  revert r. induction es as [|[name item] es IH]; intros r H k p Hin; cbn in H.
  - injection H as <-. now left.
  - apply bind_Ok in H. destruct H as (r1 & H1 & H).
    apply register_inherits in H1.
    destruct (IH r1 H k p Hin) as [Hin1|(B & itemB & HB & -> & Hx)].
    2:{ right. exists B, itemB. split; [now right|]. split; [reflexivity | exact Hx]. }
    rewrite H1 in Hin1.
    destruct (isChannel item && truthy (field item "extends")) eqn:E; [|now left].
    apply mapSet_In_inv in Hin1. destruct Hin1 as [(-> & ->)|Hin1]; [|now left].
    right. exists name, item. split; [now left|]. split; [reflexivity|].
    intros A HA. unfold extendsChannel. now rewrite E, HA.
Qed.

Section Emitted.

Variable es : list (string * value).
Variable fuel : nat.
Variable r : registries.
Variable dc : list (value * list string).
Hypothesis Hregistered : forEach register es noRegistries = Ok r.

Lemma addAliases_adds A item m method t paramsName o o' :
  In (A, item) es -> isChannel item = true -> In (m, method) (commandsOf item) ->
  titleCase m = Ok t -> paramsName = A ++ t ++ "Params" ->
  addAliases r A m paramsName o = Ok o' -> adds (origin es) o o'.
Proof.
  intros HA Hc Hm Ht -> H. unfold addAliases in H. revert H.
  apply (forEach_preorder (adds (origin es))); [apply adds_refl | apply adds_trans|].
  intros [key parent] s s' Hin H.
  destruct (isStr parent A) eqn:Hp; [|injection H as <-; apply adds_refl].
  rewrite Ht in H. cbn [bind] in H. injection H as <-.
  apply adds_addScheme. cbn [origin]. right.
  exists A, item, m, method, t. repeat (split; [assumption|]). right.
  destruct (register_loop_keys es _ r Hregistered key parent Hin)
    as [[]|(B & itemB & HB & -> & Hx)].
  exists B. split; [|split; reflexivity].
  unfold directChildren. apply in_map_iff. exists (B, itemB). split; [reflexivity|].
  apply filter_In. split; [exact HB|]. cbn [snd]. now apply Hx.
Qed.

Lemma emitCommand_adds A item entry st st' :
  In (A, item) es -> isChannel item = true -> In entry (commandsOf item) ->
  emitCommand fuel r dc A entry st = Ok st' -> adds (origin es) (snd st) (snd st').
Proof.
  destruct entry as [m method], st as [ts_types o]. intros HA Hc Hm H.
  apply emitCommand_Ok in H. cbv zeta in H.
  destruct H as (t & parameters & options & returns & o' & Ht & _ & _ & _ & Ha & ->).
  cbn [snd].
  eapply adds_trans; [|apply adds_only, emitsOnly_emit].
  eapply adds_trans;
    [|exact (addAliases_adds A item m method t _ _ _ HA Hc Hm Ht eq_refl Ha)].
  eapply adds_trans; [|apply adds_addScheme].
  - destruct (carries method "pausesBeforeInput"), (carries method "snapshot");
      exists []; (split; [now rewrite app_nil_r | constructor]).
  - cbn [origin]. right. exists A, item, m, method, t.
    repeat (split; [assumption|]). now left.
Qed.

Lemma emitEntity_adds entry o o' :
  In entry es -> emitEntity fuel r dc entry o = Ok o' -> adds (origin es) o o'.
Proof.
  destruct entry as [name item]. unfold emitEntity. intros Hin H.
  apply bind_Ok in H. destruct H as (type & Ht & H). apply get_field in Ht.
  destruct (isStr type "interface") eqn:Hi.
  { apply emitInterface_Ok in H.
    destruct H as (init & events & ts_types & eventTypes & o1 & ts_types' & o2
                   & _ & _ & H1 & H2 & _ & E).
    assert (Hc : isChannel item = true) by (unfold isChannel; now rewrite Ht).
    eapply adds_trans; [|apply adds_only; exact E].
    apply (forEach_preorder (fun s s' => adds (origin es) (snd s) (snd s'))) in H2;
      [| intros; apply adds_refl | intros ? ? ?; apply adds_trans
       | intros c s s' Hcin Hb; exact (emitCommand_adds name item c s s' Hin Hc Hcin Hb) ].
    apply (forEach_preorder (fun s s' => emitsOnly (snd s) (snd s'))) in H1;
      [| intros; apply emitsOnly_refl | intros ? ? ?; apply emitsOnly_trans |].
    2:{ intros [eventName event] [[tt et] s] s' _ Hb. unfold emitEvent in Hb.
        apply bind_Ok in Hb. destruct Hb as (p & _ & Hb).
        apply bind_Ok in Hb. destruct Hb as (parameters & _ & Hb).
        apply bind_Ok in Hb. destruct Hb as (t & _ & Hb). injection Hb as <-.
        cbn [snd]. apply emitsOnly_emit. }
    cbn [snd] in H1, H2.
    eapply adds_trans; [|exact H2].
    apply adds_only.
    eapply emitsOnly_trans; [|apply emitsOnly_emit].
    eapply emitsOnly_trans; [|apply emitsOnly_emit].
    eapply emitsOnly_trans; [|apply emitsOnly_emit].
    eapply emitsOnly_trans; [|exact H1].
    eapply emitsOnly_trans; [|apply emitsOnly_emit].
    eapply emitsOnly_trans; [|apply emitsOnly_emit].
    apply emitsOnly_emit. }
  destruct (isStr type "object") eqn:Ho.
  { apply bind_Ok in H. destruct H as (props & _ & H).
    apply bind_Ok in H. destruct H as (inner & _ & H). injection H as <-.
    eapply adds_trans; [|apply adds_addScheme].
    - apply adds_only. eapply emitsOnly_trans; [|apply emitsOnly_emit]. apply emitsOnly_emit.
    - cbn [origin]. left. exists item. split; [exact Hin|]. left. now rewrite Ht. }
  destruct (isStr type "enum") eqn:He.
  { apply bind_Ok in H. destruct H as (literals & _ & H).
    destruct literals; try discriminate. injection H as <-.
    eapply adds_trans; [|apply adds_addScheme].
    - apply adds_only, emitsOnly_emit.
    - cbn [origin]. left. exists item. split; [exact Hin|]. right. now rewrite Ht. }
  injection H as <-. apply adds_refl.
Qed.

End Emitted.

(** X13. The validator registry holds nothing but the validators of the
    objects and the enums of the document, under their names, and of the
    parameters of the commands: every assignment [scheme.name = s] of the
    generated [validator.ts] has for [name] an entity of type [object] or
    [enum], or the Params type of a command of a channel, or the Params
    type of that command under the name of a channel that directly
    extends the channel, [s] then being the lookup of the former. No
    validator is registered for an initializer, an event, the options or
    the result of a command. *)
Theorem registry_origins (fuel : nat) (protocol : value) (o : output)
    (es : list (string * value)) :
  generate fuel protocol = Ok o -> entries protocol = Ok es ->
  Forall (origin es) (assignments o) /\
  validator_ts o
  = validatorHeader
    :: push (flat_map (fun a => schemeLines (fst a) (snd a)) (assignments o))
            (nl ++ "  return scheme;" ++ nl ++ "}" ++ nl).
Proof.
  intros G Hes. split; [|now apply (validator_ts_assignments fuel protocol)].
  unfold generate in G. rewrite Hes in G. cbn [bind] in G.
  apply bind_Ok in G. destruct G as (r & Hr & G).
  apply bind_Ok in G. destruct G as (dc & _ & G).
  apply bind_Ok in G. destruct G as (o1 & H1 & G).
  apply bind_Ok in G. destruct G as (o2 & H2 & G).
  injection G as <-. cbn [finish emit assignments].
  apply emitTraits_only in H1.
  apply (forEach_preorder (adds (origin es))) in H2;
    [| apply adds_refl | apply adds_trans
     | intros x s s' Hx Hb; exact (emitEntity_adds es fuel r dc Hr x s s' Hx Hb) ].
  apply (adds_all _ o1 o2 H2).
  destruct H1 as (_ & _ & _ & ->). constructor.
Qed.

(** X13 on the sample document. *)
Lemma registry_origins_sample :
  match result (generate 10 sample), entries sample with
  | Some o, Ok es =>
    Forall (origin es) (assignments o) /\
    map fst (assignments o)
    = ["Point"; "Kind"; "AFooParams"; "BFooParams"; "ABarParams"; "BBarParams"]
  | _, _ => False
  end.
Proof.
  destruct (generate 10 sample) as [o|e|] eqn:G;
    [| vm_compute in G; discriminate G | vm_compute in G; discriminate G].
  cbn [result entries sample obj].
  destruct (registry_origins 10 sample o _ G eq_refl) as [H _].
  split; [exact H|]. vm_compute in G. injection G as <-. reflexivity.
Defined.

(** ** The block of a channel *)

Lemma titleCase_capitalize (name t : string) : titleCase name = Ok t -> capitalize name = t.
Proof. unfold capitalize. now intros ->. Qed.

Lemma fold_emit (A : Type) (step : output -> A -> output) (line : A -> string)
    (l : list A) (o : output) :
  (forall o x, step o x = emit (line x) o) ->
  channels_ts (fold_left step l o) = (channels_ts o ++ map line l)%list.
Proof.
  intros Hstep. revert o. induction l as [|x l IH]; intros o; cbn [fold_left map].
  - now rewrite app_nil_r.
  - rewrite IH, Hstep. cbn [emit channels_ts]. unfold push. now rewrite <- app_assoc.
Qed.

Lemma setType_keyed (n v : string) (types : list (string * string)) :
  exists types',
    setType n v (keyed types) = keyed types' /\
    ((In n (map fst types) /\ map fst types' = map fst types) \/
     (~ In n (map fst types) /\ map fst types' = (map fst types ++ [n])%list)).
Proof.
  unfold setType. induction types as [|[k x] types (types' & E & H)].
  - exists [(n, v)]. split; [reflexivity|]. right. split; [intros [] | reflexivity].
  - cbn [keyed map mapSet fst snd]. rewrite sameValueZero_str. cbn [isStr].
    destruct (k =? n) eqn:Ek.
    + apply String.eqb_eq in Ek. subst k. exists ((n, v) :: types).
      split; [reflexivity|]. left. split; [now left | reflexivity].
    + apply String.eqb_neq in Ek. exists ((k, x) :: types'). fold (keyed types). rewrite E.
      split; [reflexivity|]. cbn [map fst].
      destruct H as [(Hin & ->)|(Hin & ->)].
      * left. split; [now right | reflexivity].
      * right. split; [|reflexivity]. intros [H|H]; [now apply Ek | now apply Hin].
Qed.

Lemma typesOver_setType (names : list string) (ts_types : list (value * string))
    (n v : string) :
  typesOver names ts_types -> typesOver (app names [n]) (setType n v ts_types).
Proof.
  intros (types & -> & Hnd & Hk).
  destruct (setType_keyed n v types) as (types' & E & H).
  exists types'. split; [exact E|].
  destruct H as [(Hin & Hf)|(Hin & Hf)]; rewrite Hf.
  - split; [exact Hnd|]. intros x. rewrite in_app_iff, <- Hk. cbn.
    intuition (subst; auto).
  - split.
    + apply NoDup_app; [exact Hnd | repeat constructor; intros [] |].
      intros x Hx [<-|[]]. now apply Hin.
    + intros x. rewrite !in_app_iff, <- Hk. tauto.
Qed.

Lemma typesOver_names (names names' : list string) (ts_types : list (value * string)) :
  (forall n, In n names <-> In n names') -> typesOver names ts_types ->
  typesOver names' ts_types.
Proof.
  intros H (types & E & Hnd & Hk). exists types. split; [exact E|]. split; [exact Hnd|].
  intros n. now rewrite Hk.
Qed.

Lemma emitEvent_Ok fuel r A e event ts_types eventTypes o st' :
  emitEvent fuel r A (e, event) (ts_types, eventTypes, o) = Ok st' ->
  exists parameters,
    st' = (setType (A ++ capitalize e ++ "Event") (ts_lines parameters) ts_types,
           push eventTypes (e, A ++ capitalize e ++ "Event"),
           emit (onLine A (e, event)) o).
Proof.
  unfold emitEvent. intros H.
  apply bind_Ok in H. destruct H as (p & _ & H).
  apply bind_Ok in H. destruct H as (parameters & _ & H).
  apply bind_Ok in H. destruct H as (t & Ht & H). injection H as <-.
  exists parameters. unfold onLine. cbn [fst]. now rewrite (titleCase_capitalize e t Ht).
Qed.

Lemma emitEvent_loop fuel r A (events : list (string * value)) :
  forall ts_types eventTypes o ts_types' eventTypes' o',
    forEach (emitEvent fuel r A) events (ts_types, eventTypes, o)
    = Ok (ts_types', eventTypes', o') ->
    channels_ts o' = (channels_ts o ++ map (onLine A) events)%list /\
    eventTypes'
    = app eventTypes (map (fun e => (fst e, A ++ capitalize (fst e) ++ "Event")) events) /\
    forall names,
      typesOver names ts_types ->
      typesOver (app names (map (fun e => A ++ capitalize (fst e) ++ "Event") events))
                ts_types'.
Proof.
  induction events as [|[e event] events IH]; intros tt et o tt' et' o' H; cbn in H.
  - injection H as <- <- <-. cbn [map]. rewrite !app_nil_r. repeat split.
    intros names. now rewrite app_nil_r.
  - apply bind_Ok in H. destruct H as ([[tt1 et1] o1] & H1 & H).
    apply emitEvent_Ok in H1. destruct H1 as (parameters & H1). injection H1 as -> -> ->.
    destruct (IH _ _ _ _ _ _ H) as (Hc & He & Ht). split; [|split].
    + rewrite Hc. cbn [emit channels_ts map]. unfold push. now rewrite <- app_assoc.
    + rewrite He. unfold push. cbn [map fst]. now rewrite <- app_assoc.
    + intros names Hn. cbn [map fst].
      eapply typesOver_names; [|apply Ht; apply typesOver_setType; exact Hn].
      intros n. rewrite <- app_assoc. reflexivity.
Qed.

Lemma addAliases_channels r channelName methodName paramsName o o' :
  addAliases r channelName methodName paramsName o = Ok o' ->
  channels_ts o' = channels_ts o.
Proof.
  unfold addAliases.
  apply (forEach_preorder (fun s s' => channels_ts s' = channels_ts s));
    [reflexivity | intros ? ? ? H1 H2; now rewrite H2 |].
  intros [key parent] s s' _ H.
  destruct (isStr parent channelName); [|now injection H as <-].
  apply bind_Ok in H. destruct H as (t & _ & H). now injection H as <-.
Qed.

Lemma emitCommand_loop fuel r dc A (commands : list (string * value)) :
  forall ts_types o ts_types' o',
    forEach (emitCommand fuel r dc A) commands (ts_types, o) = Ok (ts_types', o') ->
    channels_ts o' = (channels_ts o ++ map (signature A) commands)%list /\
    forall names,
      typesOver names ts_types ->
      typesOver (app names
                     (flat_map (fun c => [A ++ capitalize (fst c) ++ "Params";
                                          A ++ capitalize (fst c) ++ "Options";
                                          A ++ capitalize (fst c) ++ "Result"])
                               commands))
                ts_types'.
Proof.
  induction commands as [|[m method] commands IH]; intros tt o tt' o' H; cbn in H.
  - injection H as <- <-. cbn [map flat_map]. rewrite app_nil_r. split; [reflexivity|].
    intros names. now rewrite app_nil_r.
  - apply bind_Ok in H. destruct H as ([tt1 o1] & H1 & H).
    apply emitCommand_Ok in H1. cbv zeta in H1.
    destruct H1 as (t & parameters & options & returns & oa & Ht & _ & _ & _ & Ha & H1).
    injection H1 as -> ->. apply addAliases_channels in Ha.
    apply titleCase_capitalize in Ht. subst t.
    destruct (IH _ _ _ _ H) as (Hc & Hn). split.
    + rewrite Hc. cbn [emit channels_ts map]. unfold push. rewrite Ha.
      cbn [addScheme channels_ts].
      assert (E : forall o0 : output,
                 channels_ts (if carries method "pausesBeforeInput"
                              then pushPauses (recordedBy dc A m)
                                     (if carries method "snapshot"
                                      then pushSnapshots (recordedBy dc A m) o0 else o0)
                              else if carries method "snapshot"
                                   then pushSnapshots (recordedBy dc A m) o0 else o0)
                 = channels_ts o0).
      { intros o0. now destruct (carries method "pausesBeforeInput"),
                     (carries method "snapshot"). }
      rewrite E, <- app_assoc. reflexivity.
    + intros names Hnames. cbn [flat_map fst].
      eapply typesOver_names; [|apply Hn; repeat apply typesOver_setType; exact Hnames].
      intros n. rewrite <- !app_assoc. reflexivity.
Qed.

Lemma keyed_In (k v : string) (types : list (string * string)) :
  In (VStr k, v) (keyed types) -> In (k, v) types.
Proof.
  unfold keyed. intros H. apply in_map_iff in H. destruct H as ([k' v'] & E & H).
  cbn [fst snd] in E. now injection E as <- <-.
Qed.

Lemma setType_In (n v : string) (ts_types : list (value * string)) :
  In (VStr n, v) (setType n v ts_types).
Proof. apply mapSet_In_str. Qed.

Lemma setType_In_other (n v k x : string) (ts_types : list (value * string)) :
  In (VStr k, x) ts_types -> n <> k -> In (VStr k, x) (setType n v ts_types).
Proof.
  intros H Hne. apply mapSet_In_other; [exact H|].
  rewrite sameValueZero_str. cbn [isStr]. apply String.eqb_neq. congruence.
Qed.

(** What the loop over the commands leaves in [ts_types] when the names of
    their types are pairwise distinct: the entries under other names, and
    for each command its Params and its Options type. *)
Lemma emitCommand_loop_types fuel r dc A (commands : list (string * value)) :
  forall ts_types o ts_types' o',
    forEach (emitCommand fuel r dc A) commands (ts_types, o) = Ok (ts_types', o') ->
    NoDup (flat_map (fun c => [A ++ capitalize (fst c) ++ "Params";
                               A ++ capitalize (fst c) ++ "Options";
                               A ++ capitalize (fst c) ++ "Result"]) commands) ->
    (forall k x, In (VStr k, x) ts_types ->
                 ~ In k (flat_map (fun c => [A ++ capitalize (fst c) ++ "Params";
                                             A ++ capitalize (fst c) ++ "Options";
                                             A ++ capitalize (fst c) ++ "Result"]) commands) ->
                 In (VStr k, x) ts_types') /\
    forall m method, In (m, method) commands ->
      exists params options,
        objectType (channels r) (mixins r) fuel
                   (orElse (field method "parameters") (VObj [])) "" false = Ok params /\
        objectType (channels r) (mixins r) fuel
                   (orElse (field method "parameters") (VObj [])) "" true = Ok options /\
        In (VStr (A ++ capitalize m ++ "Params"), ts_lines params) ts_types' /\
        In (VStr (A ++ capitalize m ++ "Options"), ts_lines options) ts_types'.
Proof.
  induction commands as [|[m method] commands IH]; intros tt o tt' o' H Hnd; cbn in H.
  - injection H as <- <-. split; [auto | intros ? ? []].
  - apply bind_Ok in H. destruct H as ([tt1 o1] & H1 & H).
    apply emitCommand_Ok in H1. cbv zeta in H1.
    destruct H1 as (t & parameters & options & returns & oa & Ht & Hp & Ho & _ & _ & H1).
    injection H1 as -> ->. apply titleCase_capitalize in Ht. subst t.
    cbn [flat_map fst app] in Hnd |- *.
    inversion Hnd as [|? ? NP Hnd1]; subst. inversion Hnd1 as [|? ? NO Hnd2]; subst.
    inversion Hnd2 as [|? ? NR Hnd3]; subst.
    destruct (IH _ _ _ _ H Hnd3) as (Hkeep & Hcmd). split.
    + intros k x Hin Hk. apply Hkeep; [|intros F; apply Hk; now do 3 right].
      repeat apply setType_In_other; auto; intros <-; apply Hk; cbn; auto.
    + intros m' method' [E|Hin]; [|now apply Hcmd].
      injection E as <- <-. exists parameters, options.
      split; [exact Hp|]. split; [exact Ho|]. split.
      * apply Hkeep; [|intros F; apply NP; now do 2 right].
        apply setType_In_other; [apply setType_In_other; [apply setType_In|]|];
          intros E; apply NP; rewrite <- E; cbn; auto.
      * apply Hkeep; [|intros F; apply NO; now right].
        apply setType_In_other; [apply setType_In|]. intros E. apply NO.
        rewrite <- E. now left.
Qed.

Lemma emitInterface_block fuel r dc A item o o' :
  emitInterface fuel r dc A item o = Ok o' ->
  exists init types,
    objectType (channels r) (mixins r) fuel (orElse (field item "initializer") (VObj [])) ""
               false = Ok init /\
    channels_ts o' = (channels_ts o ++ channelBlock A item (ts_lines init) types)%list /\
    NoDup (map fst types) /\
    (forall n, In n (map fst types) <-> In n (typeNames A item)) /\
    (NoDup (typeNames A item) ->
     forall m method, In (m, method) (commandsOf item) ->
       exists params options,
         objectType (channels r) (mixins r) fuel
                    (orElse (field method "parameters") (VObj [])) "" false = Ok params /\
         objectType (channels r) (mixins r) fuel
                    (orElse (field method "parameters") (VObj [])) "" true = Ok options /\
         In (A ++ capitalize m ++ "Params", ts_lines params) types /\
         In (A ++ capitalize m ++ "Options", ts_lines options) types).
Proof.
  unfold emitInterface. intros H.
  apply bind_Ok in H. destruct H as (i & Hi & H). apply get_field in Hi. subst i.
  apply bind_Ok in H. destruct H as (init & Hinit & H).
  apply bind_Ok in H. destruct H as (evs & Hevs & H). apply get_field in Hevs. subst evs.
  apply bind_Ok in H. destruct H as (events & Hevents & H).
  apply bind_Ok in H. destruct H as ([[tt1 et1] o1] & Hloop1 & H).
  apply bind_Ok in H. destruct H as (ext & Hext & H). apply get_field in Hext. subst ext.
  apply bind_Ok in H. destruct H as (cmds & Hcmds & H). apply get_field in Hcmds. subst cmds.
  apply bind_Ok in H. destruct H as (commands & Hcommands & H).
  apply bind_Ok in H. destruct H as ([tt2 o2] & Hloop2 & H).
  injection H as <-.
  pose proof (emitCommand_loop_types _ _ _ _ _ _ _ _ _ Hloop2) as Htypes.
  apply emitEvent_loop in Hloop1. destruct Hloop1 as (Hc1 & He1 & Ht1).
  cbn [app] in He1.
  apply emitCommand_loop in Hloop2. destruct Hloop2 as (Hc2 & Ht2).
  assert (Hover : typesOver [] []) by (exists []; repeat split; [constructor | easy | easy]).
  destruct (Ht2 _ (Ht1 _ Hover)) as (types & -> & Hnd & Hk).
  exists init, types. split; [exact Hinit|]. split; [|split; [exact Hnd|split]].
  - cbn [emit channels_ts]. unfold push.
    rewrite (fold_emit _ _ (fun e => "  '" ++ fst e ++ "': " ++ snd e ++ ";"))
      by (intros ? []; reflexivity).
    cbn [emit channels_ts]. unfold push.
    rewrite (fold_emit _ _ (fun t => "export type " ++ toString (fst t) ++ " = " ++ snd t ++ ";"))
      by (intros ? []; reflexivity).
    cbn [emit channels_ts]. unfold push.
    rewrite Hc2. cbn [emit channels_ts]. unfold push. rewrite Hc1.
    cbn [emit channels_ts]. unfold push. rewrite He1.
    unfold channelBlock, parentName, eventsOf, commandsOf. rewrite Hevents, Hcommands.
    unfold keyed. rewrite !map_map. cbn [app fst snd toString].
    rewrite <- !app_assoc. cbn [app]. reflexivity.
  - intros n. rewrite Hk. unfold typeNames, eventsOf, commandsOf.
    rewrite Hevents, Hcommands. reflexivity.
  - intros Hdistinct m method Hin. unfold typeNames, commandsOf in Hdistinct.
    unfold commandsOf in Hin. rewrite Hcommands in Hdistinct, Hin.
    apply NoDup_app_remove_l in Hdistinct.
    destruct (proj2 (Htypes Hdistinct) m method Hin) as (params & options & Hp & Ho & Ip & Io).
    exists params, options. split; [exact Hp|]. split; [exact Ho|].
    split; now apply keyed_In.
Qed.

Lemma exportLine_In A item init types (type : string * string) :
  In type types -> In (exportLine type) (channelBlock A item init types).
Proof.
  intros H. unfold channelBlock.
  do 5 (apply in_or_app; right). apply in_or_app. left. now apply in_map.
Qed.

(** In a run that returns, every entity has been emitted, and what was
    pushed then is in the output. *)
Lemma generate_entity fuel protocol o es name item :
  generate fuel protocol = Ok o -> entries protocol = Ok es -> In (name, item) es ->
  exists r dc s1 s2,
    forEach register es noRegistries = Ok r /\
    emitEntity fuel r dc (name, item) s1 = Ok s2 /\
    grows s2 o.
Proof.
  unfold generate. intros H Hes Hin. rewrite Hes in H. cbn [bind] in H.
  apply bind_Ok in H. destruct H as (r & Hr & H).
  apply bind_Ok in H. destruct H as (dc & _ & H).
  apply bind_Ok in H. destruct H as (o1 & _ & H).
  apply bind_Ok in H. destruct H as (o2 & H2 & H).
  injection H as <-.
  destruct (forEach_In grows _ grows_refl grows_trans es
              (fun x s s' _ Hb => emitEntity_grows fuel r dc x s s' Hb)
              o1 o2 (name, item) H2 Hin) as (s1 & s2 & _ & Hb & G2).
  exists r, dc, s1, s2. split; [exact Hr|]. split; [exact Hb|].
  eapply grows_trans; [exact G2|].
  eapply grows_trans; [|apply grows_finish].
  eapply grows_trans; [|apply grows_emit].
  eapply grows_trans; [|apply grows_emit].
  apply grows_emit.
Qed.

(** ** The Options type of a command *)

(** C6. When the Params type of a property list is generated, so is its
    Options type; the entries of the Params type are the entries of the
    expanded list, in order, and the entries of the Options type are
    those of them that are optional, in the same order and with the same
    lines, so with the same types. And in a run that returns, for every
    command of a channel whose type names are pairwise distinct, the
    channel block declares under the Params name of the command the type
    [objectType] gives for its parameters, and under its Options name the
    projection [objectType] gives for them: the line
    [export type AMethodOptions = ...;] of [channels.ts] holds that
    projection, and each name is declared once. *)
Theorem options_projection :
  (forall channels mixins fuel props indent params,
      objectType channels mixins fuel props indent false = Ok params ->
      exists n flat rs options,
        expandMixins mixins n props = Ok flat /\
        resolveEach channels mixins n (indent ++ "  ") flat = Ok rs /\
        map fst rs = map fst flat /\
        objectType channels mixins fuel props indent true = Ok options /\
        ts_lines params = objectShape props indent (map (tsLine (indent ++ "  ")) rs) /\
        ts_lines options
        = objectShape props indent
            (map (tsLine (indent ++ "  ")) (filter (fun r => optional (snd r)) rs)) /\
        Forall (fun r => tsLine (indent ++ "  ") r
                         = (indent ++ "  ") ++ fst r ++ "?: " ++ ts (snd r) ++ ",")
               (filter (fun r => optional (snd r)) rs)) /\
  (forall fuel protocol o es A item m method,
      generate fuel protocol = Ok o -> entries protocol = Ok es ->
      In (A, item) es -> isChannel item = true -> In (m, method) (commandsOf item) ->
      NoDup (typeNames A item) ->
      exists r params options init types before after,
        forEach register es noRegistries = Ok r /\
        objectType (channels r) (mixins r) fuel
                   (orElse (field method "parameters") (VObj [])) "" false = Ok params /\
        objectType (channels r) (mixins r) fuel
                   (orElse (field method "parameters") (VObj [])) "" true = Ok options /\
        channels_ts o = app before (app (channelBlock A item init types) after) /\
        NoDup (map fst types) /\
        In (A ++ capitalize m ++ "Params", ts_lines params) types /\
        In (A ++ capitalize m ++ "Options", ts_lines options) types /\
        In (exportLine (A ++ capitalize m ++ "Options", ts_lines options)) (channels_ts o)).
Proof.
  split; [exact objectType_projection|].
  intros fuel protocol o es A item m method G Hes Hin Hc Hm Hdistinct.
  destruct (generate_entity fuel protocol o es A item G Hes Hin)
    as (r & dc & s1 & s2 & Hr & Hb & Hg).
  unfold emitEntity in Hb. apply bind_Ok in Hb. destruct Hb as (type & Ht & Hb).
  apply get_field in Ht. pose proof Hc as Hc'. unfold isChannel in Hc'.
  rewrite Ht in Hc'. rewrite Hc' in Hb.
  apply emitInterface_block in Hb.
  destruct Hb as (init & types & _ & Hb & Hnd & _ & Htypes).
  destruct (Htypes Hdistinct m method Hm) as (params & options & Hp & Ho & Ip & Io).
  destruct (grows_channels _ _ Hg) as (after & Ha).
  exists r, params, options, (ts_lines init), types, (channels_ts s1), after.
  assert (E : channels_ts o
              = app (channels_ts s1) (app (channelBlock A item (ts_lines init) types) after)).
  { rewrite Ha, Hb. unfold push. now rewrite <- app_assoc. }
  repeat (split; [assumption|]).
  rewrite E. apply in_or_app. right. apply in_or_app. left. now apply exportLine_In.
Qed.

(** C6 on a property list that splices a mixin which splices another,
    and on the command [foo] of the channel [A] of the sample document. *)
Lemma options_projection_on_samples :
  match result (objectType [] layered 10 layeredProps "" false) with
  | Some params =>
    exists n flat rs options,
      expandMixins layered n layeredProps = Ok flat /\
      resolveEach [] layered n ("" ++ "  ") flat = Ok rs /\
      map fst rs = map fst flat /\
      objectType [] layered 10 layeredProps "" true = Ok options /\
      ts_lines params = objectShape layeredProps "" (map (tsLine ("" ++ "  ")) rs) /\
      ts_lines options
      = objectShape layeredProps ""
          (map (tsLine ("" ++ "  ")) (filter (fun r => optional (snd r)) rs)) /\
      Forall (fun r => tsLine ("" ++ "  ") r
                       = ("" ++ "  ") ++ fst r ++ "?: " ++ ts (snd r) ++ ",")
             (filter (fun r => optional (snd r)) rs)
  | None => False
  end /\
  match result (generate 10 sample), entries sample with
  | Some o, Ok es =>
    exists init types before after,
      channels_ts o = app before (app (channelBlock "A" (lookup "A" es) init types) after) /\
      NoDup (map fst types) /\
      In ("AFooParams", "{
  timeout?: number,
  p: Point,
  q?: Kind[],
}") types /\
      In ("AFooOptions", "{
  timeout?: number,
  q?: Kind[],
}") types /\
      In "export type AFooOptions = {
  timeout?: number,
  q?: Kind[],
};" (channels_ts o)
  | _, _ => False
  end.
Proof.
  split.
  - destruct (objectType [] layered 10 layeredProps "" false) as [params|e|] eqn:E;
      [| vm_compute in E; discriminate E | vm_compute in E; discriminate E].
    exact (proj1 options_projection [] layered 10 layeredProps "" params E).
  - destruct (generate 10 sample) as [o|e|] eqn:G;
      [| vm_compute in G; discriminate G | vm_compute in G; discriminate G].
    cbn [result entries sample obj].
    destruct (proj2 options_projection 10 sample o _ "A"
                (lookup "A" (match entries sample with Ok es => es | _ => [] end))
                "foo"
                (lookup "foo" (commandsOf
                   (lookup "A" (match entries sample with Ok es => es | _ => [] end))))
                G eq_refl)
      as (r & params & options & init & types & before & after
          & Hr & Hp & Ho & Hb & Hnd & Ip & Io & Il).
    + cbn. right. right. right. left. reflexivity.
    + reflexivity.
    + cbn. left. reflexivity.
    + vm_compute. repeat constructor; cbn; intuition discriminate.
    + vm_compute in Hr. injection Hr as <-.
      vm_compute in Hp. injection Hp as <-.
      vm_compute in Ho. injection Ho as <-.
      exists init, types, before, after.
      split; [exact Hb|]. split; [exact Hnd|]. split; [exact Ip|]. split; [exact Io|].
      exact Il.
Defined.

(** X14. The block of a channel [A] in the generated [channels.ts]: its
    title, the type of its initializer, the interface [AEventTarget] with
    one handler for each event, the interface [AChannel], which extends
    [AEventTarget] and the interface of the channel [A] extends (or
    [Channel]), with one method for each command, the declarations of the
    types of the channel, and the interface [AEvents] with one entry for
    each event, all in the order of the document. The types declared are
    those of the events and the Params, the Options and the Result of the
    commands, each declared once. *)
Theorem channel_block (fuel : nat) (protocol : value) (o : output)
    (es : list (string * value)) (A : string) (item : value) :
  generate fuel protocol = Ok o -> entries protocol = Ok es ->
  In (A, item) es -> isChannel item = true ->
  exists r init types before after,
    forEach register es noRegistries = Ok r /\
    objectType (channels r) (mixins r) fuel (orElse (field item "initializer") (VObj [])) ""
               false = Ok init /\
    channels_ts o = app before (app (channelBlock A item (ts_lines init) types) after) /\
    NoDup (map fst types) /\
    (forall n, In n (map fst types) <-> In n (typeNames A item)) /\
    (forall parent, extendsChannel item parent = true -> parentName item = parent) /\
    (truthy (field item "extends") = false -> parentName item = "").
Proof.
  intros G Hes Hin Hc.
  destruct (generate_entity fuel protocol o es A item G Hes Hin)
    as (r & dc & s1 & s2 & Hr & Hb & Hg).
  unfold emitEntity in Hb. apply bind_Ok in Hb. destruct Hb as (type & Ht & Hb).
  apply get_field in Ht. pose proof Hc as Hc'. unfold isChannel in Hc'.
  rewrite Ht in Hc'. rewrite Hc' in Hb.
  apply emitInterface_block in Hb. destruct Hb as (init & types & Hi & Hb & Hnd & Hk & _).
  destruct (grows_channels _ _ Hg) as (after & Ha).
  exists r, init, types, (channels_ts s1), after.
  split; [exact Hr|]. split; [exact Hi|].
  split; [now rewrite Ha, Hb, <- app_assoc|].
  split; [exact Hnd|]. split; [exact Hk|]. unfold parentName, orElse. split.
  - intros parent Hx. unfold extendsChannel in Hx.
    apply andb_prop in Hx. destruct Hx as [Hx Hs]. apply andb_prop in Hx.
    destruct Hx as [_ Hx]. rewrite Hx. apply isStr_eq in Hs. now rewrite Hs.
  - now intros ->.
Qed.

(** X14 on the channel [A] of the sample document. *)
Lemma channel_block_sample :
  match result (generate 10 sample), entries sample with
  | Some o, Ok es =>
    exists types before after,
      channels_ts o
      = app before
          (app (channelBlock "A" (lookup "A" es) ("{" ++ nl ++ "  name: string," ++ nl ++ "}")
                             types)
               after) /\
      NoDup (map fst types) /\
      (forall n, In n (map fst types)
                 <-> In n ["APingEvent"; "AFooParams"; "AFooOptions"; "AFooResult";
                           "ABarParams"; "ABarOptions"; "ABarResult"]) /\
      parentName (lookup "A" es) = "" /\ parentName (lookup "B" es) = "A"
  | _, _ => False
  end.
Proof.
  destruct (generate 10 sample) as [o|e|] eqn:G;
    [| vm_compute in G; discriminate G | vm_compute in G; discriminate G].
  cbn [result entries sample obj].
  destruct (channel_block 10 sample o _ "A" (lookup "A" (match entries sample with
                                                           | Ok es => es | _ => [] end))
              G eq_refl)
    as (r & init & types & before & after & Hr & Hi & Hb & Hnd & Hk & _ & Hp).
  - cbn. right. right. right. left. reflexivity.
  - reflexivity.
  - exists types, before, after.
    split; [|split; [exact Hnd | split; [exact Hk | split; [now apply Hp | reflexivity]]]].
    rewrite Hb. vm_compute in Hr. injection Hr as <-.
    vm_compute in Hi. injection Hi as <-. reflexivity.
Defined.

(** X15. In a run that returns, every entity of type [object] has its
    type declared in [channels.ts] and its validator registered under its
    name, both as [objectType] gives them for its properties; and every
    entity of type [enum] has for its type the union of its quoted
    literals and for its validator [tEnum] of the list of them. *)
Theorem entity_types (fuel : nat) (protocol : value) (o : output)
    (es : list (string * value)) (name : string) (item : value) :
  generate fuel protocol = Ok o -> entries protocol = Ok es -> In (name, item) es ->
  (isStr (field item "type") "object" = true ->
   exists r inner,
     forEach register es noRegistries = Ok r /\
     objectType (channels r) (mixins r) fuel (field item "properties") "" false = Ok inner /\
     In ("export type " ++ name ++ " = " ++ ts_lines inner ++ ";") (channels_ts o) /\
     In (name, scheme_lines inner) (assignments o)) /\
  (isStr (field item "type") "enum" = true ->
   exists literals,
     field item "literals" = VArr literals /\
     In ("export type " ++ name ++ " = " ++ join " | " (map quoted literals) ++ ";")
        (channels_ts o) /\
     In (name, "tEnum([" ++ join ", " (map quoted literals) ++ "])") (assignments o)).
Proof.
  intros G Hes Hin.
  destruct (generate_entity fuel protocol o es name item G Hes Hin)
    as (r & dc & s1 & s2 & Hr & Hb & Hg).
  unfold emitEntity in Hb. apply bind_Ok in Hb. destruct Hb as (type & Ht & Hb).
  apply get_field in Ht. rewrite Ht.
  split; intros Hty; apply isStr_eq in Hty; rewrite Hty in Hb.
  - cbn [isStr] in Hb. change ("object" =? "interface") with false in Hb.
    change ("object" =? "object") with true in Hb. cbv iota in Hb.
    apply bind_Ok in Hb. destruct Hb as (props & Hp & Hb). apply get_field in Hp. subst props.
    apply bind_Ok in Hb. destruct Hb as (inner & Hi & Hb). injection Hb as <-.
    exists r, inner. split; [exact Hr|]. split; [exact Hi|]. split.
    + apply (pushed_In _ _ _ (grows_channels _ _ Hg)).
      cbn [addScheme emit channels_ts]. unfold push.
      apply in_or_app. left. apply in_or_app. right. now left.
    + apply (pushed_In _ _ _ (grows_assignments _ _ Hg)).
      cbn [addScheme emit assignments]. unfold push. apply in_or_app. right. now left.
  - cbn [isStr] in Hb. change ("enum" =? "interface") with false in Hb.
    change ("enum" =? "object") with false in Hb.
    change ("enum" =? "enum") with true in Hb. cbv iota in Hb.
    apply bind_Ok in Hb. destruct Hb as (literals & Hl & Hb). apply get_field in Hl.
    destruct literals as [| | | | |literals|]; try discriminate. injection Hb as <-.
    exists literals. split; [exact Hl|]. split.
    + apply (pushed_In _ _ _ (grows_channels _ _ Hg)).
      cbn [addScheme emit channels_ts]. unfold push. apply in_or_app. right. now left.
    + apply (pushed_In _ _ _ (grows_assignments _ _ Hg)).
      cbn [addScheme emit assignments]. unfold push. apply in_or_app. right. now left.
Qed.

(** X15 on the object [Point] and the enum [Kind] of the sample document. *)
Lemma entity_types_sample :
  match result (generate 10 sample) with
  | Some o =>
    In ("export type Point = {" ++ nl ++ "  x: number," ++ nl ++ "  y?: number," ++ nl ++ "};")
       (channels_ts o) /\
    In ("Point", "tObject({" ++ nl ++ "  x: tNumber," ++ nl ++ "  y: tOptional(tNumber),"
                   ++ nl ++ "})")
       (assignments o) /\
    In "export type Kind = 'a' | 'b';" (channels_ts o) /\
    In ("Kind", "tEnum(['a', 'b'])") (assignments o)
  | None => False
  end.
Proof.
  destruct (generate 10 sample) as [o|e|] eqn:G;
    [| vm_compute in G; discriminate G | vm_compute in G; discriminate G].
  cbn [result].
  destruct (entity_types 10 sample o _ "Point" (lookup "Point" (match entries sample with
                                                                   | Ok es => es | _ => [] end))
              G eq_refl) as [Hobj _]; [cbn; left; reflexivity|].
  destruct (entity_types 10 sample o _ "Kind" (lookup "Kind" (match entries sample with
                                                                 | Ok es => es | _ => [] end))
              G eq_refl) as [_ Henum]; [cbn; right; left; reflexivity|].
  destruct (Hobj eq_refl) as (r & inner & Hr & Hi & H1 & H2).
  destruct (Henum eq_refl) as (literals & Hl & H3 & H4).
  vm_compute in Hr. injection Hr as <-. vm_compute in Hi. injection Hi as <-.
  vm_compute in Hl. injection Hl as <-.
  repeat split; assumption.
Defined.

(** ** Enums in arrays *)


(** ** The mixins a property list can splice *)

Lemma register_mixins (name : string) (item : value) (r r' : registries) :
  register (name, item) r = Ok r' ->
  mixins r' = if isStr (field item "type") "mixin"
              then mapSet (VStr name) item (mixins r) else mixins r.
Proof.
  unfold register. intros H.
  apply bind_Ok in H. destruct H as (type & Ht & H). apply get_field in Ht. rewrite Ht.
  apply bind_Ok in H. destruct H as (r1 & H1 & H).
  assert (E : mixins r1 = mixins r).
  { destruct (isStr type "interface"); [|now injection H1 as <-].
    apply bind_Ok in H1. destruct H1 as (ext & _ & H1). now injection H1 as <-. }
  injection H as <-. destruct (isStr type "mixin"); cbn [mixins]; now rewrite E.
Qed.

Lemma register_loop_other (es : list (string * value)) (r r' : registries) (name : string) :
  forEach register es r = Ok r' -> ~ In name (map fst es) ->
  mapGet (VStr name) (mixins r') = mapGet (VStr name) (mixins r).
Proof.
  revert r. induction es as [|[n item] es IH]; intros r H Hn; cbn in H.
  - now injection H as <-.
  - apply bind_Ok in H. destruct H as (r1 & H1 & H).
    rewrite (IH r1 H); [|intros Hin; apply Hn; now right].
    rewrite (register_mixins n item r r1 H1).
    destruct (isStr (field item "type") "mixin"); [|reflexivity].
    rewrite mapGet_mapSet_str. cbn [isStr].
    destruct (n =? name) eqn:E; [|reflexivity].
    apply String.eqb_eq in E. elim Hn. left. exact E.
Qed.

(** X17. The mixins are registered in the pass over the whole document
    that registers the channels, so a property list can splice a mixin
    that is declared after it: the registry the entities are emitted with
    holds, under the name of every entity of type [mixin], that entity,
    and holds nothing under any other key. *)
Theorem mixin_registry (es : list (string * value)) (r : registries) :
  forEach register es noRegistries = Ok r -> NoDup (map fst es) ->
  (forall name item,
      In (name, item) es -> isStr (field item "type") "mixin" = true ->
      mapGet (VStr name) (mixins r) = Some item) /\
  (forall v, declaresMixin es v = false -> mapGet v (mixins r) = None).
Proof.
  intros Hr Hnd. split.
  - intros name item Hin Hm.
    destruct (in_split _ _ Hin) as (pre & post & ->).
    rewrite forEach_app in Hr. apply bind_Ok in Hr. destruct Hr as (r1 & _ & Hr).
    cbn [forEach] in Hr. apply bind_Ok in Hr. destruct Hr as (r2 & H2 & Hr).
    rewrite map_app in Hnd. apply NoDup_remove_2 in Hnd. cbn [map fst] in Hnd.
    rewrite (register_loop_other post r2 r name Hr).
    + rewrite (register_mixins name item r1 r2 H2), Hm, mapGet_mapSet_str.
      cbn [isStr]. now rewrite String.eqb_refl.
    + intros Hp. apply Hnd. apply in_or_app. now right.
  - intros v Hv. destruct (mapGet v (mixins r)) eqn:G; [|reflexivity].
    rewrite (register_loop_mixins es es _ r Hr (incl_refl es)) in Hv; [discriminate| |].
    + intros v' Hv'. cbn in Hv'. contradiction.
    + now rewrite G.
Qed.

Lemma mixin_registry_sample :
  match entries sample with
  | Ok es =>
    match forEach register es noRegistries with
    | Ok r =>
      mapGet (VStr "Base") (mixins r)
      = Some (obj [("type", str "mixin"); ("properties", obj [("timeout", str "number?")])])
    | _ => False
    end
  | _ => False
  end.
Proof.
  cbn [entries sample obj].
  destruct (forEach register _ noRegistries) as [r|e|] eqn:Hr;
    [| vm_compute in Hr; discriminate Hr | vm_compute in Hr; discriminate Hr].
  apply (mixin_registry _ r Hr).
  - cbn. repeat constructor; cbn; intuition discriminate.
  - cbn. right. right. left. reflexivity.
  - reflexivity.
Defined.

(** ** The Options type of required parameters *)

(** X18. For a property list that has an entry and resolves, when no
    entry of the expanded list is optional the Options type is not [{}],
    as it is for an empty property list, but an object type around one
    empty line. *)
Theorem options_of_required channels mixins (fuel : nat) (props : value) (indent : string)
    (params : rendered) (e : string * value) (es : list (string * value)) :
  objectType channels mixins fuel props indent false = Ok params ->
  entries props = Ok (e :: es) ->
  exists n flat rs,
    expandMixins mixins n props = Ok flat /\
    resolveEach channels mixins n (indent ++ "  ") flat = Ok rs /\
    (Forall (fun r => optional (snd r) = false) rs ->
     objectType channels mixins fuel props indent true
     = Ok {| ts_lines := "{" ++ nl ++ nl ++ indent ++ "}";
             scheme_lines := "tObject({" ++ nl ++ nl ++ indent ++ "})" |}).
Proof.
  unfold objectType. intros H He. rewrite He in H |- *. cbn [bind] in H |- *.
  apply bind_Ok in H. destruct H as (inner & Hp & _).
  destruct (properties_expand _ _ _ _ _ _ _ Hp) as (flat & rs & E & _ & R & _ & _).
  exists fuel, flat, rs. split; [exact E|]. split; [exact R|]. intros Hreq.
  destruct fuel as [|k]; [discriminate|]. rewrite properties_S in Hp.
  apply bind_Ok in Hp. destruct Hp as (acc & Hv & _).
  destruct (visit_both channels mixins k props (indent ++ "  ") _ _ Hv ([], []))
    as (acc2 & Hv2).
  assert (Hp2 : properties channels mixins (S k) props (indent ++ "  ") true
                = Ok {| ts_lines := join nl (fst acc2); scheme_lines := join nl (snd acc2) |}).
  { rewrite properties_S. now rewrite Hv2. }
  destruct (properties_expand _ _ _ _ _ _ _ Hp2) as (flat' & rs' & E' & _ & R' & _ & Heq).
  rewrite E in E'. injection E' as <-. rewrite R in R'. injection R' as <-.
  rewrite Hp2, Heq. cbn [bind ts_lines scheme_lines].
  assert (Hk : kept true rs = []).
  { unfold kept. cbn [negb orb]. clear - Hreq.
    induction Hreq as [|r rs Hr _ IH]; [reflexivity|]. cbn [filter]. now rewrite Hr. }
  rewrite Hk. reflexivity.
Qed.

Lemma options_of_required_sample :
  objectType [] [] 3 (obj [("x", str "string")]) "" false
  = Ok {| ts_lines := "{" ++ nl ++ "  x: string," ++ nl ++ "}";
          scheme_lines := "tObject({" ++ nl ++ "  x: tString," ++ nl ++ "})" |} /\
  objectType [] [] 3 (obj [("x", str "string")]) "" true
  = Ok {| ts_lines := "{" ++ nl ++ nl ++ "}"; scheme_lines := "tObject({" ++ nl ++ nl ++ "})" |}.
Proof.
  assert (H : objectType [] [] 3 (obj [("x", str "string")]) "" false
              = Ok {| ts_lines := "{" ++ nl ++ "  x: string," ++ nl ++ "}";
                      scheme_lines := "tObject({" ++ nl ++ "  x: tString," ++ nl ++ "})" |})
    by reflexivity.
  split; [exact H|].
  destruct (options_of_required [] [] 3 _ "" _ _ _ H eq_refl) as (n & flat & rs & E & R & Ho).
  apply Ho.
  destruct n as [|n]; [discriminate|].
  cbn in E. injection E as <-. cbn [resolveEach snd fst] in R. rewrite inlineType_S in R.
  cbn in R. injection R as <-. repeat constructor.
Defined.

(** ** When the fallback is returned *)

Lemma occurs_append (c : ascii) (a b : string) :
  existsb (Ascii.eqb c) (list_ascii_of_string (a ++ String c b)) = true.
Proof.
  induction a as [|x a IH]; cbn.
  - now rewrite Ascii.eqb_refl.
  - rewrite IH. apply orb_true_r.
Qed.

Lemma determineUserAgent_not_fallback (h : host) (s : string) :
  determineUserAgent h = Ok s -> s <> "Playwright/unknown".
Proof.
  intros D E. destruct (determineUserAgent_Ok h s D) as (v & os & Hs).
  rewrite E in Hs. cbn [append] in Hs. injection Hs as Hs.
  apply (f_equal (fun s => existsb (Ascii.eqb " ") (list_ascii_of_string s))) in Hs.
  rewrite occurs_append in Hs. discriminate Hs.
Qed.

(** X19. A first call of [getUserAgent] returns the fallback exactly when
    [determineUserAgent] throws, and that is when a query of the host
    throws: the call of [sw_vers] on macOS, the reading of the
    distribution on Linux, or the reading of the version from
    [package.json]. Nothing that concerns another platform is asked. *)
Theorem getUserAgent_fallback_cause (h : host) :
  (getUserAgent h None = Ok ("Playwright/unknown", Some "Playwright/unknown")
   <-> exists e, determineUserAgent h = Throw e) /\
  (forall e,
      determineUserAgent h = Throw e ->
      (platform h = "darwin" /\ sw_vers h = Throw e) \/
      (platform h = "linux" /\ linuxDistributionInfo h = Throw e) \/
      getPlaywrightVersion h false = Throw e).
Proof.
  split.
  - pose proof (getUserAgent_first h) as F.
    destruct (determineUserAgent h) as [s|e|] eqn:D; rewrite F; split.
    + intros H. injection H as H. now elim (determineUserAgent_not_fallback h s D).
    + intros (e & He). discriminate.
    + intros _. now exists e.
    + reflexivity.
    + discriminate.
    + intros (e & He). discriminate.
  - intros e. unfold determineUserAgent.
    destruct (platform h =? "win32") eqn:Pw.
    { cbn [bind]. destruct (getClientLanguage h).
      destruct (getPlaywrightVersion h false); cbn [bind]; try discriminate.
      intros H. right. right. exact H. }
    destruct (platform h =? "darwin") eqn:Pd.
    { apply String.eqb_eq in Pd. destruct (sw_vers h) as [out|e'|]; cbn [bind].
      - destruct (getClientLanguage h).
        destruct (getPlaywrightVersion h false); cbn [bind]; try discriminate.
        intros H. right. right. exact H.
      - intros H. injection H as <-. left. split; [exact Pd | reflexivity].
      - discriminate. }
    destruct (platform h =? "linux") eqn:Pl.
    { apply String.eqb_eq in Pl.
      destruct (linuxDistributionInfo h) as [[[id version]|]|e'|]; cbn [bind].
      - destruct (getClientLanguage h).
        destruct (getPlaywrightVersion h false); cbn [bind]; try discriminate.
        intros H. right. right. exact H.
      - destruct (getClientLanguage h).
        destruct (getPlaywrightVersion h false); cbn [bind]; try discriminate.
        intros H. right. right. exact H.
      - intros H. injection H as <-. right. left. split; [exact Pl | reflexivity].
      - discriminate. }
    cbn [bind]. destruct (getClientLanguage h).
    destruct (getPlaywrightVersion h false); cbn [bind]; try discriminate.
    intros H. right. right. exact H.
Qed.

(** ** Names that cannot be capitalised *)

(** X20. [titleCase] throws on the empty name, and on no other; so a
    channel with a command or an event whose name is empty makes the run
    end without a result and without touching a file. *)
Theorem empty_name_aborts :
  (forall name, result (titleCase name) = None <-> name = "") /\
  (forall fuel protocol es A item body,
      entries protocol = Ok es -> In (A, item) es -> isChannel item = true ->
      In ("", body) (commandsOf item) \/ In ("", body) (eventsOf item) ->
      result (generate fuel protocol) = None /\
      forall fs, files (snd (main fuel protocol fs)) = fs).
Proof.
  split.
  - intros [|c name]; cbn; split; intros H; try reflexivity; discriminate.
  - intros fuel protocol es A item body Hes Hin Hc Hbody.
    assert (Hnone : result (generate fuel protocol) = None).
    { destruct (generate fuel protocol) as [o|e|] eqn:G; [exfalso | reflexivity | reflexivity].
      destruct Hbody as [Hm|He].
      - destruct (generate_command fuel protocol o es A item "" body G Hes Hin Hc Hm)
          as (r & dc & [ts_types s] & st' & _ & Hcmd & _).
        apply emitCommand_Ok in Hcmd. cbv zeta in Hcmd.
        destruct Hcmd as (t & _ & _ & _ & _ & Ht & _). discriminate.
      - destruct (generate_entity fuel protocol o es A item G Hes Hin)
          as (r & dc & s1 & s2 & _ & Hb & _).
        unfold emitEntity in Hb. apply bind_Ok in Hb. destruct Hb as (type & Ht & Hb).
        apply get_field in Ht. unfold isChannel in Hc. rewrite Ht in Hc. rewrite Hc in Hb.
        apply emitInterface_Ok in Hb.
        destruct Hb as (init & events & ts_types & eventTypes & o1 & ts_types' & o2
                        & _ & Hevents & Hloop & _).
        unfold eventsOf in He. rewrite Hevents in He.
        destruct (forEach_In (fun _ _ => True) _ (fun _ => I) (fun _ _ _ _ _ => I) events
                    (fun _ _ _ _ _ => I) _ _ ("", body) Hloop He)
          as ([[tt et] s] & s' & _ & Hev & _).
        unfold emitEvent in Hev.
        apply bind_Ok in Hev. destruct Hev as (p & _ & Hev).
        apply bind_Ok in Hev. destruct Hev as (parameters & _ & Hev).
        apply bind_Ok in Hev. destruct Hev as (t & Ht' & _). discriminate. }
    split; [exact Hnone|]. intros fs. now rewrite main_not_generated.
Qed.

(** ** The generated files, entity by entity *)

(** A loop whose body appends a group to a list of the state appends the
    groups of the elements, in order. *)
Lemma forEach_groups {A S B : Type} (proj : S -> list B) (P : A -> list B -> Prop)
    (body : A -> S -> outcome S) (l : list A) :
  (forall x s s', In x l -> body x s = Ok s' ->
                  exists g, P x g /\ proj s' = (proj s ++ g)%list) ->
  forall s s', forEach body l s = Ok s' ->
               exists gs, Forall2 P l gs /\ proj s' = (proj s ++ concat gs)%list.
Proof.
  induction l as [|x l IH]; intros Hbody s s' H; cbn in H.
  - injection H as <-. exists []. split; [constructor | cbn; now rewrite app_nil_r].
  - apply bind_Ok in H. destruct H as (s1 & H1 & H2).
    destruct (Hbody x s s1 (or_introl eq_refl) H1) as (g & Hg & E1).
    destruct (IH (fun y t t' Hy => Hbody y t t' (or_intror Hy)) s1 s' H2) as (gs & Hgs & E2).
    exists (g :: gs). split; [now constructor|].
    cbn [concat]. now rewrite E2, E1, <- app_assoc.
Qed.

Lemma emitEntity_block fuel r dc entry o o' :
  emitEntity fuel r dc entry o = Ok o' ->
  exists block, entityBlock fuel r entry block /\
                channels_ts o' = (channels_ts o ++ block)%list.
Proof.
  destruct entry as [name item]. unfold emitEntity, entityBlock, isChannel. intros H.
  apply bind_Ok in H. destruct H as (type & Ht & H). apply get_field in Ht. rewrite Ht.
  destruct (isStr type "interface").
  { apply emitInterface_block in H. destruct H as (init & types & Hi & Hb & Hnd & Hk & _).
    eexists. split; [exists init, types; repeat split; try eassumption; apply Hk|].
    exact Hb. }
  destruct (isStr type "object").
  { apply bind_Ok in H. destruct H as (props & Hp & H). apply get_field in Hp. subst props.
    apply bind_Ok in H. destruct H as (inner & Hi & H). injection H as <-.
    eexists. split; [exists inner; split; [exact Hi | reflexivity]|].
    cbn [addScheme emit channels_ts]. unfold push. now rewrite <- app_assoc. }
  destruct (isStr type "enum").
  { apply bind_Ok in H. destruct H as (literals & Hl & H). apply get_field in Hl.
    destruct literals as [| | | | |literals|]; try discriminate. injection H as <-.
    eexists. split; [exists literals; split; [exact Hl | reflexivity]|]. reflexivity. }
  injection H as <-. exists []. split; [reflexivity | now rewrite app_nil_r].
Qed.

(** X21. The generated [channels.ts] is, in this order: its header, the
    three trait mappings, what each entity of the document adds, in the
    order of the document (the block of a channel, the type of an object
    followed by an empty line, the type of an enum, nothing for a mixin
    or any other entity), and the two sets of command names. *)
Theorem channels_ts_layout (fuel : nat) (protocol : value) (o : output)
    (es : list (string * value)) :
  generate fuel protocol = Ok o -> entries protocol = Ok es ->
  exists r blocks,
    forEach register es noRegistries = Ok r /\
    Forall2 (entityBlock fuel r) es blocks /\
    channels_ts o
    = app (channelsHeader
           :: app (traitMapping "// ----------- Initializer Traits -----------"
                     "export type InitializerTraits<T> =" "Initializer" "    object;" es)
             (app (traitMapping "// ----------- Event Traits -----------"
                     "export type EventsTraits<T> =" "Events" "    undefined;" es)
                  (traitMapping "// ----------- EventTarget Traits -----------"
                     "export type EventTargetTraits<T> =" "EventTarget" "    undefined;" es)))
          (app (concat blocks)
               [setLiteral "commandsWithTracingSnapshots" (tracingSnapshots o); "";
                setLiteral "pausesBeforeInputActions" (pausesBeforeInputActions o)]).
Proof.
  unfold generate. intros G Hes. rewrite Hes in G. cbn [bind] in G.
  apply bind_Ok in G. destruct G as (r & Hr & G).
  apply bind_Ok in G. destruct G as (dc & _ & G).
  apply bind_Ok in G. destruct G as (o1 & H1 & G).
  apply bind_Ok in G. destruct G as (o2 & H2 & G).
  injection G as <-.
  apply emitTraits_channels in H1. cbn [initial channels_ts] in H1.
  destruct (forEach_groups channels_ts (entityBlock fuel r) (emitEntity fuel r dc) es
              (fun x s s' _ Hb => emitEntity_block fuel r dc x s s' Hb) o1 o2 H2)
    as (blocks & Hblocks & E2).
  exists r, blocks. split; [exact Hr|]. split; [exact Hblocks|].
  cbn [finish emit channels_ts tracingSnapshots pausesBeforeInputActions]. unfold push.
  rewrite E2, H1.
  rewrite <- (setLiteral_joined "commandsWithTracingSnapshots").
  rewrite <- (setLiteral_joined "pausesBeforeInputActions").
  cbn [app]. rewrite <- !app_assoc. reflexivity.
Qed.

(** X21 on the sample document. *)
Lemma channels_ts_layout_sample :
  match result (generate 10 sample), entries sample with
  | Some o, Ok es =>
    exists r blocks,
      Forall2 (entityBlock 10 r) es blocks /\
      channels_ts o
      = app (channelsHeader
             :: app (traitMapping "// ----------- Initializer Traits -----------"
                       "export type InitializerTraits<T> =" "Initializer" "    object;" es)
               (app (traitMapping "// ----------- Event Traits -----------"
                       "export type EventsTraits<T> =" "Events" "    undefined;" es)
                    (traitMapping "// ----------- EventTarget Traits -----------"
                       "export type EventTargetTraits<T> =" "EventTarget" "    undefined;" es)))
            (app (concat blocks)
                 [setLiteral "commandsWithTracingSnapshots" ["A.foo"; "B.foo"]; "";
                  setLiteral "pausesBeforeInputActions" []])
  | _, _ => False
  end.
Proof.
  destruct (generate 10 sample) as [o|e|] eqn:G;
    [| vm_compute in G; discriminate G | vm_compute in G; discriminate G].
  cbn [result entries sample obj].
  destruct (channels_ts_layout 10 sample o _ G eq_refl) as (r & blocks & Hr & Hb & H).
  exists r, blocks. split; [exact Hb|]. rewrite H.
  vm_compute in G. injection G as <-. reflexivity.
Defined.

(** ** The assignments of the registry, entity by entity *)

Lemma flat_map_filter {A B : Type} (keep : A -> bool) (f : A -> B) (l : list A) :
  flat_map (fun x => if keep x then [f x] else []) l = map f (filter keep l).
Proof.
  induction l as [|x l IH]; [reflexivity|]. cbn [flat_map filter].
  destruct (keep x); cbn [app map]; now rewrite IH.
Qed.

Lemma addAliases_assignments r A m t paramsName o o' :
  titleCase m = Ok t -> addAliases r A m paramsName o = Ok o' ->
  assignments o'
  = app (assignments o)
        (map (fun e => (toString (fst e) ++ t ++ "Params", "tType('" ++ paramsName ++ "')"))
             (filter (fun e => isStr (snd e) A) (inherits r))).
Proof.
  intros Ht H. unfold addAliases in H. rewrite <- flat_map_filter.
  apply (forEach_appends assignments
           (fun e : value * value =>
              if isStr (snd e) A
              then [(toString (fst e) ++ t ++ "Params", "tType('" ++ paramsName ++ "')")]
              else [])
           _ (inherits r)) in H; [exact H|].
  intros [key parent] s s' _ Hb. cbn [fst snd].
  destruct (isStr parent A).
  - rewrite Ht in Hb. cbn [bind] in Hb. now injection Hb as <-.
  - injection Hb as <-. now rewrite app_nil_r.
Qed.

Lemma children_aliases (es : list (string * value)) (A : string)
    (f : string -> string * string) :
  map (fun e => f (toString (fst e))) (filter (fun e => isStr (snd e) A) (parents es))
  = map f (directChildren es A).
Proof. now rewrite <- parents_children, map_map. Qed.

Section Groups.

Variable es : list (string * value).
Variable fuel : nat.
Variable r : registries.
Variable dc : list (value * list string).
Hypothesis Hparents : inherits r = parents es.

Lemma emitCommand_group A c st st' :
  emitCommand fuel r dc A c st = Ok st' ->
  exists group, commandGroup fuel r es A c group /\
                assignments (snd st') = (assignments (snd st) ++ group)%list.
Proof.
  destruct c as [m method], st as [ts_types o]. intros H.
  apply emitCommand_Ok in H. cbv zeta in H.
  destruct H as (t & parameters & options & returns & o' & Ht & Hp & _ & _ & Ha & ->).
  apply (addAliases_assignments r A m t _ _ _ Ht) in Ha.
  rewrite Hparents in Ha. apply titleCase_capitalize in Ht. subst t.
  eexists. split; [exists parameters; split; [exact Hp | reflexivity]|].
  cbn [snd emit assignments fst]. rewrite Ha. cbn [addScheme assignments]. unfold push.
  rewrite (children_aliases es A
             (fun B => (B ++ capitalize m ++ "Params",
                        "tType('" ++ (A ++ capitalize m ++ "Params") ++ "')"))).
  assert (E : forall o0 : output,
             assignments (if carries method "pausesBeforeInput"
                          then pushPauses (recordedBy dc A m)
                                 (if carries method "snapshot"
                                  then pushSnapshots (recordedBy dc A m) o0 else o0)
                          else if carries method "snapshot"
                               then pushSnapshots (recordedBy dc A m) o0 else o0)
             = assignments o0).
  { intros o0. now destruct (carries method "pausesBeforeInput"),
                 (carries method "snapshot"). }
  rewrite E, <- app_assoc. reflexivity.
Qed.

Lemma emitEntity_group entry o o' :
  emitEntity fuel r dc entry o = Ok o' ->
  exists group, entityGroup fuel r es entry group /\
                assignments o' = (assignments o ++ group)%list.
Proof.
  destruct entry as [name item]. unfold emitEntity, entityGroup, isChannel. intros H.
  apply bind_Ok in H. destruct H as (type & Ht & H). apply get_field in Ht. rewrite Ht.
  destruct (isStr type "interface").
  { apply emitInterface_Ok in H.
    destruct H as (init & events & ts_types & eventTypes & o1 & ts_types' & o2
                   & _ & _ & H1 & H2 & _ & E).
    apply (forEach_preorder (fun s s' => emitsOnly (snd s) (snd s'))) in H1;
      [| intros; apply emitsOnly_refl | intros ? ? ?; apply emitsOnly_trans |].
    2:{ intros [eventName event] [[tt et] s] s' _ Hb. unfold emitEvent in Hb.
        apply bind_Ok in Hb. destruct Hb as (p & _ & Hb).
        apply bind_Ok in Hb. destruct Hb as (parameters & _ & Hb).
        apply bind_Ok in Hb. destruct Hb as (t & _ & Hb). injection Hb as <-.
        cbn [snd]. apply emitsOnly_emit. }
    cbn [snd] in H1. destruct H1 as (_ & _ & _ & E1). cbn [emit assignments] in E1.
    destruct (forEach_groups (fun s => assignments (snd s)) (commandGroup fuel r es name)
                (emitCommand fuel r dc name) (commandsOf item)
                (fun x s s' _ Hb => emitCommand_group name x s s' Hb) _ _ H2)
      as (groups & Hg & E2).
    cbn [snd emit assignments] in E2. rewrite E1 in E2.
    destruct E as (_ & _ & _ & ->).
    exists (concat groups). split; [now exists groups | exact E2]. }
  destruct (isStr type "object").
  { apply bind_Ok in H. destruct H as (props & Hp & H). apply get_field in Hp. subst props.
    apply bind_Ok in H. destruct H as (inner & Hi & H). injection H as <-.
    eexists. split; [exists inner; split; [exact Hi | reflexivity]|]. reflexivity. }
  destruct (isStr type "enum").
  { apply bind_Ok in H. destruct H as (literals & Hl & H). apply get_field in Hl.
    destruct literals as [| | | | |literals|]; try discriminate. injection H as <-.
    eexists. split; [exists literals; split; [exact Hl | reflexivity]|]. reflexivity. }
  injection H as <-. exists []. split; [reflexivity | now rewrite app_nil_r].
Qed.

End Groups.

(** X22. The generated [validator.ts] of a document with distinct entity
    names is, in this order: its header; the assignments of each entity,
    in the order of the document; and the end of [createScheme]. An
    object and an enum have one assignment, of their validator under
    their name; a channel has, for each of its commands in order, the
    assignment of the validator of the Params type, which is
    [tOptional(tObject({}))] when the command declares no parameters,
    followed by one alias for each channel that directly extends the
    channel; any other entity has none. *)
Theorem validator_ts_layout (fuel : nat) (protocol : value) (o : output)
    (es : list (string * value)) :
  generate fuel protocol = Ok o -> entries protocol = Ok es -> NoDup (map fst es) ->
  exists r groups,
    forEach register es noRegistries = Ok r /\
    Forall2 (entityGroup fuel r es) es groups /\
    validator_ts o
    = validatorHeader
      :: push (flat_map (fun a => schemeLines (fst a) (snd a)) (concat groups))
              (nl ++ "  return scheme;" ++ nl ++ "}" ++ nl).
Proof.
  intros G Hes Hnd.
  rewrite (validator_ts_assignments fuel protocol o G).
  unfold generate in G. rewrite Hes in G. cbn [bind] in G.
  apply bind_Ok in G. destruct G as (r & Hr & G).
  apply bind_Ok in G. destruct G as (dc & _ & G).
  apply bind_Ok in G. destruct G as (o1 & H1 & G).
  apply bind_Ok in G. destruct G as (o2 & H2 & G).
  injection G as <-. cbn [finish emit assignments].
  assert (Hp : inherits r = parents es).
  { rewrite (register_loop_parents es _ r Hr Hnd); reflexivity. }
  apply emitTraits_only in H1. destruct H1 as (_ & _ & _ & E1). cbn [initial assignments] in E1.
  destruct (forEach_groups assignments (entityGroup fuel r es) (emitEntity fuel r dc) es
              (fun x s s' _ Hb => emitEntity_group es fuel r dc Hp x s s' Hb) o1 o2 H2)
    as (groups & Hg & E2).
  rewrite E1 in E2. cbn [app] in E2.
  exists r, groups. split; [exact Hr|]. split; [exact Hg|]. now rewrite E2.
Qed.

(** X22 on the sample document. *)
Lemma validator_ts_layout_sample :
  match result (generate 10 sample), entries sample with
  | Some o, Ok es =>
    exists r groups,
      Forall2 (entityGroup 10 r es) es groups /\
      validator_ts o
      = validatorHeader
        :: push (flat_map (fun a => schemeLines (fst a) (snd a)) (concat groups))
                (nl ++ "  return scheme;" ++ nl ++ "}" ++ nl)
  | _, _ => False
  end.
Proof.
  destruct (generate 10 sample) as [o|e|] eqn:G;
    [| vm_compute in G; discriminate G | vm_compute in G; discriminate G].
  cbn [result entries sample obj].
  destruct (validator_ts_layout 10 sample o _ G eq_refl) as (r & groups & Hr & Hg & H).
  - cbn. repeat constructor; cbn; intuition discriminate.
  - exists r, groups. split; [exact Hg | exact H].
Defined.

(** ** The version of the system *)

Lemma parts_twoComponents (raw : string) :
  part (split "." raw) 0 ++ "." ++ part (split "." raw) 1 = twoComponents raw.
Proof.
  unfold twoComponents, majorMinor.
  destruct (split_cons "." raw) as (x & l & E). rewrite E.
  destruct l as [|y l]; reflexivity.
Qed.

(** X23. On Windows and on macOS the user agent gives the version of the
    system by its first two components, read from [os.release()] and
    from the trimmed output of [sw_vers]; a version that has one
    component only is printed with [undefined] for the second, as the
    second element of the split is read without a check. *)
Theorem determineUserAgent_version (h : host) (s : string) :
  determineUserAgent h = Ok s ->
  (platform h = "win32" ->
   exists v,
     s = "Playwright/" ++ v ++ " (" ++ arch h ++ "; windows " ++ twoComponents (release h)
           ++ ") " ++ fst (getClientLanguage h) ++ "/" ++ snd (getClientLanguage h)
           ++ (if isSet (env_CI h) then " CI/1" else "")) /\
  (platform h = "darwin" ->
   exists v out,
     sw_vers h = Ok out /\
     s = "Playwright/" ++ v ++ " (" ++ arch h ++ "; macOS " ++ twoComponents (trim out)
           ++ ") " ++ fst (getClientLanguage h) ++ "/" ++ snd (getClientLanguage h)
           ++ (if isSet (env_CI h) then " CI/1" else "")).
Proof.
  unfold determineUserAgent. intros H. split; intros P; rewrite P in H.
  - change ("win32" =? "win32") with true in H. cbv iota in H. cbn [bind] in H.
    destruct (getClientLanguage h) as [langName langVersion].
    apply bind_Ok in H. destruct H as (v & _ & H). injection H as <-.
    exists v. rewrite parts_twoComponents. cbn [fst snd].
    now destruct (isSet (env_CI h)).
  - change ("darwin" =? "win32") with false in H.
    change ("darwin" =? "darwin") with true in H. cbv iota in H.
    apply bind_Ok in H. destruct H as ([osIdentifier osVersion] & Hos & H).
    apply bind_Ok in Hos. destruct Hos as (out & Hout & Hos). injection Hos as <- <-.
    destruct (getClientLanguage h) as [langName langVersion].
    apply bind_Ok in H. destruct H as (v & _ & H). injection H as <-.
    exists v, out. split; [exact Hout|]. rewrite parts_twoComponents. cbn [fst snd].
    now destruct (isSet (env_CI h)).
Qed.

(** X23 on a Windows host whose release has a single component. *)
Lemma determineUserAgent_version_windows :
  determineUserAgent windowsHost
  = Ok "Playwright/1.36.0 (arm64; windows 11.undefined) java/17" /\
  exists v,
    "Playwright/1.36.0 (arm64; windows 11.undefined) java/17"
    = "Playwright/" ++ v ++ " (arm64; windows " ++ twoComponents "11" ++ ") java/17".
Proof.
  assert (H : determineUserAgent windowsHost
              = Ok "Playwright/1.36.0 (arm64; windows 11.undefined) java/17") by reflexivity.
  split; [exact H|].
  destruct (determineUserAgent_version windowsHost _ H) as [Hw _].
  destruct (Hw eq_refl) as (v & Hv). exists v. exact Hv.
Defined.

(** ** The validator of the parameters of a command *)

(** X24. In a run that returns, every command of a channel has the
    validator of its Params type assigned under the Params name: the
    validator [objectType] gives for the declared parameters, as it is and
    whether or not any of them is required, and [tOptional(tObject({}))]
    when the command declares none; the registry keeps it unless a later
    assignment has the same name; and the signature of the command is in
    [channels.ts], with [params] optional exactly when no parameters are
    declared. On [optionalOnly], whose command declares only optional
    parameters, the registry keeps the bare object validator and the
    signature requires [params]; on [shadowed] the alias pushed for the
    parent replaces the validator of the command [B.foo] itself. *)
Theorem params_registration :
  (forall fuel protocol o es A item m method,
      generate fuel protocol = Ok o -> entries protocol = Ok es ->
      In (A, item) es -> isChannel item = true -> In (m, method) (commandsOf item) ->
      exists r params before after,
        forEach register es noRegistries = Ok r /\
        objectType (channels r) (mixins r) fuel
                   (orElse (field method "parameters") (VObj [])) "" false = Ok params /\
        assignments o
        = app before
              ((A ++ capitalize m ++ "Params",
                if truthy (field method "parameters") then scheme_lines params
                else "tOptional(tObject({}))") :: after) /\
        (~ In (A ++ capitalize m ++ "Params") (map fst after) ->
         registered (assignments o) (A ++ capitalize m ++ "Params")
         = Some (if truthy (field method "parameters") then scheme_lines params
                 else "tOptional(tObject({}))")) /\
        In (signature A (m, method)) (channels_ts o)) /\
  match result (generate 10 optionalOnly) with
  | Some o =>
    registered (assignments o) "AFooParams" = Some "tObject({
  x: tOptional(tString),
})" /\
    In "export type AFooOptions = {
  x?: string,
};" (channels_ts o) /\
    In "  foo(params: AFooParams, metadata?: Metadata): Promise<AFooResult>;" (channels_ts o)
  | None => False
  end /\
  match result (generate 10 shadowed) with
  | Some o =>
    assignments o = [("BFooParams", "tObject({
  y: tNumber,
})");
                     ("AFooParams", "tObject({
  x: tString,
})");
                     ("BFooParams", "tType('AFooParams')")] /\
    registered (assignments o) "BFooParams" = Some "tType('AFooParams')"
  | None => False
  end.
Proof.
  split; [|split].
  - intros fuel protocol o es A item m method H Hes HA Hc Hm.
    destruct (generate_command fuel protocol o es A item m method H Hes HA Hc Hm)
      as (r & dc & [ts_types s] & st' & Hr & Hcmd & G).
    apply emitCommand_Ok in Hcmd. cbv zeta in Hcmd.
    destruct Hcmd as (t & parameters & options & returns & o'
                      & Ht & Hpar & _ & _ & Ha & ->).
    apply titleCase_capitalize in Ht. subst t.
    cbn [snd] in G. apply addAliases_grows in Ha.
    set (expression := if truthy (field method "parameters") then scheme_lines parameters
                       else "tOptional(tObject({}))") in *.
    assert (Hin : In (A ++ capitalize m ++ "Params", expression) (assignments o)).
    { apply (pushed_In _ _ _ (grows_assignments _ _ G)).
      cbn [emit assignments].
      apply (pushed_In _ _ _ (grows_assignments _ _ Ha)).
      cbn [addScheme assignments]. apply in_or_app. right. now left. }
    apply in_split in Hin. destruct Hin as (before & after & E).
    exists r, parameters, before, after.
    split; [exact Hr|]. split; [exact Hpar|]. split; [exact E|]. split.
    + intros Hlast. rewrite E. now apply registered_last.
    + apply (pushed_In _ _ _ (grows_channels _ _ G)).
      cbn [emit channels_ts]. apply in_or_app. right. left. reflexivity.
  - vm_compute. split; [reflexivity|].
    split; repeat (first [left; reflexivity | right]).
  - vm_compute. split; reflexivity.
Qed.
